(** * dndtools-crawler: a shallow embedding of [src/index.ts]

    The crawler walks the paginated spell index of a web site, keeps the
    rows of two rulebooks, reads one record per spell page and prints the
    records as one JSON array.  This file embeds its functions in Gallina
    and proves the properties its specification states about them.

    Layout: the JavaScript values the code computes with (strings, numbers,
    regular expressions); the monad of the code (exceptions and a trace of
    what it logs, asks of the browser and writes); the browser as the code
    sees it, an oracle for every call that the code awaits; the functions
    of [index.ts] in source order; the notions the statements use; and
    then the lemmas and theorems, those of the specification marked C1 to
    C10 and further properties of the code marked X1 to X24.

    Two loops of the code have no bound (the clicks of the paginator and
    its walk over the pages) and are given fuel.  The runner is a state
    machine driven by a schedule, since the order in which fetches settle
    is not the program's to choose. *)

From Stdlib Require Import String Ascii.
From Stdlib Require Import List ZArith NArith Bool Lia Permutation.
From Stdlib Require Import DecimalString.
From Equations Require Import Equations.
Import ListNotations.

Set Implicit Arguments.
Unset Strict Implicit.

Local Open Scope Z_scope.

(* ===================================================================== *)
(** * JavaScript values *)
(* ===================================================================== *)

(** A JavaScript string is a sequence of UTF-16 code units. *)
Definition jschar := N.
Definition jsstring := list jschar.

(** The code units of a source literal (ASCII in [index.ts]). *)
Definition js (s : string) : jsstring :=
  map N_of_ascii (list_ascii_of_string s).

Definition one_of (cs : list N) (c : jschar) : bool :=
  existsb (N.eqb c) cs.

(** [\d] *)
Definition isDigit (c : jschar) : bool :=
  (48 <=? c)%N && (c <=? 57)%N.

(** LineTerminator: LF, CR, LS, PS. *)
Definition isLineTerminator (c : jschar) : bool :=
  one_of [10; 13; 8232; 8233]%N c.

(** [\s], which is also the StrWhiteSpaceChar of [trim] and [parseInt]:
    WhiteSpace and LineTerminator. *)
Definition isSpace (c : jschar) : bool :=
  one_of [9; 10; 11; 12; 13; 32; 160; 5760; 8232; 8233; 8239; 8287; 12288; 65279]%N c
  || ((8192 <=? c)%N && (c <=? 8202)%N).

(** [.] without the [s] flag *)
Definition isDot (c : jschar) : bool := negb (isLineTerminator c).

Fixpoint trimStart (s : jsstring) : jsstring :=
  match s with
  | c :: s' => if isSpace c then trimStart s' else s
  | [] => []
  end.

Definition trimEnd (s : jsstring) : jsstring := rev (trimStart (rev s)).

(** [String.prototype.trim] *)
Definition trim (s : jsstring) : jsstring := trimEnd (trimStart s).

(** A JavaScript number as [parseInt] produces it: a double.  [Num z] is
    the finite double of integer value [z], with [Num 0] for [+0];
    [NegZero] is [-0]. *)
Inductive number : Type :=
| Num (z : Z)
| NegZero
| Infinity
| NegInfinity
| NaN.

(** The integer nearest to [v >= 0] that a double can hold, ties to even
    (IEEE 754 binary64, 53 significant bits): below 2^53 it is [v]
    itself, above it the bits after the 53rd are rounded off. *)
Definition nearestDouble (v : Z) : Z :=
  let e := Z.log2 v - 52 in
  if e <=? 0 then v
  else
    let q := Z.shiftr v e in
    let r := Z.land v (Z.ones e) in
    let half := Z.shiftl 1 (e - 1) in
    Z.shiftl (if (half <? r) || ((r =? half) && Z.odd q) then q + 1 else q) e.

(** The Number value of an integer (ECMA-262, 6.1.6.1): the nearest
    double, and an infinity from 2^1024 - 2^970 on. *)
Definition toDouble (z : Z) : number :=
  let m := nearestDouble (Z.abs z) in
  if m <? 2 ^ 1024 then Num (Z.sgn z * m)
  else if z <? 0 then NegInfinity else Infinity.

Definition digitValue (radix : Z) (c : jschar) : option Z :=
  let v :=
    if isDigit c then Some (Z.of_N c - 48)
    else if (97 <=? c)%N && (c <=? 122)%N then Some (Z.of_N c - 87)
    else if (65 <=? c)%N && (c <=? 90)%N then Some (Z.of_N c - 55)
    else None in
  match v with
  | Some d => if d <? radix then Some d else None
  | None => None
  end.

(** The longest prefix of radix digits, folded into its value; [None] when
    that prefix is empty. *)
Fixpoint digitsValue (radix : Z) (acc : option Z) (s : jsstring) : option Z :=
  match s with
  | c :: s' =>
      match digitValue radix c with
      | Some d =>
          digitsValue radix
            (Some (match acc with Some a => a * radix + d | None => d end)) s'
      | None => acc
      end
  | [] => acc
  end.

(** [parseInt(string)] with no radix argument (ECMA-262, 18.2.5): strip
    leading white space, an optional sign, an optional [0x]/[0X], then read
    digits as far as they go; the result is the double of the integer
    read, [-0] for a zero after a minus sign.  For more than twenty
    decimal digits the standard lets an engine round the digits off
    first; V8, the engine of Node, rounds the exact integer, as here. *)
Definition parseInt (str : jsstring) : number :=
  let s := trimStart str in
  let '(sign, s) :=
    match s with
    | 45%N :: s' => (-1, s')
    | 43%N :: s' => (1, s')
    | _ => (1, s)
    end in
  let '(radix, s) :=
    match s with
    | 48%N :: 120%N :: s' => (16, s')
    | 48%N :: 88%N :: s' => (16, s')
    | _ => (10, s)
    end in
  match digitsValue radix None s with
  | Some v => if (v =? 0) && (sign <? 0) then NegZero else toDouble (sign * v)
  | None => NaN
  end.

(** The number a run of decimal digits stands for. *)
Definition decimalValue (digits : jsstring) : Z :=
  fold_left (fun a c => a * 10 + (Z.of_N c - 48)) digits 0.

(** A number that counts: a non-negative integer, or [Infinity]. *)
Definition counting (n : number) : Prop :=
  (exists z, n = Num z /\ 0 <= z) \/ n = Infinity.

(* --------------------------------------------------------------------- *)
(** ** Regular expressions *)
(* --------------------------------------------------------------------- *)

(** The fragment of JavaScript regular expressions that the patterns of
    [index.ts] are written in: literals, classes, greedy [*] and [+] over a
    class, greedy [?], concatenation, capture groups, [^] and [$] (no
    flags). *)
Inductive regex : Type :=
| Chr (c : jschar)
| Cls (p : jschar -> bool)
| Star (p : jschar -> bool)
| Plus (p : jschar -> bool)
| Opt (r : regex)
| Seq (r1 r2 : regex)
| Grp (r : regex)
| Bol
| Eol.

Section Matcher.

Variable A : Type.

(** Greedy repetition of a class: take as many as possible, give back
    one at a time while the continuation fails. *)
Fixpoint star (p : jschar -> bool) (s : jsstring)
         (k : jsstring -> option A) : option A :=
  match s with
  | c :: s' =>
      if p c then
        match star p s' k with
        | Some a => Some a
        | None => k s
        end
      else k s
  | [] => k []
  end.

(** The input the match runs on; [^] compares against it. *)
Variable input : jsstring.

(** Backtracking matcher in continuation-passing style: [s] is the rest
    of the input, [caps] the groups closed so far. *)
Fixpoint rmatch (r : regex) (s : jsstring) (caps : list jsstring)
         (k : jsstring -> list jsstring -> option A) : option A :=
  match r with
  | Chr c =>
      match s with
      | c' :: s' => if (c' =? c)%N then k s' caps else None
      | [] => None
      end
  | Cls p =>
      match s with
      | c' :: s' => if p c' then k s' caps else None
      | [] => None
      end
  | Star p => star p s (fun s' => k s' caps)
  | Plus p =>
      match s with
      | c' :: s' => if p c' then star p s' (fun s'' => k s'' caps) else None
      | [] => None
      end
  | Opt r' =>
      match rmatch r' s caps k with
      | Some a => Some a
      | None => k s caps
      end
  | Seq r1 r2 => rmatch r1 s caps (fun s' caps' => rmatch r2 s' caps' k)
  | Grp r' =>
      rmatch r' s caps
        (fun s' caps' =>
           k s' (caps' ++ [firstn (length s - length s') s]))
  | Bol => if (length s =? length input)%nat then k s caps else None
  | Eol => match s with [] => k [] caps | _ :: _ => None end
  end.

End Matcher.

(** [RegExp.prototype.exec] on a fresh pattern: the leftmost position at
    which the pattern matches; the result array holds the matched text and
    then the groups. *)
Fixpoint scan (r : regex) (input s : jsstring) : option (list jsstring) :=
  let here :=
    rmatch input r s []
      (fun s' caps => Some (firstn (length s - length s') s :: caps)) in
  match here with
  | Some m => Some m
  | None =>
      match s with
      | _ :: s' => scan r input s'
      | [] => None
      end
  end.

Definition exec (r : regex) (input : jsstring) : option (list jsstring) :=
  scan r input input.

(** Element [i] of a result array. *)
Definition group (m : list jsstring) (i : nat) : jsstring := nth i m [].

(** The pattern of [parseClassSpellLevel]: [^], a group of [.*], [\s], a
    group of [\d+], [$]. *)
Definition re_classLevel : regex :=
  Seq Bol (Seq (Grp (Star isDot)) (Seq (Cls isSpace) (Seq (Grp (Plus isDigit)) Eol))).

(** The pattern of [readSource]: [\d+]. *)
Definition re_digits : regex := Plus isDigit.

(** The pattern [crawlSpellPage] reads the id with: a group of [\d+], an
    optional [/], [$]. *)
Definition re_trailingId : regex :=
  Seq (Grp (Plus isDigit)) (Seq (Opt (Chr 47%N)) Eol).

(* ===================================================================== *)
(** * Errors, observable events and the monad of the crawler *)
(* ===================================================================== *)

(** A thrown value: an [Error] object, of which the code reads the
    message. *)
Record error : Type := Error { message : string }.

Inductive result (A : Type) : Type :=
| Ok (a : A)
| Throw (e : error).
Arguments Ok {A} a.
Arguments Throw {A} e.

(** The levels of the winston logger. *)
Inductive loglevel : Type := ERROR | WARN | INFO | VERBOSE | DEBUG.

(** The constants of [index.ts]. *)
Definition DNDTOOLS_URL_BASE : jsstring := js "https://dndtools.net".
Definition RULEBOOKS : list jsstring :=
  [js "Player's Handbook v.3.5"; js "Spell Compendium"].
Definition CONCURRENCY : nat := 4.
Definition RETRY_LIMIT : Z := 10.

(* --------------------------------------------------------------------- *)
(** ** The record the crawler builds *)
(* --------------------------------------------------------------------- *)

Module ClassSpellLevel.
Record t : Type := make { class : jsstring; level : number }.
End ClassSpellLevel.

Module DomainSpellLevel.
Record t : Type := make { domain : jsstring; level : number }.
End DomainSpellLevel.

Module SpellSource.
Record t : Type := make { rulebook : jsstring; page : number }.
End SpellSource.

(** [null] is [None].  The declared element types ([ClassSpellLevel],
    [string]) include [null], and [parseClassSpellLevel] and [getAttribute]
    return it, hence the options inside [classLevels] and [components]. *)
Module Spell.
Record t : Type := make {
  id : jsstring;
  name : jsstring;
  source : option SpellSource.t;
  schools : list jsstring;
  subschools : list jsstring;
  descriptors : list jsstring;
  classLevels : list (option ClassSpellLevel.t);
  domainLevels : list DomainSpellLevel.t;
  components : list (option jsstring);
  castingTime : option jsstring;
  range : option jsstring;
  area : option jsstring;
  target : option jsstring;
  effect : option jsstring;
  duration : option jsstring;
  savingThrow : option jsstring;
  spellResistance : option jsstring;
  description : option jsstring
}.
End Spell.

(** What the program does that can be seen from outside: the log lines
    (level, message, and the [error] entry of the metadata when there is
    one; a message built by a template is kept at its fixed words), the
    calls that drive the browser, and the writes to standard output.  The
    logger writes every level to standard error.  The one write to
    standard output is [JSON.stringify(spells, null, 2)]; [Stdout] carries
    the array that is serialised. *)
Inductive event : Type :=
| Log (lvl : loglevel) (msg : string) (err : option string)
| Launch
| NewPage
| Goto (url : jsstring)
| Click
| ClosePage
| CloseBrowser
| Stdout (json : list Spell.t).

Definition trace := list event.

(** Computations that may throw and that append to the trace. *)
Definition M (A : Type) : Type := trace -> result A * trace.

Definition ret {A} (a : A) : M A := fun t => (Ok a, t).

Definition bind {A B} (m : M A) (k : A -> M B) : M B :=
  fun t =>
    match m t with
    | (Ok a, t') => k a t'
    | (Throw e, t') => (Throw e, t')
    end.

Definition throw {A} (e : error) : M A := fun t => (Throw e, t).

Definition lift {A} (r : result A) : M A := fun t => (r, t).

Definition emit (ev : event) : M unit := fun t => (Ok tt, t ++ [ev]).

(** [try { body } catch (error) { handler }] *)
Definition try_catch {A} (body : M A) (handler : error -> M A) : M A :=
  fun t =>
    match body t with
    | (Ok a, t') => (Ok a, t')
    | (Throw e, t') => handler e t'
    end.

(** [try { body } finally { cleanup }]: an exception of the cleanup
    replaces the outcome of the body. *)
Definition try_finally {A} (body : M A) (cleanup : M unit) : M A :=
  fun t =>
    match body t with
    | (r, t') =>
        match cleanup t' with
        | (Ok _, t'') => (r, t'')
        | (Throw e, t'') => (Throw e, t'')
        end
    end.

Declare Scope crawl_scope.
Delimit Scope crawl_scope with crawl.
Notation "x <- m ;; k" := (bind m (fun x => k))
  (at level 61, m at next level, right associativity) : crawl_scope.
Notation "m ;; k" := (bind m (fun _ => k))
  (at level 61, right associativity) : crawl_scope.
Local Open Scope crawl_scope.

Definition log (lvl : loglevel) (msg : string) : M unit :=
  emit (Log lvl msg None).

(** A log call whose metadata is [{error: error.message}]. *)
Definition log_error (lvl : loglevel) (msg : string) (e : error) : M unit :=
  emit (Log lvl msg (Some (message e))).

(** [await Promise.all(ps)]: the values in order, or a rejection.  Of
    several rejections [Promise.all] reports the one that comes first in
    time; here it is the leftmost, so that where more than one promise
    rejects only the error reported, and the message logged with it, can
    differ from a run of the code. *)
Fixpoint Promise_all {A} (ps : list (M A)) : M (list A) :=
  match ps with
  | [] => ret []
  | p :: ps' => a <- p ;; l <- Promise_all ps' ;; ret (a :: l)
  end.

(* ===================================================================== *)
(** * The browser as the code sees it *)
(* ===================================================================== *)

(** The CSS selectors of [index.ts]. *)
Inductive selector : Type :=
| SelTableRows                 (* table.common tr *)
| SelTh                        (* th *)
| SelCellLink (n : nat)        (* td:nth-child(n) a *)
| SelNext                      (* a.next *)
| SelHeading                   (* #content h2 *)
| SelLinkTo (prefix : string)  (* #content a[href^=prefix] *)
| SelDescription.              (* #content .nice-textile *)

(** Its XPath expressions, all anchored at a [strong] with a given text:
    the first text node after it, or the [abbr] elements after it. *)
Inductive xpath : Type :=
| XTextAfter (label : string)
| XAbbrAfter (label : string).

(** A node of a loaded document, with what the code reads from it.
    [query] is what a selector finds below the node; a failed query is a
    protocol error of the browser. *)
#[local] Unset Elimination Schemes.
Inductive Element : Type := mkElement {
  textContent : jsstring;
  innerHTML : jsstring;
  getAttribute : string -> option jsstring;
  nextSibling : option jsstring;      (* the text of the next sibling *)
  detached : option error;            (* what [evaluate] on its handle rejects with *)
  query : selector -> result (list Element)
}.
#[local] Set Elimination Schemes.

Record Document : Type := mkDocument {
  doc_query : selector -> result (list Element);
  doc_xpath : xpath -> result (list Element)
}.

Definition first_or_null (l : list Element) : option Element :=
  match l with
  | e :: _ => Some e
  | [] => None
  end.

(** The text of a selector as [index.ts] writes it. *)
Definition dquote : string := String (ascii_of_nat 34) EmptyString.

Definition selector_text (sel : selector) : string :=
  match sel with
  | SelTableRows => "table.common tr"
  | SelTh => "th"
  | SelCellLink n =>
      "td:nth-child(" ++ NilEmpty.string_of_uint (Nat.to_uint n) ++ ") a"
  | SelNext => "a.next"
  | SelHeading => "#content h2"
  | SelLinkTo prefix => "#content a[href^=" ++ dquote ++ prefix ++ dquote ++ "]"
  | SelDescription => "#content .nice-textile"
  end.

(** What [$eval] of puppeteer rejects with when the selector finds
    nothing. *)
Definition no_match (sel : selector) : error :=
  Error ("Error: failed to find element matching selector "
         ++ dquote ++ selector_text sel ++ dquote).

Definition eval_first {A} (sel : selector) (q : result (list Element))
           (f : Element -> result A) : M A :=
  l <- lift q ;;
  match l with
  | e :: _ => lift (f e)
  | [] => throw (no_match sel)
  end.

(** [page.$(sel)], [page.$$(sel)], [page.$eval(sel, f)],
    [page.$$eval(sel, f)], [page.$x(path)] *)
Definition page_S (page : Document) (sel : selector) : M (option Element) :=
  l <- lift (doc_query page sel) ;; ret (first_or_null l).
Definition page_SS (page : Document) (sel : selector) : M (list Element) :=
  lift (doc_query page sel).
Definition page_Seval {A} (page : Document) (sel : selector)
           (f : Element -> result A) : M A :=
  eval_first sel (doc_query page sel) f.
Definition page_SSeval {A} (page : Document) (sel : selector)
           (f : list Element -> result A) : M A :=
  l <- lift (doc_query page sel) ;; lift (f l).
Definition page_Sx (page : Document) (path : xpath) : M (list Element) :=
  lift (doc_xpath page path).

(** [row.$(sel)] and [row.$eval(sel, f)] on an element handle *)
Definition elem_S (row : Element) (sel : selector) : M (option Element) :=
  l <- lift (query row sel) ;; ret (first_or_null l).
Definition elem_Seval {A} (row : Element) (sel : selector)
           (f : Element -> result A) : M A :=
  eval_first sel (query row sel) f.

(** [handle.evaluate(f)] *)
Definition evaluate {A} (handle : Element) (f : Element -> result A) : M A :=
  match detached handle with
  | Some e => throw e
  | None => lift (f handle)
  end.

(** A [TypeError] of the engine; its [message] does not name the kind
    of error. *)
Definition TypeError (what : string) : error := Error what.

(** What puppeteer rejects with when the function it evaluates in the
    page throws a [TypeError].  The message goes on with the stack of the
    page's script, which is left out here. *)
Definition EvaluationFailed (what : string) : error :=
  Error ("Evaluation failed: TypeError: " ++ what).

(** [e.nextSibling.textContent], evaluated in the page *)
Definition nextSiblingText (e : Element) : result jsstring :=
  match nextSibling e with
  | Some s => Ok s
  | None =>
      Throw (EvaluationFailed "Cannot read property 'textContent' of null")
  end.

(* ===================================================================== *)
(** * [crawlSpellPage]: the field extractors and the fetch of one spell *)
(* ===================================================================== *)

Definition parseClassSpellLevel (str : jsstring) : option ClassSpellLevel.t :=
  match exec re_classLevel str with
  | Some r =>
      Some (ClassSpellLevel.make (group r 1) (parseInt (group r 2)))
  | None => None
  end.

(** The text of an element, trimmed. *)
Definition trimmedText (e : Element) : result jsstring :=
  Ok (trim (textContent e)).

Definition readName (page : Document) : M jsstring :=
  try_catch
    (name <- page_Seval page SelHeading trimmedText ;;
     log DEBUG "Read name." ;;
     ret name)
    (fun error => throw error).

(** The callback [readSource] evaluates on the rulebook link. *)
Definition sourceOf (e : Element) : result SpellSource.t :=
  let rulebook := trim (textContent e) in
  match nextSiblingText e with
  | Throw err => Throw err
  | Ok text =>
      match exec re_digits text with
      | Some r => Ok (SpellSource.make rulebook (parseInt (group r 0)))
      | None => Throw (EvaluationFailed "Cannot read property '0' of null")
      end
  end.

Definition readSource_try (page : Document) : M (option SpellSource.t) :=
  source <- page_Seval page (SelLinkTo "/rulebooks/") sourceOf ;;
  log DEBUG "Read source." ;;
  ret (Some source).

Definition readSource (page : Document) : M (option SpellSource.t) :=
  try_catch (readSource_try page)
    (fun error =>
       log_error WARN "Could not read spell source." error ;; ret None).

(** [el => el.map(e => e.textContent.trim())] *)
Definition trimmedTexts (el : list Element) : result (list jsstring) :=
  Ok (map (fun e => trim (textContent e)) el).

Definition readSchools_try (page : Document) : M (list jsstring) :=
  schools <- page_SSeval page (SelLinkTo "/spells/schools/") trimmedTexts ;;
  log DEBUG "Read schools." ;;
  ret schools.

Definition readSchools (page : Document) : M (list jsstring) :=
  try_catch (readSchools_try page)
    (fun error =>
       log_error WARN "Could not read spell schools." error ;; ret []).

Definition readSubschools_try (page : Document) : M (list jsstring) :=
  subschools <- page_SSeval page (SelLinkTo "/spells/sub-schools/") trimmedTexts ;;
  log DEBUG "Read subschools." ;;
  ret subschools.

Definition readSubschools (page : Document) : M (list jsstring) :=
  try_catch (readSubschools_try page)
    (fun error =>
       log_error WARN "Could not read spell subschools." error ;; ret []).

Definition readDescriptors_try (page : Document) : M (list jsstring) :=
  descriptors <- page_SSeval page (SelLinkTo "/spells/descriptors/") trimmedTexts ;;
  log DEBUG "Read descriptors." ;;
  ret descriptors.

Definition readDescriptors (page : Document) : M (list jsstring) :=
  try_catch (readDescriptors_try page)
    (fun error =>
       log_error WARN "Could not read spell descriptors." error ;; ret []).

Definition readClassLevels_try (page : Document)
  : M (list (option ClassSpellLevel.t)) :=
  texts <- page_SSeval page (SelLinkTo "/classes/")
             (fun el => Ok (map textContent el)) ;;
  let classLevels := map parseClassSpellLevel texts in
  log DEBUG "Read classLevels." ;;
  ret classLevels.

Definition readClassLevels (page : Document)
  : M (list (option ClassSpellLevel.t)) :=
  try_catch (readClassLevels_try page)
    (fun error =>
       log_error WARN "Could not read spell classLevels." error ;; ret []).

(** The async callback [readDomainLevels] maps over the domain links. *)
Definition domainLevelOf (e : Element) : M DomainSpellLevel.t :=
  domain <- evaluate e (fun e => Ok (textContent e)) ;;
  level <- evaluate e
             (fun e =>
                match nextSiblingText e with
                | Ok text => Ok (parseInt text)
                | Throw err => Throw err
                end) ;;
  ret (DomainSpellLevel.make domain level).

Definition readDomainLevels_try (page : Document)
  : M (list DomainSpellLevel.t) :=
  domainNameElements <- page_SS page (SelLinkTo "/spells/domains/") ;;
  domainLevels <- Promise_all (map domainLevelOf domainNameElements) ;;
  log DEBUG "Read domainLevels." ;;
  ret domainLevels.

Definition readDomainLevels (page : Document) : M (list DomainSpellLevel.t) :=
  try_catch (readDomainLevels_try page)
    (fun error =>
       log_error WARN "Could not read spell domainLevels." error ;; ret []).

Definition readComponents_try (page : Document) : M (list (option jsstring)) :=
  handles <- page_Sx page (XAbbrAfter "Components:") ;;
  components <-
    Promise_all
      (map (fun eh => evaluate eh (fun e => Ok (getAttribute e "title")))
           handles) ;;
  log DEBUG "Read components." ;;
  ret components.

Definition readComponents (page : Document) : M (list (option jsstring)) :=
  try_catch (readComponents_try page)
    (fun error =>
       log_error WARN "Could not read spell components." error ;; ret []).

(** The expression the eight text fields share:
    [(await page.$x(path))[0].evaluate(e => e.textContent.trim())]
    with the text node after the [strong] labelled [label]. *)
Definition textAfter (page : Document) (label : string) : M jsstring :=
  nodes <- page_Sx page (XTextAfter label) ;;
  match nodes with
  | node :: _ => evaluate node trimmedText
  | [] => throw (TypeError "Cannot read property 'evaluate' of undefined")
  end.

Definition readCastingTime_try (page : Document) : M (option jsstring) :=
  castingTime <- textAfter page "Casting Time:" ;;
  log DEBUG "Read castingTime." ;;
  ret (Some castingTime).

Definition readCastingTime (page : Document) : M (option jsstring) :=
  try_catch (readCastingTime_try page)
    (fun error =>
       log_error WARN "Could not read spell castingTime." error ;; ret None).

Definition readRange_try (page : Document) : M (option jsstring) :=
  range <- textAfter page "Range:" ;;
  log DEBUG "Read range." ;;
  ret (Some range).

Definition readRange (page : Document) : M (option jsstring) :=
  try_catch (readRange_try page)
    (fun error =>
       log_error WARN "Could not read spell range." error ;; ret None).

Definition readArea_try (page : Document) : M (option jsstring) :=
  area <- textAfter page "Area:" ;;
  log DEBUG "Read range." ;;
  ret (Some area).

Definition readArea (page : Document) : M (option jsstring) :=
  try_catch (readArea_try page)
    (fun error =>
       log_error WARN "Could not read spell area." error ;; ret None).

Definition readTarget_try (page : Document) : M (option jsstring) :=
  target <- textAfter page "Target:" ;;
  log DEBUG "Read target." ;;
  ret (Some target).

Definition readTarget (page : Document) : M (option jsstring) :=
  try_catch (readTarget_try page)
    (fun error =>
       log_error WARN "Could not read spell target." error ;; ret None).

Definition readEffect_try (page : Document) : M (option jsstring) :=
  effect <- textAfter page "Effect:" ;;
  log DEBUG "Read target." ;;
  ret (Some effect).

Definition readEffect (page : Document) : M (option jsstring) :=
  try_catch (readEffect_try page)
    (fun error =>
       log_error WARN "Could not read spell effect." error ;; ret None).

Definition readDuration_try (page : Document) : M (option jsstring) :=
  duration <- textAfter page "Duration:" ;;
  log DEBUG "Read duration." ;;
  ret (Some duration).

Definition readDuration (page : Document) : M (option jsstring) :=
  try_catch (readDuration_try page)
    (fun error =>
       log_error WARN "Could not read spell duration." error ;; ret None).

Definition readSavingThrow_try (page : Document) : M (option jsstring) :=
  savingThrow <- textAfter page "Saving Throw:" ;;
  log DEBUG "Read savingThrow." ;;
  ret (Some savingThrow).

Definition readSavingThrow (page : Document) : M (option jsstring) :=
  try_catch (readSavingThrow_try page)
    (fun error =>
       log_error WARN "Could not read spell savingThrow." error ;; ret None).

Definition readSpellResistance_try (page : Document) : M (option jsstring) :=
  spellResistance <- textAfter page "Spell Resistance:" ;;
  log DEBUG "Read spellResistance." ;;
  ret (Some spellResistance).

Definition readSpellResistance (page : Document) : M (option jsstring) :=
  try_catch (readSpellResistance_try page)
    (fun error =>
       log_error WARN "Could not read spell spellResistance." error ;; ret None).

Definition readDescription_try (page : Document) : M (option jsstring) :=
  description <- page_Seval page SelDescription
                   (fun e => Ok (trim (innerHTML e))) ;;
  log DEBUG "Read description." ;;
  ret (Some description).

Definition readDescription (page : Document) : M (option jsstring) :=
  try_catch (readDescription_try page)
    (fun error =>
       log_error WARN "Could not read spell description." error ;; ret None).

(** What the browser does during one call of [crawlSpellPage]: whether the
    tab opens, what each [page.goto] does, the document each one leaves,
    and whether the tab closes.  [None] is success. *)
Record Tab : Type := mkTab {
  tab_open : option error;
  tab_goto : nat -> option error;
  tab_document : nat -> Document;
  tab_close : option error
}.

Definition settle (outcome : option error) : M unit :=
  match outcome with
  | Some e => throw e
  | None => ret tt
  end.

(** The [id] initialiser of the record: group 1 of the trailing-digits
    pattern on the url. *)
Definition spellId (url : jsstring) : result jsstring :=
  match exec re_trailingId url with
  | Some r => Ok (group r 1)
  | None => Throw (TypeError "Cannot read property '1' of null")
  end.

(** The body of the inner [try]: one load of the page and one pass of the
    extractors.  [i] counts the attempts of this call. *)
Definition attempt (tab : Tab) (url : jsstring) (i : nat) : M Spell.t :=
  emit (Goto url) ;; settle (tab_goto tab i) ;;
  let page := tab_document tab i in
  id <- lift (spellId url) ;;
  name <- readName page ;;
  source <- readSource page ;;
  schools <- readSchools page ;;
  subschools <- readSubschools page ;;
  descriptors <- readDescriptors page ;;
  classLevels <- readClassLevels page ;;
  domainLevels <- readDomainLevels page ;;
  components <- readComponents page ;;
  castingTime <- readCastingTime page ;;
  range <- readRange page ;;
  area <- readArea page ;;
  target <- readTarget page ;;
  effect <- readEffect page ;;
  duration <- readDuration page ;;
  savingThrow <- readSavingThrow page ;;
  spellResistance <- readSpellResistance page ;;
  description <- readDescription page ;;
  let spell :=
    Spell.make id name source schools subschools descriptors classLevels
      domainLevels components castingTime range area target effect duration
      savingThrow spellResistance description in
  log DEBUG "Exiting crawlSpellPage" ;;
  ret spell.

(** The two log lines of the [catch] of the retry loop. *)
Definition retry_note (e : error) : event :=
  Log VERBOSE "Failed to read spell page, retrying." (Some (message e)).
Definition failure_note (e : error) : event :=
  Log WARN "Failed to read spell." (Some (message e)).

(** [while (retryCount-- > 0) { try { ... return spell } catch ... }].
    The argument is [retryCount] before the test; the [catch] sees it
    decremented.  The value is [None] when the loop ends without a
    [return], where the function returns [undefined]. *)
Equations? retryLoop (tab : Tab) (url : jsstring) (retryCount : Z) (i : nat)
  (t : trace) : result (option Spell.t) * trace
  by wf (Z.to_nat retryCount) lt :=
retryLoop tab url retryCount i t with Z_lt_dec 0 retryCount := {
  | left _ with attempt tab url i t := {
      | (Ok spell, t') => (Ok (Some spell), t')
      | (Throw error, t') with Z_le_dec (retryCount - 1) 0 := {
          | left _ => (Throw error, t' ++ [failure_note error])
          | right _ =>
              retryLoop tab url (retryCount - 1) (S i)
                (t' ++ [retry_note error]) } }
  | right _ => (Ok None, t) }.
Proof. lia. Qed.

Definition crawlSpellPage (tab : Tab) (url : jsstring) : M (option Spell.t) :=
  log VERBOSE "Reading spell" ;;
  emit NewPage ;; settle (tab_open tab) ;;
  try_finally (retryLoop tab url RETRY_LIMIT 0)
    (emit ClosePage ;; settle (tab_close tab)).

(* ===================================================================== *)
(** * [crawlSpellListPage] and [crawlSpellListPages]: the list paginator *)
(* ===================================================================== *)

(** An item reference as the list page gives it: the [href] attribute of
    the spell link, [null] when the link has none. *)
Definition reference := option jsstring.

(** Equality of strings, code unit by code unit. *)
Fixpoint jsstring_eqb (a b : jsstring) : bool :=
  match a, b with
  | [], [] => true
  | x :: a', y :: b' => (x =? y)%N && jsstring_eqb a' b'
  | _, _ => false
  end.

(** [RULEBOOKS.includes(rulebook)] *)
Definition includes (l : list jsstring) (s : jsstring) : bool :=
  existsb (jsstring_eqb s) l.

(** The body of the [try] in the row loop; the value is the array
    [spellUrls] after the row. *)
Definition parseRow (row : Element) (spellUrls : list reference)
  : M (list reference) :=
  th <- elem_S row SelTh ;;
  match th with
  | Some _ => ret spellUrls
  | None =>
      rulebook <- elem_Seval row (SelCellLink 4) (fun e => Ok (textContent e)) ;;
      if includes RULEBOOKS rulebook then
        spellUrl <- elem_Seval row (SelCellLink 1)
                      (fun e => Ok (getAttribute e "href")) ;;
        ret (spellUrls ++ [spellUrl])
      else ret spellUrls
  end.

(** [for (const row of rows) { try { ... } catch (error) { warn } }] *)
Fixpoint eachRow (rows : list Element) (spellUrls : list reference)
  : M (list reference) :=
  match rows with
  | [] => ret spellUrls
  | row :: rows' =>
      spellUrls' <-
        try_catch (parseRow row spellUrls)
          (fun error =>
             log_error WARN "Error parsing spell table row." error ;;
             ret spellUrls) ;;
      eachRow rows' spellUrls'
  end.

Definition crawlSpellListPage (page : Document) : M (list reference) :=
  log DEBUG "Entering crawlSpellListPage()" ;;
  rows <- page_SS page SelTableRows ;;
  spellUrls <- eachRow rows [] ;;
  log DEBUG "crawlSpellListPage() found spells." ;;
  ret spellUrls.

(** What the browser does for the tab of the list: whether it opens,
    whether the first [goto] succeeds, the document shown after [n]
    completed navigations, and the outcome of the [j]-th attempt to leave
    page [n] ([waitForNavigation] together with the click).  [None] is
    success. *)
Record ListTab : Type := mkListTab {
  list_open : option error;
  list_goto : option error;
  list_page : nat -> Document;
  list_navigate : nat -> nat -> option error
}.

(** The inner [while (true)] that clicks the next-page link.  The loop has
    no bound, so the model takes fuel; [None] is a run that is still in the
    loop when the fuel is spent. *)
Fixpoint navigateNext (fuel : nat) (tab : ListTab) (n j : nat) (t : trace)
  : option trace :=
  match fuel with
  | O => None
  | S fuel' =>
      match list_navigate tab n j with
      | None => Some (t ++ [Click])
      | Some error =>
          navigateNext fuel' tab n (S j)
            (t ++ [Click;
                   Log WARN "Navigation to next page failed, retrying."
                     (Some (message error))])
      end
  end.

(** The outer [while (true)] over the pages of the list. *)
Fixpoint listLoop (fuel navFuel : nat) (tab : ListTab) (n : nat)
         (spellUrls : list reference) (t : trace)
  : option (result (list reference) * trace) :=
  match fuel with
  | O => None
  | S fuel' =>
      let page := list_page tab n in
      match crawlSpellListPage page t with
      | (Throw e, t1) => Some (Throw e, t1)
      | (Ok newSpellUrls, t1) =>
          let spellUrls := spellUrls ++ newSpellUrls in
          match page_S page SelNext t1 with
          | (Throw e, t2) => Some (Throw e, t2)
          | (Ok (Some nextBtn), t2) =>
              match navigateNext navFuel tab n 0
                      (t2 ++ [Log VERBOSE "Navigating to next spells page." None])
              with
              | Some t3 => listLoop fuel' navFuel tab (S n) spellUrls t3
              | None => None
              end
          | (Ok None, t2) =>
              Some (Ok spellUrls,
                    t2 ++ [Log VERBOSE "No more spells pages, closing tab." None])
          end
      end
  end.

(** [page.close()] in the [finally] is not awaited: its outcome is not
    observed. *)
Definition crawlSpellListPages (fuel : nat) (tab : ListTab) (t : trace)
  : option (result (list reference) * trace) :=
  match (emit NewPage ;; settle (list_open tab)) t with
  | (Throw e, t0) => Some (Throw e, t0)
  | (Ok _, t0) =>
      let finally (r : result (list reference) * trace) :=
        (fst r, snd r ++ [ClosePage]) in
      match (emit (Goto (DNDTOOLS_URL_BASE ++ js "/spells/?page_size=1000")) ;;
             settle (list_goto tab)) t0 with
      | (Throw e, t1) => Some (finally (Throw e, t1))
      | (Ok _, t1) => option_map finally (listLoop fuel fuel tab 0 [] t1)
      end
  end.

(* ===================================================================== *)
(** * [crawlSpellPages]: the bounded task runner *)
(* ===================================================================== *)

(** The template literal turns [null] into the text "null". *)
Definition toString (spellUrl : reference) : jsstring :=
  match spellUrl with
  | Some s => s
  | None => js "null"
  end.

(** The runner is a state machine.  JavaScript runs one activation at a
    time up to its next [await]; between two such stretches any of the
    fetches in flight may be the next to settle, and a schedule says which.

    One activation of the iteratee, suspended in
    [await crawlSpellPage(...)]: its locals, the position of its item in
    [spellUrls], and how many calls of [crawlSpellPage] it has seen
    return.  The iteratee is taken as written, receiving [done]. *)
Record Worker : Type := mkWorker {
  w_item : nat;
  w_spellUrl : reference;
  w_retryCount : Z;
  w_error : option error;
  w_calls : nat
}.

(** Where the iteratee stands after running as far as it can: waiting for
    a fetch, or having called [done]. *)
Inductive control : Type :=
| Await (w : Worker)
| Done (item : nat) (err : option error).

(** [if (retryCount > 0) done(); else done(error);] *)
Definition afterLoop (w : Worker) : control :=
  Done (w_item w) (if 0 <? w_retryCount w then None else w_error w).

(** The loop test [retryCount-- > 0]: start the next fetch or leave the
    loop. *)
Definition loopTest (w : Worker) : control :=
  let w' := mkWorker (w_item w) (w_spellUrl w) (w_retryCount w - 1)
              (w_error w) (w_calls w) in
  if 0 <? w_retryCount w then Await w' else afterLoop w'.

(** The iteratee from its first line. *)
Definition startWorker (item : nat) (spellUrl : reference) : control :=
  loopTest (mkWorker item spellUrl RETRY_LIMIT None 0).

Section Runner.

(** The state the callback closes over, and the callback. *)
Variable C : Type.
Variable spellCallback :
  option Spell.t -> C -> trace -> result unit * C * trace.

(** What the browser does for the [call]-th fetch of item [item]. *)
Variable tabs : nat -> nat -> Tab.

Definition crawl_warning (err : error) : event :=
  Log WARN "Error when crawling spell page, retrying." (Some (message err)).

(** The iteratee from the point where its fetch settles with [r] to its
    next suspension.  The callback runs inside the [try], so what it
    throws is caught like a failed fetch. *)
Definition resume (w : Worker) (r : result (option Spell.t)) (c : C)
           (t : trace) : control * C * trace :=
  let w1 := mkWorker (w_item w) (w_spellUrl w) (w_retryCount w)
              (w_error w) (S (w_calls w)) in
  let retry err :=
    loopTest (mkWorker (w_item w) (w_spellUrl w) (w_retryCount w)
                (Some err) (S (w_calls w))) in
  match r with
  | Ok spell =>
      match spellCallback spell c t with
      | (Ok _, c', t') => (afterLoop w1, c', t')
      | (Throw err, c', t') => (retry err, c', t' ++ [crawl_warning err])
      end
  | Throw err => (retry err, c, t ++ [crawl_warning err])
  end.

(** The state of one [eachLimit] run.  [r_delivered] and [r_finished]
    are history: the calls of the callback and of [done] so far, each
    with the item it was made for. *)
Record Runner : Type := mkRunner {
  r_pending : list (nat * reference);
  r_running : list Worker;
  r_done : bool;
  r_settled : option (option error);
  r_closure : C;
  r_trace : trace;
  r_delivered : list (nat * option Spell.t);
  r_finished : list (nat * option error)
}.

(** Modelled from the spec: the final callback of [eachLimit], a
    function of the [async] package, which is not part of the sources.
    [eachLimit] runs the iteratee on the items in order with at most
    [limit] activations at a time; the first error passed to [done] goes
    to the final callback at once and no further item is started; when
    every item is done without error the final callback gets [null].  The
    final callback runs once; here it settles the promise of
    [crawlSpellPages]. *)
Definition finalCallback (err : option error) (st : Runner) : Runner :=
  match r_settled st with
  | Some _ => st
  | None =>
      mkRunner (r_pending st) (r_running st) (r_done st) (Some err)
        (r_closure st) (r_trace st) (r_delivered st) (r_finished st)
  end.

(** Modelled from the spec: the flag with which [eachLimit] stops
    starting items. *)
Definition set_done (st : Runner) : Runner :=
  mkRunner (r_pending st) (r_running st) true (r_settled st)
    (r_closure st) (r_trace st) (r_delivered st) (r_finished st).

(** Modelled from the spec: what [eachLimit] does when an iteratee calls
    [done(err)], the activation being already out of [r_running].  An
    error ends the run as failed; without error the run ends as resolved
    when no item is left to start and none is running. *)
Definition noteDone (item : nat) (err : option error) (st : Runner) : Runner :=
  let st' :=
    mkRunner (r_pending st) (r_running st) (r_done st) (r_settled st)
      (r_closure st) (r_trace st) (r_delivered st)
      (r_finished st ++ [(item, err)]) in
  match err with
  | Some e => finalCallback (Some e) (set_done st')
  | None =>
      if r_done st' && (length (r_running st') =? 0)%nat
      then finalCallback None st'
      else st'
  end.

(** Modelled from the spec: [eachLimit] starts items while fewer than
    [limit] run and the run is not done.  The iteratee it starts is the
    one of the source, [startWorker]. *)
Fixpoint replenish (limit : nat) (pending : list (nat * reference))
         (st : Runner) : Runner :=
  if (length (r_running st) <? limit)%nat && negb (r_done st) then
    match pending with
    | [] =>
        let st' :=
          set_done
            (mkRunner [] (r_running st) (r_done st) (r_settled st)
               (r_closure st) (r_trace st) (r_delivered st) (r_finished st)) in
        if (length (r_running st') =? 0)%nat then finalCallback None st' else st'
    | (item, spellUrl) :: pending' =>
        match startWorker item spellUrl with
        | Await w =>
            replenish limit pending'
              (mkRunner pending' (r_running st ++ [w]) (r_done st)
                 (r_settled st) (r_closure st) (r_trace st)
                 (r_delivered st) (r_finished st))
        | Done i err =>
            replenish limit pending'
              (noteDone i err
                 (mkRunner pending' (r_running st) (r_done st)
                    (r_settled st) (r_closure st) (r_trace st)
                    (r_delivered st) (r_finished st)))
        end
    end
  else
    mkRunner pending (r_running st) (r_done st) (r_settled st)
      (r_closure st) (r_trace st) (r_delivered st) (r_finished st).

(** [running] without its [k]-th activation. *)
Definition remove_nth (k : nat) (l : list Worker) : list Worker :=
  firstn k l ++ skipn (S k) l.

Definition replace_nth (k : nat) (w : Worker) (l : list Worker) : list Worker :=
  firstn k l ++ w :: skipn (S k) l.

(** One step of the run: the fetch of the [k]-th running activation
    settles and its iteratee runs to its next suspension; when it called
    [done], [eachLimit] goes on as in [noteDone] and [replenish].  The
    events of the fetch enter the trace together, when it settles.  A [k]
    that names no activation changes nothing. *)
Definition step (limit : nat) (k : nat) (st : Runner) : Runner :=
  match nth_error (r_running st) k with
  | None => st
  | Some w =>
      let url := DNDTOOLS_URL_BASE ++ toString (w_spellUrl w) in
      let '(r, t1) :=
        crawlSpellPage (tabs (w_item w) (w_calls w)) url (r_trace st) in
      let '(ctl, c', t2) := resume w r (r_closure st) t1 in
      let delivered :=
        match r with
        | Ok spell => r_delivered st ++ [(w_item w, spell)]
        | Throw _ => r_delivered st
        end in
      match ctl with
      | Await w' =>
          mkRunner (r_pending st) (replace_nth k w' (r_running st))
            (r_done st) (r_settled st) c' t2 delivered (r_finished st)
      | Done item err =>
          let st1 :=
            noteDone item err
              (mkRunner (r_pending st) (remove_nth k (r_running st))
                 (r_done st) (r_settled st) c' t2 delivered (r_finished st)) in
          match err with
          | Some _ => st1
          | None =>
              if r_done st1 && (length (r_running st1) =? 0)%nat then st1
              else replenish limit (r_pending st1) st1
          end
      end
  end.

(** The items of [spellUrls] with their positions. *)
Fixpoint enumerate (i : nat) (l : list reference) : list (nat * reference) :=
  match l with
  | [] => []
  | x :: l' => (i, x) :: enumerate (S i) l'
  end.

(** [crawlSpellPages(browser, spellUrls, spellCallback)] up to the
    first suspension of its activations; [c] is the state behind the
    callback, which is first called in a [step]. *)
Definition crawlSpellPages (spellUrls : list reference) (c : C) (t : trace)
  : Runner :=
  replenish CONCURRENCY (enumerate 0 spellUrls)
    (mkRunner (enumerate 0 spellUrls) [] false None c t [] []).

(** The run under a schedule: which activation's fetch settles next. *)
Definition run (sched : list nat) (st : Runner) : Runner :=
  fold_left (fun st k => step CONCURRENCY k st) sched st.

(** [await] on the promise of [crawlSpellPages]: what the final
    callback was called with, the state at that point and the schedule
    still ahead; [None] when the schedule ends before that. *)
Fixpoint awaitSettled (sched : list nat) (st : Runner)
  : option (option error * Runner * list nat) :=
  match r_settled st with
  | Some err => Some (err, st, sched)
  | None =>
      match sched with
      | [] => None
      | k :: sched' => awaitSettled sched' (step CONCURRENCY k st)
      end
  end.

End Runner.

(* ===================================================================== *)
(** * The pipeline driver *)
(* ===================================================================== *)

(** The variables the callback of the driver closes over. *)
Record Collected : Type := mkCollected {
  spells : list Spell.t;
  spellCounter : nat
}.

(** [s => { logger.info("Read spell.", {spell: s.name, ...}); spells.push(s); }]
    Reading [s.name] throws when [s] is [undefined]. *)
Definition collect (s : option Spell.t) (c : Collected) (t : trace)
  : result unit * Collected * trace :=
  match s with
  | Some spell =>
      (Ok tt,
       mkCollected (spells c ++ [spell]) (S (spellCounter c)),
       t ++ [Log INFO "Read spell." None])
  | None =>
      (Throw (TypeError "Cannot read property 'name' of undefined"), c, t)
  end.

(** Everything outside the program that a run depends on. *)
Record World : Type := mkWorld {
  world_launch : option error;          (* puppeteer.launch *)
  world_list : ListTab;                 (* the tab of the spell list *)
  world_tabs : nat -> nat -> Tab;       (* the tab of each fetch *)
  world_close : option error            (* browser.close *)
}.

(** The trace when the paginator starts, in a run whose browser
    launched. *)
Definition listing_start : trace :=
  [Launch; Log INFO "Building list of spells..." None].

(** The runner as the driver starts it: an empty [spells] array and a
    counter at zero behind the callback. *)
Definition startCrawl (spellUrls : list reference) (t : trace)
  : Runner Collected :=
  crawlSpellPages spellUrls (mkCollected [] 0)
    (t ++ [Log INFO "Crawling spells..." None]).

(** The inner [try] block of the driver up to its [catch]: [None] when the
    paginator or the runner does not come back within the fuel and the
    schedule.  With the outcome comes the runner that is left behind when
    the promise was rejected, and the schedule still ahead of it. *)
Definition crawlAll (world : World) (fuel : nat) (sched : list nat) (t : trace)
  : option (result unit * trace * option (Runner Collected * list nat)) :=
  match crawlSpellListPages fuel (world_list world)
          (t ++ [Log INFO "Building list of spells..." None]) with
  | None => None
  | Some (Throw e, t1) => Some (Throw e, t1, None)
  | Some (Ok spellUrls, t1) =>
      if (0 <? length spellUrls)%nat then
        match awaitSettled collect (world_tabs world) sched
                (startCrawl spellUrls t1) with
        | None => None
        | Some (Some err, st, rest) =>
            Some (Throw err, r_trace st, Some (st, rest))
        | Some (None, st, rest) =>
            Some (Ok tt,
                  r_trace st ++ [Stdout (spells (r_closure st))],
                  Some (st, rest))
        end
      else Some (Ok tt, t1 ++ [Log INFO "No spells found!" None], None)
  end.

Definition with_trace (t : trace) (st : Runner Collected) : Runner Collected :=
  mkRunner (r_pending st) (r_running st) (r_done st) (r_settled st)
    (r_closure st) t (r_delivered st) (r_finished st).

(** The whole program: the trace of the process from start to exit.  After
    the driver is through, the activations the runner left behind go on
    until the schedule ends. *)
Definition main (world : World) (fuel : nat) (sched : list nat)
  : option trace :=
  match (emit Launch ;; settle (world_launch world)) [] with
  | (Throw error, t) =>
      Some (t ++ [Log ERROR "Could not start browser." (Some (message error))])
  | (Ok _, t) =>
      match crawlAll world fuel sched t with
      | None => None
      | Some (r, t1, left_behind) =>
          let t2 :=
            match r with
            | Ok _ => t1
            | Throw error =>
                t1 ++ [Log ERROR "Unexpected error!" (Some (message error))]
            end in
          let t3 :=
            match (emit CloseBrowser ;; settle (world_close world)) t2 with
            | (Ok _, t') => t'
            | (Throw error, t') =>
                t' ++ [Log ERROR "Could not start browser."
                         (Some (message error))]
            end in
          match left_behind with
          | Some (st, rest) =>
              Some (r_trace (run collect (world_tabs world) rest
                               (with_trace t3 st)))
          | None => Some t3
          end
      end
  end.

(** The writes to standard output in a trace. *)
Fixpoint stdout (t : trace) : list (list Spell.t) :=
  match t with
  | Stdout json :: t' => json :: stdout t'
  | _ :: t' => stdout t'
  | [] => []
  end.

(** The number of [page.goto] calls in a trace. *)
Fixpoint gotos (t : trace) : nat :=
  match t with
  | Goto _ :: t' => S (gotos t')
  | _ :: t' => gotos t'
  | [] => O
  end.

(** The warnings in a trace, with their messages. *)
Fixpoint warnings (t : trace) : list (string * option string) :=
  match t with
  | Log WARN msg err :: t' => (msg, err) :: warnings t'
  | _ :: t' => warnings t'
  | [] => []
  end.

(* ===================================================================== *)
(** * What a match is *)
(* ===================================================================== *)

Definition all (p : jschar -> bool) (u : jsstring) : Prop :=
  Forall (fun c => p c = true) u.

(** [den input r s s' cs]: read from [s], the pattern [r] can take the
    text between [s] and its suffix [s'], closing the groups [cs]. *)
Fixpoint den (input : jsstring) (r : regex) (s s' : jsstring)
         (cs : list jsstring) : Prop :=
  match r with
  | Chr c => s = c :: s' /\ cs = []
  | Cls p => (exists c, s = c :: s' /\ p c = true) /\ cs = []
  | Star p => (exists u, s = u ++ s' /\ all p u) /\ cs = []
  | Plus p => (exists u, s = u ++ s' /\ all p u /\ u <> []) /\ cs = []
  | Opt r' => den input r' s s' cs \/ (s = s' /\ cs = [])
  | Seq r1 r2 =>
      exists s1 c1 c2,
        den input r1 s s1 c1 /\ den input r2 s1 s' c2 /\ cs = c1 ++ c2
  | Grp r' =>
      exists c, den input r' s s' c
                /\ cs = c ++ [firstn (length s - length s') s]
  | Bol => s = s' /\ length s = length input /\ cs = []
  | Eol => s = [] /\ s' = [] /\ cs = []
  end.

(* ===================================================================== *)
(** * Properties of computations *)
(* ===================================================================== *)

Definition is_log (ev : event) : bool :=
  match ev with
  | Log _ _ _ => true
  | _ => false
  end.

Definition not_stdout (ev : event) : bool :=
  match ev with
  | Stdout _ => false
  | _ => true
  end.

(** What a computation returns and what it appends, seen from the empty
    trace. *)
Definition outcome {A} (m : M A) : result A := fst (m []).
Definition effects {A} (m : M A) : trace := snd (m []).

(** [m] does not read the trace, and appends only events in [P]. *)
Definition writer (P : event -> bool) {A} (m : M A) : Prop :=
  (forall t, m t = (outcome m, t ++ effects m))
  /\ forallb P (effects m) = true.

(** The value a guarded field ends up with. *)
Definition or_default {A} (dflt : A) (r : result A) : A :=
  match r with
  | Ok v => v
  | Throw _ => dflt
  end.

(** The warning a guarded field leaves when its access throws. *)
Definition field_warning {A} (msg : string) (r : result A) : trace :=
  match r with
  | Ok _ => []
  | Throw e => [Log WARN msg (Some (message e))]
  end.

(** [extractor] is [access] inside a fault boundary: it never throws,
    gives the value of [access] or on any exception [dflt], and then has
    logged the warning [msg] with the message of the exception. *)
Definition guarded {A} (extractor access : Document -> M A) (dflt : A)
           (msg : string) : Prop :=
  forall (page : Document) (t : trace),
    match access page t with
    | (Ok v, t') => extractor page t = (Ok v, t')
    | (Throw e, t') =>
        extractor page t = (Ok dflt, t' ++ [Log WARN msg (Some (message e))])
    end.

Definition is_debug (ev : event) : bool :=
  match ev with
  | Log DEBUG _ _ => true
  | _ => false
  end.

(** Every extractor of [crawlSpellPage] but [readName], with the access
    it guards, its default and its warning. *)
Definition extractors_guarded : Prop :=
  guarded readSource readSource_try None "Could not read spell source."
  /\ guarded readSchools readSchools_try [] "Could not read spell schools."
  /\ guarded readSubschools readSubschools_try []
       "Could not read spell subschools."
  /\ guarded readDescriptors readDescriptors_try []
       "Could not read spell descriptors."
  /\ guarded readClassLevels readClassLevels_try []
       "Could not read spell classLevels."
  /\ guarded readDomainLevels readDomainLevels_try []
       "Could not read spell domainLevels."
  /\ guarded readComponents readComponents_try []
       "Could not read spell components."
  /\ guarded readCastingTime readCastingTime_try None
       "Could not read spell castingTime."
  /\ guarded readRange readRange_try None "Could not read spell range."
  /\ guarded readArea readArea_try None "Could not read spell area."
  /\ guarded readTarget readTarget_try None "Could not read spell target."
  /\ guarded readEffect readEffect_try None "Could not read spell effect."
  /\ guarded readDuration readDuration_try None
       "Could not read spell duration."
  /\ guarded readSavingThrow readSavingThrow_try None
       "Could not read spell savingThrow."
  /\ guarded readSpellResistance readSpellResistance_try None
       "Could not read spell spellResistance."
  /\ guarded readDescription readDescription_try None
       "Could not read spell description.".

(** The record of a page with every guarded field at the value of its
    access, or at its default where the access throws. *)
Definition recordOf (id name : jsstring) (page : Document) : Spell.t :=
  Spell.make id name
    (or_default None (outcome (readSource_try page)))
    (or_default [] (outcome (readSchools_try page)))
    (or_default [] (outcome (readSubschools_try page)))
    (or_default [] (outcome (readDescriptors_try page)))
    (or_default [] (outcome (readClassLevels_try page)))
    (or_default [] (outcome (readDomainLevels_try page)))
    (or_default [] (outcome (readComponents_try page)))
    (or_default None (outcome (readCastingTime_try page)))
    (or_default None (outcome (readRange_try page)))
    (or_default None (outcome (readArea_try page)))
    (or_default None (outcome (readTarget_try page)))
    (or_default None (outcome (readEffect_try page)))
    (or_default None (outcome (readDuration_try page)))
    (or_default None (outcome (readSavingThrow_try page)))
    (or_default None (outcome (readSpellResistance_try page)))
    (or_default None (outcome (readDescription_try page))).

(** The warnings of the guarded fields of a page, in the order the
    fields are read. *)
Definition fieldWarnings (page : Document) : trace :=
  field_warning "Could not read spell source." (outcome (readSource_try page))
  ++ field_warning "Could not read spell schools."
       (outcome (readSchools_try page))
  ++ field_warning "Could not read spell subschools."
       (outcome (readSubschools_try page))
  ++ field_warning "Could not read spell descriptors."
       (outcome (readDescriptors_try page))
  ++ field_warning "Could not read spell classLevels."
       (outcome (readClassLevels_try page))
  ++ field_warning "Could not read spell domainLevels."
       (outcome (readDomainLevels_try page))
  ++ field_warning "Could not read spell components."
       (outcome (readComponents_try page))
  ++ field_warning "Could not read spell castingTime."
       (outcome (readCastingTime_try page))
  ++ field_warning "Could not read spell range." (outcome (readRange_try page))
  ++ field_warning "Could not read spell area." (outcome (readArea_try page))
  ++ field_warning "Could not read spell target."
       (outcome (readTarget_try page))
  ++ field_warning "Could not read spell effect."
       (outcome (readEffect_try page))
  ++ field_warning "Could not read spell duration."
       (outcome (readDuration_try page))
  ++ field_warning "Could not read spell savingThrow."
       (outcome (readSavingThrow_try page))
  ++ field_warning "Could not read spell spellResistance."
       (outcome (readSpellResistance_try page))
  ++ field_warning "Could not read spell description."
       (outcome (readDescription_try page)).

(** The [i]-th attempt of a call throws [e] straight after its load: the
    load fails, the url has no id, or the page has no name. *)
Definition fails (tab : Tab) (url : jsstring) (i : nat) (e : error) : Prop :=
  forall t, attempt tab url i t = (Throw e, t ++ [Goto url]).

(** What a call settles with once [page.close()] in its [finally] has
    run: the error of [close] when that throws, else what the loop came
    to. *)
Definition after_close {A} (tab : Tab) (r : result A) : result A :=
  match tab_close tab with
  | Some e => Throw e
  | None => r
  end.

(** The detail fetcher as the specification words it: where every load
    of the page fails, [RETRY_LIMIT] loads and then the last cause thrown;
    where a load succeeds on a page with a name after the loads before it
    failed, a record returned after as many loads. *)
Definition fetches_as_specified (tab : Tab) (url : jsstring) : Prop :=
  ((forall i, (i < Z.to_nat RETRY_LIMIT)%nat -> tab_goto tab i <> None) ->
   exists e t',
     crawlSpellPage tab url [] = (Throw e, t')
     /\ tab_goto tab (Z.to_nat RETRY_LIMIT - 1) = Some e
     /\ gotos t' = Z.to_nat RETRY_LIMIT)
  /\ (forall (k : nat) (id : jsstring) (h : Element) (rest : list Element),
        (k < Z.to_nat RETRY_LIMIT)%nat ->
        (forall i, (i < k)%nat -> tab_goto tab i <> None) ->
        tab_goto tab k = None ->
        spellId url = Ok id ->
        doc_query (tab_document tab k) SelHeading = Ok (h :: rest) ->
        exists s t',
          crawlSpellPage tab url [] = (Ok (Some s), t')
          /\ gotos t' = S k).

(* ===================================================================== *)
(** * The level entries of a record *)
(* ===================================================================== *)

(** The level entries of a record as the specification words them: every
    entry a pair of a name and an integer level. *)
Definition levels_well_formed (s : Spell.t) : Prop :=
  Forall (fun x => exists c z, x = Some (ClassSpellLevel.make c (Num z)))
         (Spell.classLevels s)
  /\ Forall (fun d => exists z, DomainSpellLevel.level d = Num z)
            (Spell.domainLevels s).

(** A link text with a level: a name without line break, one white-space
    character and a run of digits up to the end. *)
Definition levelled (text c : jsstring) (w : jschar) (digits : jsstring)
  : Prop :=
  text = c ++ w :: digits
  /\ all isDot c /\ isSpace w = true
  /\ all isDigit digits /\ digits <> [].

(** A class entry as [parseClassSpellLevel] gives it: [null] for a text
    without a level; for a text with one the name as it stands and the
    double of the number its digits spell, which counts. *)
Definition class_entry (text : jsstring) (x : option ClassSpellLevel.t) : Prop :=
  (x = None /\ forall c w digits, ~ levelled text c w digits)
  \/ exists c w digits,
       levelled text c w digits
       /\ x = Some (ClassSpellLevel.make c (toDouble (decimalValue digits)))
       /\ counting (toDouble (decimalValue digits)).

(** A domain entry: the text of the link with [parseInt] of the text
    after it, which may be [NaN]. *)
Definition domain_entry (link : Element) (d : DomainSpellLevel.t) : Prop :=
  exists text,
    nextSibling link = Some text
    /\ d = DomainSpellLevel.make (textContent link) (parseInt text).

(** A domain link that [readDomainLevels] can read: its handle is
    attached and a node follows it. *)
Definition readable (link : Element) : Prop :=
  detached link = None /\ nextSibling link <> None.

(* ===================================================================== *)
(** * The list of references in the words of the specification *)
(* ===================================================================== *)

(** A row is listed with reference [r] when it is not a header, the link
    in its fourth cell names a rulebook of the allow-list, and [r] is the
    [href] of the link in its first cell. *)
Definition listed (row : Element) (r : reference) : Prop :=
  query row SelTh = Ok []
  /\ (exists cell rest,
        query row (SelCellLink 4) = Ok (cell :: rest)
        /\ In (textContent cell) RULEBOOKS)
  /\ (exists a rest,
        query row (SelCellLink 1) = Ok (a :: rest)
        /\ getAttribute a "href" = r).

(** The same as a function. *)
Definition listing (row : Element) : option reference :=
  match query row SelTh, query row (SelCellLink 4), query row (SelCellLink 1) with
  | Ok [], Ok (cell :: _), Ok (a :: _) =>
      if includes RULEBOOKS (textContent cell)
      then Some (getAttribute a "href")
      else None
  | _, _, _ => None
  end.

(** The references of the listed rows, in row order. *)
Definition references (rows : list Element) : list reference :=
  flat_map (fun row => match listing row with Some r => [r] | None => [] end)
           rows.

(** The warnings for the rows whose parse throws, in row order. *)
Definition row_warning (e : error) : event :=
  Log WARN "Error parsing spell table row." (Some (message e)).

Definition rowWarnings (rows : list Element) : trace :=
  flat_map (fun row => match outcome (parseRow row []) with
                       | Throw e => [row_warning e]
                       | Ok _ => []
                       end)
           rows.

(** The messages of the rows whose parse throws, in row order. *)
Definition parseErrors (rows : list Element) : list (option string) :=
  flat_map (fun row => match outcome (parseRow row []) with
                       | Throw e => [Some (message e)]
                       | Ok _ => []
                       end)
           rows.

(** The two debug lines of [crawlSpellListPage]. *)
Definition page_entered : event :=
  Log DEBUG "Entering crawlSpellListPage()" None.
Definition page_counted : event :=
  Log DEBUG "crawlSpellListPage() found spells." None.

(** The error messages of the warnings [msg] of a trace. *)
Fixpoint warned (msg : string) (t : trace) : list (option string) :=
  match t with
  | Log WARN m err :: t' =>
      if String.eqb m msg then err :: warned msg t' else warned msg t'
  | _ :: t' => warned msg t'
  | [] => []
  end.

(** The clicks of a trace. *)
Fixpoint clicks (t : trace) : nat :=
  match t with
  | Click :: t' => S (clicks t')
  | _ :: t' => clicks t'
  | [] => O
  end.

(* ===================================================================== *)
(** * The state of a run, for the driver *)
(* ===================================================================== *)

(** The calls of the callback against the calls of [done]: an item is
    delivered when its iteratee ends, or its iteratee ends with an error
    and nothing delivered. *)
Inductive sync : list (nat * option Spell.t) -> list (nat * option error) -> Prop :=
| sync_nil : sync [] []
| sync_delivered d f i s e :
    sync d f -> sync (d ++ [(i, s)]) (f ++ [(i, e)])
| sync_failed d f i e :
    sync d f -> sync d (f ++ [(i, Some e)]).

(** The record [s] is what some fetch of item [i] returned. *)
Definition fetched (spellUrls : list reference) (tabs : nat -> nat -> Tab)
           (i : nat) (s : option Spell.t) : Prop :=
  exists url call t0 t1,
    nth_error spellUrls i = Some url
    /\ crawlSpellPage (tabs i call) (DNDTOOLS_URL_BASE ++ toString url) t0
       = (Ok s, t1).

(** What holds of every state of a run of the driver over [spellUrls].
    The items started are those before position [m]; each is running or
    finished.  The run is resolved only with nothing pending, nothing
    running and no error; an error has settled the run as rejected. *)
Record runner_inv (spellUrls : list reference) (tabs : nat -> nat -> Tab)
       (st : Runner Collected) : Prop := mk_runner_inv {
  inv_pending :
    exists m,
      r_pending st = skipn m (enumerate 0 spellUrls)
      /\ (m <= length spellUrls)%nat
      /\ Permutation (map fst (r_finished st) ++ map w_item (r_running st))
                     (seq 0 m);
  inv_done :
    r_done st = true ->
    r_pending st = [] \/ exists e, r_settled st = Some (Some e);
  inv_errors :
    r_settled st = None -> Forall (fun f => snd f = None) (r_finished st);
  inv_resolved :
    r_settled st = Some None ->
    r_pending st = [] /\ r_running st = []
    /\ Forall (fun f => snd f = None) (r_finished st);
  inv_sync : sync (r_delivered st) (r_finished st);
  inv_spells : map snd (r_delivered st) = map Some (spells (r_closure st));
  inv_urls :
    Forall (fun w => nth_error spellUrls (w_item w) = Some (w_spellUrl w))
           (r_running st);
  inv_fetched :
    Forall (fun d => fetched spellUrls tabs (fst d) (snd d)) (r_delivered st)
}.

(** The variable [error] of an iteratee after [j] failed fetches, the
    [i]-th of which threw [e i]. *)
Definition last_error (e : nat -> error) (j : nat) : option error :=
  match j with
  | O => None
  | S j' => Some (e j')
  end.

(* ===================================================================== *)
(** * Sample pages, tabs and worlds *)
(* ===================================================================== *)

(** A node with a text and, for a link, what follows it. *)
Definition node (text : string) (next : option string) : Element :=
  mkElement (js text) (js text) (fun _ => None) (option_map js next) None
    (fun _ => Ok []).

(** A spell page with nothing on it but its heading. *)
Definition barePage : Document :=
  mkDocument
    (fun sel =>
       match sel with
       | SelHeading => Ok [node " Fly " None]
       | SelLinkTo _ => Throw (Error "Protocol error: Target closed.")
       | _ => Ok []
       end)
    (fun _ => Ok []).


Definition timeout : error := Error "Navigation Timeout Exceeded".

(** Tabs that open and close; the page never loads, loads at the third
    try, loads at once, loads a page without a heading. *)
Definition deadTab : Tab :=
  mkTab None (fun _ => Some timeout) (fun _ => barePage) None.
Definition slowTab : Tab :=
  mkTab None (fun i => if (i <? 2)%nat then Some timeout else None)
    (fun _ => barePage) None.
Definition goodTab : Tab :=
  mkTab None (fun _ => None) (fun _ => barePage) None.

Definition flyRef : jsstring :=
  js "/spells/players-handbook-v35--6/fly--2589/".
Definition flyUrl : jsstring := DNDTOOLS_URL_BASE ++ flyRef.

(** The record of [barePage]. *)
Definition bareRecord : Spell.t :=
  Spell.make (js "2589") (js "Fly") None [] [] [] [] [] []
    None None None None None None None None None.

(** Tabs for one item whose first nine fetches exhaust their loads and
    whose tenth finds the page. *)
Definition lastChanceTabs (item call : nat) : Tab :=
  if (call <? 9)%nat then deadTab else goodTab.

(** A spell page whose class link has no level and whose domain link is
    not followed by a number. *)
Definition strayPage : Document :=
  mkDocument
    (fun sel =>
       match sel with
       | SelHeading => Ok [node "Fly" None]
       | SelLinkTo "/classes/" =>
           Ok [node "Sorcerer 3" None; node "Wizard" None; node "Sorcerer 3" None]
       | SelLinkTo "/spells/domains/" => Ok [node "Travel" (Some ", "%string)]
       | _ => Ok []
       end)
    (fun _ => Ok []).

Definition strayTab : Tab :=
  mkTab None (fun _ => None) (fun _ => strayPage) None.

Definition strayRecord : Spell.t :=
  Spell.make (js "2589") (js "Fly") None [] [] []
    [Some (ClassSpellLevel.make (js "Sorcerer") (Num 3)); None;
     Some (ClassSpellLevel.make (js "Sorcerer") (Num 3))]
    [DomainSpellLevel.make (js "Travel") NaN]
    [] None None None None None None None None None.

(** A list of two pages: three rows of the allow-list, two of other
    books, a header and a broken row on the first; one listed row on the
    second, which has no link to a next page.  The first click on the
    link fails. *)
Definition anchor (text : string) (href : option string) : Element :=
  mkElement (js text) (js text)
    (fun a => if String.eqb a "href" then option_map js href else None)
    None None (fun _ => Ok []).

Definition tableRow (name : string) (href : string) (rulebook : string) : Element :=
  mkElement (js name) (js name) (fun _ => None) None None
    (fun sel =>
       match sel with
       | SelCellLink 1 => Ok [anchor name (Some href)]
       | SelCellLink 4 => Ok [anchor rulebook None]
       | _ => Ok []
       end).

Definition headerRow : Element :=
  mkElement (js "Name") (js "Name") (fun _ => None) None None
    (fun sel => match sel with SelTh => Ok [node "Name" None] | _ => Ok [] end).

Definition brokenRow : Element :=
  mkElement [] [] (fun _ => None) None None (fun _ => Ok []).

Definition listPage (rows : list Element) (next : bool) : Document :=
  mkDocument
    (fun sel =>
       match sel with
       | SelTableRows => Ok rows
       | SelNext => Ok (if next then [anchor "next" (Some "?page=2"%string)] else [])
       | _ => Ok []
       end)
    (fun _ => Ok []).

Definition page1rows : list Element :=
  [headerRow;
   tableRow "Fly" "/spells/players-handbook-v35--6/fly--2589/"
     "Player's Handbook v.3.5";
   tableRow "Flame Dagger" "/spells/sandstorm--86/flame-dagger--3001/" "Sandstorm";
   tableRow "Blast of Force" "/spells/spell-compendium--86/blast-force--4001/"
     "Spell Compendium";
   brokenRow;
   tableRow "Ice Axe" "/spells/frostburn--68/ice-axe--1201/" "Frostburn";
   tableRow "Light" "/spells/players-handbook-v35--6/light--2700/"
     "Player's Handbook v.3.5"].

Definition page2rows : list Element :=
  [headerRow;
   tableRow "Wish" "/spells/players-handbook-v35--6/wish--2999/"
     "Player's Handbook v.3.5"].

Definition twoPages : ListTab :=
  mkListTab None None
    (fun n => match n with
              | O => listPage page1rows true
              | _ => listPage page2rows false
              end)
    (fun n j => match n, j with
                | O, O => Some timeout
                | _, _ => None
                end).

(** The same list behind a link that never works. *)
Definition stuckPages : ListTab :=
  mkListTab None None (list_page twoPages) (fun _ _ => Some timeout).

(** Three worlds: every spell page loads; the page of the second
    reference never loads; the list shows no row of the allow-list. *)
Definition fairWorld : World :=
  mkWorld None twoPages (fun _ _ => goodTab) None.

Definition brokenWorld : World :=
  mkWorld None twoPages
    (fun item _ => if (item =? 1)%nat then deadTab else goodTab) None.

Definition emptyWorld : World :=
  mkWorld None
    (mkListTab None None
       (fun _ => listPage [headerRow;
                           tableRow "Ice Axe" "/spells/frostburn--68/ice-axe--1201/"
                             "Frostburn"] false)
       (fun _ _ => None))
    (fun _ _ => goodTab) None.

(** The record of [barePage] under another id. *)
Definition bareRecordOf (id : string) : Spell.t :=
  Spell.make (js id) (js "Fly") None [] [] [] [] [] []
    None None None None None None None None None.

(* ===================================================================== *)
(** * [readSpellProperty]: the guarded read, written once *)
(* ===================================================================== *)

(** The helper that [crawlSpellPage] declares and its sixteen guarded
    readers repeat by hand.  Its two messages are template literals over
    [propertyName]. *)
Definition readSpellProperty {T} (page : Document) (propertyName : string)
           (readFn : Document -> M T) (defaultValue : T) : M T :=
  try_catch
    (v <- readFn page ;;
     log DEBUG ("Read " ++ propertyName ++ ".") ;;
     ret v)
    (fun error =>
       log_error WARN ("Could not read spell " ++ propertyName ++ ".") error ;;
       ret defaultValue).

(** A read whose field may also be [null]. *)
Definition nullable {A} (m : M A) : M (option A) := v <- m ;; ret (Some v).

(** What each guarded reader awaits inside its [try], without the log
    line. *)
Definition sourceRead (page : Document) : M (option SpellSource.t) :=
  nullable (page_Seval page (SelLinkTo "/rulebooks/") sourceOf).

Definition linksRead (prefix : string) (page : Document) : M (list jsstring) :=
  page_SSeval page (SelLinkTo prefix) trimmedTexts.

Definition classLevelsRead (page : Document)
  : M (list (option ClassSpellLevel.t)) :=
  texts <- page_SSeval page (SelLinkTo "/classes/")
             (fun el => Ok (map textContent el)) ;;
  ret (map parseClassSpellLevel texts).

Definition domainLevelsRead (page : Document) : M (list DomainSpellLevel.t) :=
  domainNameElements <- page_SS page (SelLinkTo "/spells/domains/") ;;
  Promise_all (map domainLevelOf domainNameElements).

Definition componentsRead (page : Document) : M (list (option jsstring)) :=
  handles <- page_Sx page (XAbbrAfter "Components:") ;;
  Promise_all
    (map (fun eh => evaluate eh (fun e => Ok (getAttribute e "title")))
         handles).

Definition textRead (label : string) (page : Document) : M (option jsstring) :=
  nullable (textAfter page label).

Definition descriptionRead (page : Document) : M (option jsstring) :=
  nullable (page_Seval page SelDescription (fun e => Ok (trim (innerHTML e)))).

(** [reader] is [readSpellProperty] at [propertyName], [readFn] and
    [defaultValue]. *)
Definition repeats {T} (reader : Document -> M T) (propertyName : string)
           (readFn : Document -> M T) (defaultValue : T) : Prop :=
  forall (page : Document) (t : trace),
    reader page t = readSpellProperty page propertyName readFn defaultValue t.

(** [reader] is [readSpellProperty] but for the words of its debug line,
    which are [said]. *)
Definition repeats_but_says {T} (reader : Document -> M T)
           (propertyName : string) (readFn : Document -> M T)
           (defaultValue : T) (said : string) : Prop :=
  forall (page : Document) (t : trace),
    match readFn page t with
    | (Ok v, t') =>
        reader page t = (Ok v, t' ++ [Log DEBUG said None])
        /\ readSpellProperty page propertyName readFn defaultValue t
           = (Ok v, t' ++ [Log DEBUG ("Read " ++ propertyName ++ ".") None])
    | (Throw _, _) =>
        reader page t
        = readSpellProperty page propertyName readFn defaultValue t
    end.

(* ===================================================================== *)
(** * Further notions for the statements *)
(* ===================================================================== *)


(** How often an event of a kind occurs in a trace. *)
Definition count (P : event -> bool) (t : trace) : nat :=
  length (filter P t).

Definition is_NewPage (ev : event) : bool :=
  match ev with NewPage => true | _ => false end.
Definition is_ClosePage (ev : event) : bool :=
  match ev with ClosePage => true | _ => false end.
Definition is_Launch (ev : event) : bool :=
  match ev with Launch => true | _ => false end.
Definition is_CloseBrowser (ev : event) : bool :=
  match ev with CloseBrowser => true | _ => false end.
Definition is_Goto (ev : event) : bool :=
  match ev with Goto _ => true | _ => false end.

(** A log line below the level [info]. *)
Definition low_log (ev : event) : bool :=
  match ev with
  | Log WARN _ _ | Log VERBOSE _ _ | Log DEBUG _ _ => true
  | _ => false
  end.

(** The three ways in which the inner [try] of the driver ends: the
    output, the report of an error, the report of an empty list. *)
Definition is_ending (ev : event) : bool :=
  match ev with
  | Stdout _ => true
  | Log ERROR msg _ => String.eqb msg "Unexpected error!"
  | Log INFO msg _ => String.eqb msg "No spells found!"
  | _ => false
  end.

(** The events of the functions that crawl: the calls on tabs and pages
    and the log lines, but for errors and the report of an empty list.
    Not among them are the launch, the close of the browser and the
    output. *)
Definition crawl_event (ev : event) : bool :=
  match ev with
  | Launch | CloseBrowser | Stdout _ => false
  | Log ERROR _ _ => false
  | Log INFO msg _ => negb (String.eqb msg "No spells found!")
  | _ => true
  end.

(** The events of the paginator between the load of the list and the
    close of its tab: log lines below [info], and clicks. *)
Definition list_event (ev : event) : bool :=
  match ev with
  | Click => true
  | _ => low_log ev
  end.

(** [t'] is [t] with events of the kind [P] after it. *)
Definition extends (P : event -> bool) (t t' : trace) : Prop :=
  exists l, t' = t ++ l /\ forallb P l = true.

(** The url of the spell list. *)
Definition listUrl : jsstring := DNDTOOLS_URL_BASE ++ js "/spells/?page_size=1000".

(* ===================================================================== *)
(** * More sample pages *)
(* ===================================================================== *)

(** A spell page with two domain links, the second of which has nothing
    after it. *)
Definition looseDomainPage : Document :=
  mkDocument
    (fun sel =>
       match sel with
       | SelHeading => Ok [node "Fly" None]
       | SelLinkTo "/spells/domains/" =>
           Ok [node "Travel" (Some " 3"%string); node "Air" None]
       | _ => Ok []
       end)
    (fun _ => Ok []).

(** A tab whose page loads and whose [close] fails. *)
Definition closeError : error := Error "Protocol error: Target closed.".
Definition stickyTab : Tab :=
  mkTab None (fun _ => None) (fun _ => barePage) (Some closeError).

(** A tab whose page never loads and whose [close] fails. *)
Definition deadStickyTab : Tab :=
  mkTab None (fun _ => Some timeout) (fun _ => barePage) (Some closeError).




(** A world whose list does not load, and one whose browser does not
    close. *)
Definition noListWorld : World :=
  mkWorld None (mkListTab None (Some timeout) (list_page twoPages) (fun _ _ => None))
    (fun _ _ => goodTab) None.

Definition stickyWorld : World :=
  mkWorld None twoPages (fun _ _ => goodTab) (Some closeError).

(** A list whose every page has a link to a next page. *)
Definition endlessPages : ListTab :=
  mkListTab None None (fun _ => listPage page2rows true) (fun _ _ => None).

(* ===================================================================== *)
(** * The fetches a run has left *)
(* ===================================================================== *)

(** The fetches that running activations may still make: for each the
    one it waits for and those its [retryCount] leaves. *)
Definition fetches_of (running : list Worker) : Z :=
  fold_right (fun w a => w_retryCount w + 1 + a) 0 running.

(** The fetches a run may still make: those of its activations, and
    [RETRY_LIMIT] for each item not yet started. *)
Definition fetches_left {C} (st : Runner C) : Z :=
  RETRY_LIMIT * Z.of_nat (length (r_pending st)) + fetches_of (r_running st).

(** No running activation has overdrawn its count. *)
Definition in_budget (running : list Worker) : Prop :=
  Forall (fun w => 0 <= w_retryCount w) running.

(** While the promise of a run is not settled, an activation is
    running. *)
Definition live {C} (st : Runner C) : Prop :=
  r_settled st = None -> r_running st <> [].

(* ===================================================================== *)
(** * The events of the driver *)
(* ===================================================================== *)

(** What the outer [catch] of the driver logs when [browser.close()]
    throws. *)
Definition closeNote (outcome : option error) : trace :=
  match outcome with
  | Some e => [Log ERROR "Could not start browser." (Some (message e))]
  | None => []
  end.

(** A row of the allow-list whose link has no [href], and a world whose
    list shows that row alone. *)
Definition hreflessRow : Element :=
  mkElement (js "Fly") (js "Fly") (fun _ => None) None None
    (fun sel =>
       match sel with
       | SelCellLink 1 => Ok [anchor "Fly" None]
       | SelCellLink 4 => Ok [anchor "Spell Compendium" None]
       | _ => Ok []
       end).

Definition hreflessWorld : World :=
  mkWorld None
    (mkListTab None None (fun _ => listPage [hreflessRow] false)
       (fun _ _ => None))
    (fun _ _ => goodTab) None.


Definition abbr (title : option string) : Element :=
  mkElement [] []
    (fun a => if String.eqb a "title" then option_map js title else None)
    None None (fun _ => Ok []).

Definition componentsPage : Document :=
  mkDocument (fun _ => Ok [])
    (fun p =>
       match p with
       | XAbbrAfter "Components:" =>
           Ok [abbr (Some "Verbal"%string); abbr None;
               abbr (Some "Somatic"%string)]
       | _ => Ok []
       end).
(* ===================================================================== *)
(** * Lemmas on strings and patterns *)
(* ===================================================================== *)

Section MatcherFacts.

Variable A : Type.

Lemma star_sound (p : jschar -> bool) (s : jsstring)
      (k : jsstring -> option A) (a : A) :
  star p s k = Some a ->
  exists u s', s = u ++ s' /\ all p u /\ k s' = Some a.
Proof.
  induction s as [|c s IH]; simpl; intros H.
  - exists [], []. repeat split; auto. constructor.
  - destruct (p c) eqn:Hp.
    + destruct (star p s k) eqn:Hs.
      * inversion H; subst. destruct (IH eq_refl) as (u & s' & -> & Hu & Hk).
        exists (c :: u), s'. repeat split; auto. constructor; auto.
      * exists [], (c :: s). repeat split; auto. constructor.
    + exists [], (c :: s). repeat split; auto. constructor.
Qed.

Lemma star_complete (p : jschar -> bool) (u s' : jsstring)
      (k : jsstring -> option A) :
  all p u -> k s' <> None -> star p (u ++ s') k <> None.
Proof.
  induction 1 as [|c u Hc Hu IH]; intros Hk.
  - simpl. destruct s' as [|c s']; simpl; auto.
    destruct (p c); auto. destruct (star p s' k); auto. discriminate.
  - simpl. rewrite Hc. specialize (IH Hk).
    destruct (star p (u ++ s') k); [discriminate | contradiction].
Qed.

Variable input : jsstring.

Lemma rmatch_sound (r : regex) :
  forall (s : jsstring) (caps : list jsstring)
         (k : jsstring -> list jsstring -> option A) (a : A),
    rmatch input r s caps k = Some a ->
    exists s' cs, den input r s s' cs /\ k s' (caps ++ cs) = Some a.
Proof.
  induction r as [c|p|p|p|r IH|r1 IH1 r2 IH2|r IH| |];
    intros s caps k a H; simpl in H.
  - destruct s as [|c' s]; [discriminate|].
    destruct (N.eqb_spec c' c); [subst|discriminate].
    exists s, []. rewrite app_nil_r. simpl; auto.
  - destruct s as [|c' s]; [discriminate|].
    destruct (p c') eqn:Hp; [|discriminate].
    exists s, []. rewrite app_nil_r. simpl; eauto.
  - apply star_sound in H. destruct H as (u & s' & -> & Hu & Hk).
    exists s', []. rewrite app_nil_r. simpl; eauto.
  - destruct s as [|c' s]; [discriminate|].
    destruct (p c') eqn:Hp; [|discriminate].
    apply star_sound in H. destruct H as (u & s' & -> & Hu & Hk).
    exists s', []. rewrite app_nil_r. simpl. split; auto. split; auto.
    exists (c' :: u). repeat split; auto.
    + constructor; auto.
    + discriminate.
  - destruct (rmatch input r s caps k) eqn:Hr.
    + inversion H; subst. destruct (IH _ _ _ _ Hr) as (s' & cs & Hd & Hk).
      exists s', cs. simpl; auto.
    + exists s, []. rewrite app_nil_r. simpl; auto.
  - destruct (IH1 _ _ _ _ H) as (s1 & c1 & Hd1 & H1).
    destruct (IH2 _ _ _ _ H1) as (s' & c2 & Hd2 & H2).
    exists s', (c1 ++ c2). rewrite app_assoc. split; auto.
    simpl. exists s1, c1, c2. auto.
  - destruct (IH _ _ _ _ H) as (s' & c & Hd & Hk).
    exists s', (c ++ [firstn (length s - length s') s]).
    rewrite app_assoc. split; auto. simpl. eauto.
  - destruct (Nat.eqb_spec (length s) (length input)); [|discriminate].
    exists s, []. rewrite app_nil_r. simpl; auto.
  - destruct s; [|discriminate]. exists [], []. rewrite app_nil_r. simpl; auto.
Qed.

Lemma rmatch_complete (r : regex) :
  forall (s s' : jsstring) (cs caps : list jsstring)
         (k : jsstring -> list jsstring -> option A),
    den input r s s' cs ->
    (forall cs', k s' cs' <> None) ->
    rmatch input r s caps k <> None.
Proof.
  induction r as [c|p|p|p|r IH|r1 IH1 r2 IH2|r IH| |];
    intros s s' cs caps k Hd Hk; simpl in Hd; simpl.
  - destruct Hd as [-> _]. rewrite N.eqb_refl. apply Hk.
  - destruct Hd as [(c & -> & Hp) _]. rewrite Hp. apply Hk.
  - destruct Hd as [(u & -> & Hu) _]. apply star_complete; auto.
  - destruct Hd as [(u & -> & Hu & Hne) _].
    destruct u as [|c u]; [contradiction|]. inversion Hu; subst.
    simpl. rewrite H1. apply star_complete; auto.
  - destruct Hd as [Hd | [-> _]].
    + specialize (IH _ _ _ caps k Hd Hk).
      destruct (rmatch input r s caps k); [discriminate | contradiction].
    + destruct (rmatch input r s' caps k); [discriminate | apply Hk].
  - destruct Hd as (s1 & c1 & c2 & Hd1 & Hd2 & _).
    eapply IH1; [eassumption|]. intros cs'. eapply IH2; eauto.
  - destruct Hd as (c & Hd & _). eapply IH; eauto.
  - destruct Hd as (-> & Hl & _). rewrite Hl, Nat.eqb_refl. apply Hk.
  - destruct Hd as (-> & -> & _). apply Hk.
Qed.

End MatcherFacts.

(** [scan] stops at the first position where the pattern matches. *)
Lemma scan_leftmost (r : regex) (input : jsstring) :
  forall (s : jsstring) (m : list jsstring),
    scan r input s = Some m ->
    exists pre s0 s' cs,
      s = pre ++ s0 /\ den input r s0 s' cs
      /\ m = firstn (length s0 - length s') s0 :: cs
      /\ forall p1 p2 s1 cs1,
          pre = p1 ++ p2 -> p2 <> [] -> ~ den input r (p2 ++ s0) s1 cs1.
Proof.
  induction s as [|c s IH]; intros m H.
  - simpl in H.
    destruct (rmatch input r [] [] _) eqn:Hm; [|discriminate].
    inversion H; subst. apply rmatch_sound in Hm.
    destruct Hm as (s' & cs & Hd & Hk). inversion Hk; subst.
    exists [], [], s', cs. repeat split; auto.
    intros p1 p2 s1 cs1 Hp Hne. destruct p1; destruct p2; try discriminate.
    contradiction.
  - simpl in H.
    destruct (rmatch input r (c :: s) [] _) eqn:Hm.
    + inversion H; subst. apply rmatch_sound in Hm.
      destruct Hm as (s' & cs & Hd & Hk). inversion Hk; subst.
      exists [], (c :: s), s', cs. repeat split; auto.
      intros p1 p2 s1 cs1 Hp Hne. destruct p1; destruct p2; try discriminate.
      contradiction.
    + destruct (IH _ H) as (pre & s0 & s' & cs & -> & Hd & -> & Hleft).
      exists (c :: pre), s0, s', cs. repeat split; auto.
      intros p1 p2 s1 cs1 Hp Hne Hd1.
      destruct p1 as [|c1 p1].
      * simpl in Hp. subst p2. simpl in Hd1.
        eapply rmatch_complete in Hd1.
        -- apply Hd1. exact Hm.
        -- intros cs'. discriminate.
      * simpl in Hp. inversion Hp; subst. eapply Hleft; eauto.
Qed.

Lemma firstn_matched (u s' : jsstring) :
  firstn (length (u ++ s') - length s') (u ++ s') = u.
Proof.
  rewrite length_app, Nat.add_sub.
  rewrite firstn_app, Nat.sub_diag, firstn_all. simpl. apply app_nil_r.
Qed.

(** A match of the id pattern: the url ends in a run of digits and at
    most one slash, the run is group 1, and no digit stands before it. *)
Lemma exec_trailingId (url : jsstring) (m : list jsstring) :
  exec re_trailingId url = Some m ->
  exists pre suf,
    url = pre ++ group m 1 ++ suf
    /\ all isDigit (group m 1) /\ group m 1 <> []
    /\ (suf = [] \/ suf = [47%N])
    /\ (forall pre' c, pre = pre' ++ [c] -> isDigit c = false).
Proof.
  intros H. apply scan_leftmost in H.
  destruct H as (pre & s0 & s' & cs & -> & Hd & -> & Hleft).
  simpl in Hd.
  destruct Hd as (s1 & c1 & c2 & (c & ((u & -> & Hu & Hne) & ->) & ->) & Hd2 & ->).
  destruct Hd2 as (s2 & c3 & c4 & Hopt & (-> & -> & ->) & ->).
  rewrite firstn_matched. simpl app. unfold group. simpl nth.
  exists pre, s1. repeat split; auto.
  - destruct Hopt as [[-> _] | [-> _]]; auto.
  - intros pre' d -> . destruct (isDigit d) eqn:Hd; auto. exfalso.
    refine (Hleft pre' [d] [] ([d :: u] ++ (c3 ++ [])) eq_refl _ _);
      [discriminate|].
    unfold re_trailingId; cbn [den].
    exists s1, [d :: u], (c3 ++ []). split; [|split; [|reflexivity]].
    + exists []. split; [split; [|reflexivity]|].
      * exists (d :: u). repeat split; auto; [constructor; auto | discriminate].
      * cbn [app]. f_equal. f_equal.
        change (d :: u ++ s1) with ((d :: u) ++ s1).
        symmetry. apply firstn_matched.
    + exists [], c3, []. split; [|split; auto].
      destruct Hopt as [[-> ->] | [-> ->]]; [left | right]; auto.
Qed.

(** A match of the class-level pattern: the whole text is group 1, one
    white-space character and group 2, a run of digits. *)
Lemma exec_classLevel (str : jsstring) (m : list jsstring) :
  exec re_classLevel str = Some m ->
  exists w,
    str = group m 1 ++ w :: group m 2
    /\ all isDot (group m 1) /\ isSpace w = true
    /\ all isDigit (group m 2) /\ group m 2 <> [].
Proof.
  intros H. apply scan_leftmost in H.
  destruct H as (pre & s0 & s' & cs & -> & Hd & -> & _).
  simpl in Hd.
  destruct Hd as (s1 & c1 & c2 & (-> & Hlen & ->) & Hd & ->).
  destruct Hd as (s2 & c3 & c4 & (c & ((u & -> & Hu) & ->) & ->) & Hd & ->).
  destruct Hd as (s3 & c5 & c6 & ((w & -> & Hw) & ->) & Hd & ->).
  destruct Hd as (s4 & c7 & c8 & (c & ((d & -> & Hdig & Hne) & ->) & ->) & Hd & ->).
  destruct Hd as (-> & -> & ->).
  unfold group. cbn [app nth]. rewrite !firstn_matched.
  rewrite app_nil_r in *.
  exists w. repeat split; auto.
  rewrite (length_app pre) in Hlen.
  destruct pre; [reflexivity | simpl in Hlen; lia].
Qed.


Lemma digit_cases (c : jschar) :
  isDigit c = true ->
  In c [48; 49; 50; 51; 52; 53; 54; 55; 56; 57]%N.
Proof.
  unfold isDigit. intros H. apply andb_prop in H. destruct H as [H1 H2].
  apply N.leb_le in H1. apply N.leb_le in H2. simpl.
  assert (Hc : (c = 48 \/ c = 49 \/ c = 50 \/ c = 51 \/ c = 52 \/ c = 53
                \/ c = 54 \/ c = 55 \/ c = 56 \/ c = 57)%N) by lia.
  intuition auto.
Qed.

Lemma digitValue_decimal (c : jschar) :
  isDigit c = true -> digitValue 10 c = Some (Z.of_N c - 48).
Proof.
  intros H. apply digit_cases in H. simpl in H.
  repeat (destruct H as [<- | H]; [reflexivity|]). contradiction.
Qed.

Lemma digitsValue_decimal (u : jsstring) :
  all isDigit u ->
  forall a, digitsValue 10 (Some a) u
            = Some (fold_left (fun a c => a * 10 + (Z.of_N c - 48)) u a).
Proof.
  induction 1 as [|c u Hc Hu IH]; intros a; cbn [digitsValue fold_left]; auto.
  rewrite (digitValue_decimal Hc). apply IH.
Qed.

Lemma decimal_fold_nonneg (u : jsstring) :
  all isDigit u ->
  forall a, 0 <= a ->
            0 <= fold_left (fun a c => a * 10 + (Z.of_N c - 48)) u a.
Proof.
  induction 1 as [|c u Hc Hu IH]; intros a Ha; cbn [fold_left]; auto.
  apply IH. unfold isDigit in Hc. apply andb_prop in Hc. destruct Hc as [Hc _].
  apply N.leb_le in Hc. lia.
Qed.

Lemma decimalValue_nonneg (u : jsstring) :
  all isDigit u -> 0 <= decimalValue u.
Proof. intros H. apply decimal_fold_nonneg; [exact H | lia]. Qed.

(** Below 2^53 every integer is a double. *)
Lemma nearestDouble_small (v : Z) :
  0 <= v < 2 ^ 53 -> nearestDouble v = v.
Proof.
  intros Hv. unfold nearestDouble.
  assert (Hl : Z.log2 v < 53).
  { destruct (Z.eq_dec v 0) as [-> | Hne]; [reflexivity|].
    apply Z.log2_lt_pow2; lia. }
  destruct (Z.leb_spec (Z.log2 v - 52) 0); [reflexivity | lia].
Qed.

Lemma nearestDouble_nonneg (v : Z) : 0 <= v -> 0 <= nearestDouble v.
Proof.
  intros Hv. unfold nearestDouble.
  destruct (Z.log2 v - 52 <=? 0); [exact Hv|].
  apply Z.shiftl_nonneg.
  assert (Hq : 0 <= Z.shiftr v (Z.log2 v - 52)) by now apply Z.shiftr_nonneg.
  destruct (_ || _); lia.
Qed.

Lemma toDouble_small (z : Z) : 0 <= z < 2 ^ 53 -> toDouble z = Num z.
Proof.
  intros Hz. unfold toDouble. rewrite Z.abs_eq by lia.
  rewrite (nearestDouble_small Hz).
  assert (Hlt : z < 2 ^ 1024).
  { apply Z.lt_trans with (2 ^ 53); [lia | reflexivity]. }
  apply Z.ltb_lt in Hlt. rewrite Hlt. f_equal.
  destruct z; [reflexivity | apply Z.mul_1_l | lia].
Qed.

(** The double of a non-negative integer counts. *)
Lemma toDouble_counting (z : Z) : 0 <= z -> counting (toDouble z).
Proof.
  intros Hz. unfold toDouble, counting. rewrite Z.abs_eq by exact Hz.
  pose proof (nearestDouble_nonneg Hz) as Hm.
  destruct (nearestDouble z <? 2 ^ 1024).
  - left. eexists. split; [reflexivity|].
    destruct z; [reflexivity | | lia].
    change (Z.sgn (Z.pos p)) with 1. now rewrite Z.mul_1_l.
  - destruct (Z.ltb_spec z 0); [lia | now right].
Qed.

(** [parseInt] of a run of digits is the double of the number they spell
    in base ten. *)
Lemma parseInt_decimal (u : jsstring) :
  all isDigit u -> u <> [] -> parseInt u = toDouble (decimalValue u).
Proof.
  intros Hu Hne. destruct u as [|c u]; [contradiction|].
  inversion Hu as [|? ? Hc Hu']; subst.
  assert (Hplain : parseInt (c :: u)
                   = match digitsValue 10 None (c :: u) with
                     | Some v =>
                         if (v =? 0) && (1 <? 0) then NegZero
                         else toDouble (1 * v)
                     | None => NaN
                     end).
  { pose proof Hc as Hc0. apply digit_cases in Hc0. simpl in Hc0.
    destruct Hc0 as [<- | Hc0].
    - destruct u as [|c' u]; [reflexivity|].
      inversion Hu' as [|? ? Hc' _]; subst. apply digit_cases in Hc'. simpl in Hc'.
      repeat (destruct Hc' as [<- | Hc']; [reflexivity|]). contradiction.
    - repeat (destruct Hc0 as [<- | Hc0]; [reflexivity|]). contradiction. }
  rewrite Hplain. cbn [digitsValue]. rewrite (digitValue_decimal Hc).
  rewrite (digitsValue_decimal Hu'). unfold decimalValue. cbn [fold_left].
  change (0 * 10 + (Z.of_N c - 48)) with (Z.of_N c - 48).
  change (1 <? 0) with false. rewrite Bool.andb_false_r.
  f_equal. apply Z.mul_1_l.
Qed.


(* ===================================================================== *)
(** * Lemmas on the monad *)
(* ===================================================================== *)

Lemma bind_ok {A B} (m : M A) (k : A -> M B) (t t' : trace) (a : A) :
  m t = (Ok a, t') -> bind m k t = k a t'.
Proof. unfold bind. intros ->. reflexivity. Qed.

Lemma bind_throw {A B} (m : M A) (k : A -> M B) (t t' : trace) (e : error) :
  m t = (Throw e, t') -> bind m k t = (Throw e, t').
Proof. unfold bind. intros ->. reflexivity. Qed.

Lemma forallb_weaken (P Q : event -> bool) (l : trace) :
  (forall ev, P ev = true -> Q ev = true) ->
  forallb P l = true -> forallb Q l = true.
Proof.
  intros HPQ. induction l as [|ev l IH]; simpl; auto.
  intros H. apply andb_prop in H. destruct H as [H1 H2].
  rewrite (HPQ _ H1), (IH H2). reflexivity.
Qed.

Lemma gotos_app (t l : trace) : gotos (t ++ l) = (gotos t + gotos l)%nat.
Proof.
  induction t as [|ev t IH]; simpl; auto. destruct ev; simpl; auto.
Qed.

Lemma stdout_app (t l : trace) : stdout (t ++ l) = stdout t ++ stdout l.
Proof.
  induction t as [|ev t IH]; simpl; auto. destruct ev; simpl; auto.
  rewrite IH. reflexivity.
Qed.

Lemma warnings_app (t l : trace) : warnings (t ++ l) = warnings t ++ warnings l.
Proof.
  induction t as [|ev t IH]; simpl; auto.
  destruct ev as [[] ? ?| | | | | | |]; simpl; auto. rewrite IH. reflexivity.
Qed.

Lemma logs_no_goto (l : trace) : forallb is_log l = true -> gotos l = O.
Proof.
  induction l as [|ev l IH]; simpl; auto.
  destruct ev; simpl; try discriminate; auto.
Qed.

Lemma no_stdout (l : trace) : forallb not_stdout l = true -> stdout l = [].
Proof.
  induction l as [|ev l IH]; simpl; auto.
  destruct ev; simpl; try discriminate; auto.
Qed.

Lemma log_not_stdout (ev : event) : is_log ev = true -> not_stdout ev = true.
Proof. destruct ev; simpl; auto. Qed.

Section Writers.

Variable P : event -> bool.

Lemma writer_ret {A} (a : A) : writer P (ret a).
Proof. split; [intros t; unfold ret; cbn; now rewrite app_nil_r | reflexivity]. Qed.

Lemma writer_throw {A} (e : error) : writer P (@throw A e).
Proof. split; [intros t; unfold throw; cbn; now rewrite app_nil_r | reflexivity]. Qed.

Lemma writer_lift {A} (r : result A) : writer P (lift r).
Proof. split; [intros t; unfold lift; cbn; now rewrite app_nil_r | reflexivity]. Qed.

Lemma writer_settle (o : option error) : writer P (settle o).
Proof. destruct o; [apply writer_throw | apply writer_ret]. Qed.

Lemma writer_emit (ev : event) : P ev = true -> writer P (emit ev).
Proof. intros H. split; [reflexivity | cbn; now rewrite H]. Qed.

Lemma writer_bind {A B} (m : M A) (k : A -> M B) :
  writer P m -> (forall a, writer P (k a)) -> writer P (bind m k).
Proof.
  intros [Hm Pm] Hk.
  assert (Hb : forall t, bind m k t
                = match outcome m with
                  | Ok a => (outcome (k a), t ++ effects m ++ effects (k a))
                  | Throw e => (Throw e, t ++ effects m)
                  end).
  { intros t. unfold bind. rewrite Hm. destruct (outcome m) as [a|e]; auto.
    destruct (Hk a) as [Hka _]. rewrite Hka, app_assoc. reflexivity. }
  split.
  - intros t. unfold outcome, effects. rewrite (Hb t), (Hb []).
    destruct (outcome m); reflexivity.
  - unfold effects. rewrite (Hb []). destruct (outcome m) as [a|e]; cbn; auto.
    rewrite forallb_app, Pm. destruct (Hk a) as [_ Pk]. now rewrite Pk.
Qed.

Lemma writer_try_catch {A} (body : M A) (handler : error -> M A) :
  writer P body -> (forall e, writer P (handler e)) ->
  writer P (try_catch body handler).
Proof.
  intros [Hm Pm] Hk.
  assert (Hb : forall t, try_catch body handler t
                = match outcome body with
                  | Ok a => (Ok a, t ++ effects body)
                  | Throw e => (outcome (handler e),
                                t ++ effects body ++ effects (handler e))
                  end).
  { intros t. unfold try_catch. rewrite Hm. destruct (outcome body) as [a|e]; auto.
    destruct (Hk e) as [Hke _]. rewrite Hke, app_assoc. reflexivity. }
  split.
  - intros t. unfold outcome, effects. rewrite (Hb t), (Hb []).
    destruct (outcome body); reflexivity.
  - unfold effects. rewrite (Hb []). destruct (outcome body) as [a|e]; cbn; auto.
    rewrite forallb_app, Pm. destruct (Hk e) as [_ Pk]. now rewrite Pk.
Qed.

Lemma writer_try_finally {A} (body : M A) (cleanup : M unit) :
  writer P body -> writer P cleanup -> writer P (try_finally body cleanup).
Proof.
  intros [Hm Pm] [Hc Pc].
  assert (Hb : forall t, try_finally body cleanup t
                = (match outcome cleanup with
                   | Ok _ => outcome body
                   | Throw e => Throw e
                   end, t ++ effects body ++ effects cleanup)).
  { intros t. unfold try_finally. rewrite Hm, Hc, app_assoc.
    destruct (outcome cleanup); reflexivity. }
  split.
  - intros t. unfold outcome, effects. rewrite (Hb t), (Hb []). reflexivity.
  - unfold effects. rewrite (Hb []). cbn. now rewrite forallb_app, Pm, Pc.
Qed.

Lemma writer_Promise_all {A} (ps : list (M A)) :
  Forall (writer P) ps -> writer P (Promise_all ps).
Proof.
  induction 1 as [|p ps Hp Hps IH]; simpl.
  - apply writer_ret.
  - apply writer_bind; auto. intros a.
    apply writer_bind; auto. intros l. apply writer_ret.
Qed.

Lemma writer_evaluate {A} (handle : Element) (f : Element -> result A) :
  writer P (evaluate handle f).
Proof.
  unfold evaluate. destruct (detached handle); [apply writer_throw | apply writer_lift].
Qed.

Lemma writer_eval_first {A} (sel : selector) (q : result (list Element))
      (f : Element -> result A) :
  writer P (eval_first sel q f).
Proof.
  unfold eval_first. apply writer_bind; [apply writer_lift|].
  intros [|e l]; [apply writer_throw | apply writer_lift].
Qed.

End Writers.

Lemma writer_weaken (P Q : event -> bool) {A} (m : M A) :
  (forall ev, P ev = true -> Q ev = true) -> writer P m -> writer Q m.
Proof. intros HPQ [H1 H2]. split; auto. eapply forallb_weaken; eauto. Qed.

Lemma writer_run (P : event -> bool) {A} (m : M A) (t : trace) :
  writer P m -> m t = (outcome m, t ++ effects m).
Proof. intros [H _]. apply H. Qed.

Create HintDb writers.
#[local] Hint Resolve writer_ret writer_throw writer_lift writer_settle
  writer_bind writer_try_catch writer_try_finally writer_evaluate
  writer_eval_first : writers.
#[local] Hint Extern 1 (writer _ (emit _)) =>
  apply writer_emit; reflexivity : writers.
#[local] Hint Extern 1 (writer _ (log _ _)) =>
  apply writer_emit; reflexivity : writers.
#[local] Hint Extern 1 (writer _ (log_error _ _ _)) =>
  apply writer_emit; reflexivity : writers.
#[local] Hint Extern 3 (writer _ (Promise_all (map _ _))) =>
  apply writer_Promise_all; apply Forall_forall;
  let x := fresh in let Hx := fresh in
  intros x Hx; apply in_map_iff in Hx;
  let y := fresh in destruct Hx as (y & <- & _) : writers.
#[local] Hint Extern 2 (writer _ (match ?x with _ => _ end)) =>
  destruct x : writers.

Ltac writer_of f := unfold f; auto 30 with writers.

(* ===================================================================== *)
(** * Lemmas on the field extractors *)
(* ===================================================================== *)

Lemma writer_page_S P page sel : writer P (page_S page sel).
Proof. writer_of page_S. Qed.
Lemma writer_page_SS P page sel : writer P (page_SS page sel).
Proof. writer_of page_SS. Qed.
Lemma writer_page_Seval P A page sel (f : Element -> result A) :
  writer P (page_Seval page sel f).
Proof. writer_of @page_Seval. Qed.
Lemma writer_page_SSeval P A page sel (f : list Element -> result A) :
  writer P (page_SSeval page sel f).
Proof. writer_of @page_SSeval. Qed.
Lemma writer_page_Sx P page path : writer P (page_Sx page path).
Proof. writer_of page_Sx. Qed.
Lemma writer_elem_S P row sel : writer P (elem_S row sel).
Proof. writer_of elem_S. Qed.
Lemma writer_elem_Seval P A row sel (f : Element -> result A) :
  writer P (elem_Seval row sel f).
Proof. writer_of @elem_Seval. Qed.

#[local] Hint Resolve writer_page_S writer_page_SS writer_page_Seval
  writer_page_SSeval writer_page_Sx writer_elem_S writer_elem_Seval : writers.

Lemma writer_textAfter P page label : writer P (textAfter page label).
Proof. writer_of textAfter. Qed.
Lemma writer_domainLevelOf P e : writer P (domainLevelOf e).
Proof. writer_of domainLevelOf. Qed.

#[local] Hint Resolve writer_textAfter writer_domainLevelOf : writers.

Lemma writer_readName page : writer is_debug (readName page).
Proof. writer_of readName. Qed.
Lemma writer_readSource_try page : writer is_debug (readSource_try page).
Proof. writer_of readSource_try. Qed.
Lemma writer_readSchools_try page : writer is_debug (readSchools_try page).
Proof. writer_of readSchools_try. Qed.
Lemma writer_readSubschools_try page : writer is_debug (readSubschools_try page).
Proof. writer_of readSubschools_try. Qed.
Lemma writer_readDescriptors_try page : writer is_debug (readDescriptors_try page).
Proof. writer_of readDescriptors_try. Qed.
Lemma writer_readClassLevels_try page : writer is_debug (readClassLevels_try page).
Proof. writer_of readClassLevels_try. Qed.
Lemma writer_readDomainLevels_try page : writer is_debug (readDomainLevels_try page).
Proof. writer_of readDomainLevels_try. Qed.
Lemma writer_readComponents_try page : writer is_debug (readComponents_try page).
Proof. writer_of readComponents_try. Qed.
Lemma writer_readCastingTime_try page : writer is_debug (readCastingTime_try page).
Proof. writer_of readCastingTime_try. Qed.
Lemma writer_readRange_try page : writer is_debug (readRange_try page).
Proof. writer_of readRange_try. Qed.
Lemma writer_readArea_try page : writer is_debug (readArea_try page).
Proof. writer_of readArea_try. Qed.
Lemma writer_readTarget_try page : writer is_debug (readTarget_try page).
Proof. writer_of readTarget_try. Qed.
Lemma writer_readEffect_try page : writer is_debug (readEffect_try page).
Proof. writer_of readEffect_try. Qed.
Lemma writer_readDuration_try page : writer is_debug (readDuration_try page).
Proof. writer_of readDuration_try. Qed.
Lemma writer_readSavingThrow_try page : writer is_debug (readSavingThrow_try page).
Proof. writer_of readSavingThrow_try. Qed.
Lemma writer_readSpellResistance_try page :
  writer is_debug (readSpellResistance_try page).
Proof. writer_of readSpellResistance_try. Qed.
Lemma writer_readDescription_try page : writer is_debug (readDescription_try page).
Proof. writer_of readDescription_try. Qed.

(** A [try] whose [catch] logs a warning and returns a default is a
    guarded extractor. *)
Lemma guarded_try_catch {A} (access : Document -> M A) (dflt : A) (msg : string) :
  guarded
    (fun page =>
       try_catch (access page)
         (fun error => log_error WARN msg error ;; ret dflt))
    access dflt msg.
Proof.
  intros page t. unfold try_catch.
  destruct (access page t) as [[v|e] t']; reflexivity.
Qed.

(** What a guarded extractor does, read off the outcome of its access. *)
Lemma guarded_run {A} (extractor access : Document -> M A) (dflt : A)
      (msg : string) (page : Document) (t : trace) :
  guarded extractor access dflt msg ->
  writer is_debug (access page) ->
  extractor page t
  = (Ok (or_default dflt (outcome (access page))),
     t ++ effects (access page) ++ field_warning msg (outcome (access page))).
Proof.
  intros G W. specialize (G page t). rewrite (writer_run t W) in G.
  destruct (outcome (access page)) as [v|e]; simpl; rewrite G.
  - now rewrite app_nil_r.
  - now rewrite app_assoc.
Qed.

Lemma extractors_are_guarded : extractors_guarded.
Proof. repeat split; apply guarded_try_catch. Qed.

Lemma debug_no_warning (l : trace) : forallb is_debug l = true -> warnings l = [].
Proof.
  induction l as [|ev l IH]; simpl; auto.
  destruct ev as [[] ? ?| | | | | | |]; simpl; try discriminate; auto.
Qed.

Lemma debug_is_log (ev : event) : is_debug ev = true -> is_log ev = true.
Proof. destruct ev as [[] ? ?| | | | | | |]; simpl; auto. Qed.

(** [readName] on a page with a heading, and on one without. *)
Lemma readName_ok (page : Document) (h : Element) (rest : list Element)
      (t : trace) :
  doc_query page SelHeading = Ok (h :: rest) ->
  readName page t
  = (Ok (trim (textContent h)), t ++ [Log DEBUG "Read name." None]).
Proof.
  intros H. unfold readName, try_catch, page_Seval, eval_first, bind, lift.
  rewrite H. reflexivity.
Qed.

Lemma readName_throws (page : Document) (t : trace) :
  readName page t
  = match doc_query page SelHeading with
    | Ok (h :: _) =>
        (Ok (trim (textContent h)), t ++ [Log DEBUG "Read name." None])
    | Ok [] => (Throw (no_match SelHeading), t)
    | Throw e => (Throw e, t)
    end.
Proof.
  unfold readName, try_catch, page_Seval, eval_first, bind, lift.
  destruct (doc_query page SelHeading) as [[|h l]|e]; reflexivity.
Qed.

#[local] Hint Resolve writer_readName writer_readSource_try
  writer_readSchools_try writer_readSubschools_try writer_readDescriptors_try
  writer_readClassLevels_try writer_readDomainLevels_try
  writer_readComponents_try writer_readCastingTime_try writer_readRange_try
  writer_readArea_try writer_readTarget_try writer_readEffect_try
  writer_readDuration_try writer_readSavingThrow_try
  writer_readSpellResistance_try writer_readDescription_try : writers.

Lemma effects_debug {A} (m : M A) :
  writer is_debug m ->
  forallb is_log (effects m) = true /\ warnings (effects m) = [].
Proof.
  intros [_ H]. split; [|now apply debug_no_warning].
  eapply forallb_weaken; [apply debug_is_log | exact H].
Qed.

Lemma field_warning_log {A} (msg : string) (r : result A) :
  forallb is_log (field_warning msg r) = true.
Proof. destruct r; reflexivity. Qed.

(** An attempt on a page that loads and has a heading builds the record,
    whatever the other extractors meet. *)
Lemma attempt_ok (tab : Tab) (url : jsstring) (i : nat) (t : trace)
      (id : jsstring) (h : Element) (rest : list Element) :
  tab_goto tab i = None ->
  spellId url = Ok id ->
  doc_query (tab_document tab i) SelHeading = Ok (h :: rest) ->
  exists l,
    attempt tab url i t
    = (Ok (recordOf id (trim (textContent h)) (tab_document tab i)),
       t ++ Goto url :: l)
    /\ forallb is_log l = true
    /\ warnings l = warnings (fieldWarnings (tab_document tab i)).
Proof.
  intros Hgoto Hid Hh. unfold attempt. rewrite Hgoto, Hid.
  set (page := tab_document tab i) in *.
  erewrite bind_ok by reflexivity.
  erewrite bind_ok by reflexivity.
  erewrite bind_ok by reflexivity.
  erewrite bind_ok by (eapply readName_ok; eassumption).
  do 16 (erewrite bind_ok
          by (apply guarded_run; [apply guarded_try_catch | auto with writers])).
  erewrite bind_ok by reflexivity.
  unfold ret, recordOf. rewrite <- !app_assoc. cbn [app].
  eexists. split; [reflexivity|].
  unfold fieldWarnings.
  pose proof (effects_debug (writer_readSource_try page)) as [L1 W1].
  pose proof (effects_debug (writer_readSchools_try page)) as [L2 W2].
  pose proof (effects_debug (writer_readSubschools_try page)) as [L3 W3].
  pose proof (effects_debug (writer_readDescriptors_try page)) as [L4 W4].
  pose proof (effects_debug (writer_readClassLevels_try page)) as [L5 W5].
  pose proof (effects_debug (writer_readDomainLevels_try page)) as [L6 W6].
  pose proof (effects_debug (writer_readComponents_try page)) as [L7 W7].
  pose proof (effects_debug (writer_readCastingTime_try page)) as [L8 W8].
  pose proof (effects_debug (writer_readRange_try page)) as [L9 W9].
  pose proof (effects_debug (writer_readArea_try page)) as [L10 W10].
  pose proof (effects_debug (writer_readTarget_try page)) as [L11 W11].
  pose proof (effects_debug (writer_readEffect_try page)) as [L12 W12].
  pose proof (effects_debug (writer_readDuration_try page)) as [L13 W13].
  pose proof (effects_debug (writer_readSavingThrow_try page)) as [L14 W14].
  pose proof (effects_debug (writer_readSpellResistance_try page)) as [L15 W15].
  pose proof (effects_debug (writer_readDescription_try page)) as [L16 W16].
  split.
  - cbn [forallb is_log andb].
    rewrite !forallb_app, !field_warning_log.
    rewrite L1, L2, L3, L4, L5, L6, L7, L8, L9, L10, L11, L12, L13, L14, L15, L16.
    reflexivity.
  - cbn [warnings].
    rewrite !warnings_app.
    rewrite W1, W2, W3, W4, W5, W6, W7, W8, W9, W10, W11, W12, W13, W14, W15, W16.
    cbn [app warnings]. rewrite app_nil_r. reflexivity.
Qed.

(** An attempt whose [page.goto] fails throws what [goto] threw. *)
Lemma attempt_goto_fails (tab : Tab) (url : jsstring) (i : nat) (t : trace)
      (e : error) :
  tab_goto tab i = Some e ->
  attempt tab url i t = (Throw e, t ++ [Goto url]).
Proof. intros H. unfold attempt. rewrite H. reflexivity. Qed.

Lemma writer_attempt (tab : Tab) (url : jsstring) (i : nat) :
  writer not_stdout (attempt tab url i).
Proof.
  unfold attempt, readSource, readSchools, readSubschools, readDescriptors,
    readClassLevels, readDomainLevels, readComponents, readCastingTime,
    readRange, readArea, readTarget, readEffect, readDuration,
    readSavingThrow, readSpellResistance, readDescription.
  repeat (first
    [ apply writer_bind; [|intros ?]
    | apply writer_try_catch; [|intros ?]
    | apply writer_ret
    | apply writer_emit; reflexivity
    | apply writer_settle
    | apply writer_lift
    | eapply writer_weaken; [| solve [auto with writers]];
      intros ev Hev; apply log_not_stdout, debug_is_log, Hev ]).
Qed.

(* ===================================================================== *)
(** * Lemmas on the retry loop of [crawlSpellPage] *)
(* ===================================================================== *)

Lemma retryLoop_step (tab : Tab) (url : jsstring) (retryCount : Z) (i : nat)
      (t : trace) :
  retryLoop tab url retryCount i t
  = if 0 <? retryCount then
      match attempt tab url i t with
      | (Ok spell, t') => (Ok (Some spell), t')
      | (Throw e, t') =>
          if retryCount - 1 <=? 0 then (Throw e, t' ++ [failure_note e])
          else retryLoop tab url (retryCount - 1) (S i) (t' ++ [retry_note e])
      end
    else (Ok None, t).
Proof.
  funelim (retryLoop tab url retryCount i t);
    destruct (Z.ltb_spec 0 retryCount); try lia; auto;
    match goal with H : attempt _ _ _ _ = _ |- _ => rewrite H end;
    try reflexivity;
    destruct (Z.leb_spec (retryCount - 1) 0); try lia; reflexivity.
Qed.

Lemma goto_fails (tab : Tab) (url : jsstring) (i : nat) (e : error) :
  tab_goto tab i = Some e -> fails tab url i e.
Proof. intros H t. now apply attempt_goto_fails. Qed.

(** An attempt whose [readName] throws stops there. *)
Lemma name_fails (tab : Tab) (url : jsstring) (i : nat) (id : jsstring)
      (e : error) :
  tab_goto tab i = None ->
  spellId url = Ok id ->
  outcome (readName (tab_document tab i)) = Throw e ->
  fails tab url i e.
Proof.
  intros Hgoto Hid Hname t. unfold attempt. rewrite Hgoto, Hid.
  erewrite bind_ok by reflexivity.
  erewrite bind_ok by reflexivity.
  erewrite bind_ok by reflexivity.
  apply bind_throw.
  unfold outcome in Hname. rewrite readName_throws in *.
  destruct (doc_query (tab_document tab i) SelHeading) as [[|h l]|e'];
    simpl in Hname; inversion Hname; subst; reflexivity.
Qed.

(** While the attempts fail the loop goes on: [n] failed attempts, then
    the rest of the loop. *)
Lemma retryLoop_failures (tab : Tab) (url : jsstring) (err : nat -> error) :
  forall (n : nat) (retryCount : Z) (i : nat) (t : trace),
    Z.of_nat n < retryCount ->
    (forall j, (j < n)%nat -> fails tab url (i + j) (err (i + j)%nat)) ->
    exists t',
      retryLoop tab url retryCount i t
      = retryLoop tab url (retryCount - Z.of_nat n) (i + n) t'
      /\ gotos t' = (gotos t + n)%nat
      /\ stdout t' = stdout t.
Proof.
  induction n as [|n IH]; intros retryCount i t Hn Hfail.
  - exists t. rewrite Z.sub_0_r, Nat.add_0_r, Nat.add_0_r. auto.
  - rewrite retryLoop_step.
    destruct (Z.ltb_spec 0 retryCount); [|lia].
    pose proof (Hfail O ltac:(lia)) as H0. rewrite Nat.add_0_r in H0.
    rewrite (H0 t).
    destruct (Z.leb_spec (retryCount - 1) 0); [lia|].
    destruct (IH (retryCount - 1) (S i) ((t ++ [Goto url]) ++ [retry_note (err i)]))
      as (t' & Heq & Hg & Hs).
    + lia.
    + intros j Hj. replace (S i + j)%nat with (i + S j)%nat by lia.
      apply Hfail. lia.
    + exists t'. rewrite Heq. repeat split.
      * f_equal; lia.
      * rewrite Hg, !gotos_app. simpl. lia.
      * rewrite Hs, !stdout_app. simpl. now rewrite !app_nil_r.
Qed.

Lemma crawlSpellPage_run (tab : Tab) (url : jsstring) (t : trace) :
  crawlSpellPage tab url t
  = match tab_open tab with
    | Some e => (Throw e, t ++ [Log VERBOSE "Reading spell" None; NewPage])
    | None =>
        let (r, t1) :=
          retryLoop tab url RETRY_LIMIT 0
            (t ++ [Log VERBOSE "Reading spell" None; NewPage]) in
        (match tab_close tab with Some e => Throw e | None => r end,
         t1 ++ [ClosePage])
    end.
Proof.
  unfold crawlSpellPage, try_finally, bind, log, emit, settle, throw, ret.
  rewrite <- app_assoc. cbn [app].
  destruct (tab_open tab); [reflexivity|].
  destruct (retryLoop _ _ _ _ _) as [r t1].
  destruct (tab_close tab); reflexivity.
Qed.

(** The loop under [n] failed attempts followed by a load that succeeds
    on a page with a heading. *)
Lemma retryLoop_succeeds (tab : Tab) (url : jsstring) (n : nat)
      (retryCount : Z) (t : trace) (id : jsstring) (h : Element)
      (rest : list Element) :
  Z.of_nat n < retryCount ->
  (forall j, (j < n)%nat -> exists e, fails tab url j e) ->
  tab_goto tab n = None ->
  spellId url = Ok id ->
  doc_query (tab_document tab n) SelHeading = Ok (h :: rest) ->
  exists t',
    retryLoop tab url retryCount 0 t
    = (Ok (Some (recordOf id (trim (textContent h)) (tab_document tab n))), t')
    /\ gotos t' = (gotos t + S n)%nat
    /\ stdout t' = stdout t.
Proof.
  intros Hn Hfail Hgoto Hid Hh.
  set (err := fun j => match fst (attempt tab url j []) with
                       | Throw e => e
                       | Ok _ => Error ""
                       end).
  destruct (@retryLoop_failures tab url err n retryCount 0%nat t Hn)
    as (t1 & Heq & Hg & Hs).
  { intros j Hj. simpl. unfold err. destruct (Hfail j Hj) as (e & He).
    rewrite (He []). exact He. }
  simpl in Heq. rewrite Heq, retryLoop_step.
  destruct (Z.ltb_spec 0 (retryCount - Z.of_nat n)); [|lia].
  destruct (@attempt_ok tab url n t1 id h rest Hgoto Hid Hh) as (l & -> & Hl & _).
  eexists. split; [reflexivity|]. split.
  - rewrite gotos_app. simpl. rewrite (logs_no_goto Hl). lia.
  - rewrite stdout_app. simpl. rewrite Hs.
    rewrite (@no_stdout l), app_nil_r; auto.
    eapply forallb_weaken; [apply log_not_stdout | exact Hl].
Qed.

(** The loop when every attempt fails: as many loads as [retryCount],
    then the error of the last attempt. *)
Lemma retryLoop_exhausts (tab : Tab) (url : jsstring) (n : nat) (t : trace) :
  (forall j, (j <= n)%nat -> exists e, fails tab url j e) ->
  exists e t',
    retryLoop tab url (Z.of_nat (S n)) 0 t = (Throw e, t')
    /\ fails tab url n e
    /\ gotos t' = (gotos t + S n)%nat
    /\ stdout t' = stdout t.
Proof.
  intros Hfail.
  set (err := fun j => match fst (attempt tab url j []) with
                       | Throw e => e
                       | Ok _ => Error ""
                       end).
  assert (Herr : forall j, (j <= n)%nat -> fails tab url j (err j)).
  { intros j Hj. unfold err. destruct (Hfail j Hj) as (e & He).
    rewrite (He []). exact He. }
  destruct (@retryLoop_failures tab url err n (Z.of_nat (S n)) 0%nat t)
    as (t1 & Heq & Hg & Hs); [lia | intros j Hj; apply Herr; simpl; lia |].
  simpl plus in Heq. rewrite Heq, retryLoop_step.
  destruct (Z.ltb_spec 0 (Z.of_nat (S n) - Z.of_nat n)); [|lia].
  rewrite (Herr n (le_n n) t1).
  destruct (Z.leb_spec (Z.of_nat (S n) - Z.of_nat n - 1) 0); [|lia].
  exists (err n). eexists. split; [reflexivity|]. repeat split.
  - apply Herr. lia.
  - rewrite !gotos_app. simpl. lia.
  - rewrite !stdout_app. simpl. now rewrite Hs, !app_nil_r.
Qed.

(* ===================================================================== *)
(** * The detail fetcher *)
(* ===================================================================== *)

(** The fetcher is not always as the specification words it.  In a tab
    whose [close] fails the page loads at the first try and is read, and
    the call throws the error of [close]: no record comes back.  And where
    no load succeeds in such a tab, the error thrown is that of [close],
    not the last cause. *)
Lemma close_failure_breaks_fetch :
  crawlSpellPage stickyTab flyUrl []
  = (Throw closeError, snd (crawlSpellPage stickyTab flyUrl []))
  /\ ~ fetches_as_specified stickyTab flyUrl
  /\ crawlSpellPage deadStickyTab flyUrl []
     = (Throw closeError, snd (crawlSpellPage deadStickyTab flyUrl []))
  /\ ~ fetches_as_specified deadStickyTab flyUrl.
Proof.
  split; [vm_compute; reflexivity|]. split.
  - intros [_ H].
    assert (Hk : (0 < Z.to_nat RETRY_LIMIT)%nat) by (vm_compute; lia).
    assert (H0 : forall i, (i < 0)%nat -> tab_goto stickyTab i <> None)
      by (intros i Hi; lia).
    destruct (H 0%nat (js "2589") (node " Fly " None) [] Hk H0
                eq_refl eq_refl eq_refl) as (s & t' & Heq & _).
    vm_compute in Heq. discriminate.
  - split; [vm_compute; reflexivity|].
    intros [H _].
    assert (Hall : forall i, (i < Z.to_nat RETRY_LIMIT)%nat ->
                             tab_goto deadStickyTab i <> None)
      by (intros i _; discriminate).
    destruct (H Hall) as (e & t' & Heq & He & _).
    vm_compute in Heq, He. inversion He; subst e. discriminate.
Qed.

(** C2, amended.  A call whose [newPage] fails loads nothing and throws
    that error.  In a tab that opened: when every [page.goto] fails,
    [crawlSpellPage] makes exactly [RETRY_LIMIT] loads and then throws the
    error of the last one; when the attempts before the [k+1]-th fail and
    that one loads a page it can name, it makes exactly [k+1] loads and
    returns the record of that page.  In both cases a [page.close()] that
    fails comes in between: the call then throws the error of [close]
    instead, after the same loads. *)
Theorem crawlSpellPage_attempts (tab : Tab) (url : jsstring) (t : trace) :
  (forall e,
      tab_open tab = Some e ->
      exists t', crawlSpellPage tab url t = (Throw e, t') /\ gotos t' = gotos t)
  /\ (tab_open tab = None ->
      ((forall i, (i < Z.to_nat RETRY_LIMIT)%nat -> tab_goto tab i <> None) ->
       exists e t',
         crawlSpellPage tab url t = (after_close tab (Throw e), t')
         /\ tab_goto tab (Z.to_nat RETRY_LIMIT - 1) = Some e
         /\ gotos t' = (gotos t + Z.to_nat RETRY_LIMIT)%nat)
      /\ (forall (k : nat) (id : jsstring) (h : Element) (rest : list Element),
            (k < Z.to_nat RETRY_LIMIT)%nat ->
            (forall i, (i < k)%nat -> exists e, fails tab url i e) ->
            tab_goto tab k = None ->
            spellId url = Ok id ->
            doc_query (tab_document tab k) SelHeading = Ok (h :: rest) ->
            exists t',
              crawlSpellPage tab url t
              = (after_close tab
                   (Ok (Some (recordOf id (trim (textContent h))
                                (tab_document tab k)))),
                 t')
              /\ gotos t' = (gotos t + S k)%nat)).
Proof.
  split.
  { intros e Hopen. rewrite crawlSpellPage_run, Hopen.
    eexists. split; [reflexivity|]. rewrite gotos_app. simpl. lia. }
  intros Hopen.
  assert (Hrun : forall r t1,
            retryLoop tab url RETRY_LIMIT 0
              (t ++ [Log VERBOSE "Reading spell" None; NewPage]) = (r, t1) ->
            crawlSpellPage tab url t = (after_close tab r, t1 ++ [ClosePage])).
  { intros r t1 Hr. rewrite crawlSpellPage_run, Hopen, Hr. reflexivity. }
  assert (Hload : forall i, tab_goto tab i <> None -> exists e, fails tab url i e).
  { intros i Hi. destruct (tab_goto tab i) as [e|] eqn:He; [|contradiction].
    exists e. now apply goto_fails. }
  split.
  - intros Hfail.
    destruct (@retryLoop_exhausts tab url 9
                (t ++ [Log VERBOSE "Reading spell" None; NewPage]))
      as (e & t' & Heq & He & Hg & _).
    { intros j Hj. apply Hload, Hfail. change (Z.to_nat RETRY_LIMIT) with 10%nat. lia. }
    exists e, (t' ++ [ClosePage]).
    change (Z.of_nat 10) with RETRY_LIMIT in Heq. rewrite (Hrun _ _ Heq).
    repeat split; auto.
    + change (Z.to_nat RETRY_LIMIT - 1)%nat with 9%nat.
      specialize (He []).
      destruct (tab_goto tab 9) as [e9|] eqn:H9.
      * rewrite (attempt_goto_fails url [] H9) in He. congruence.
      * exfalso. apply (Hfail 9%nat); [change (Z.to_nat RETRY_LIMIT) with 10%nat; lia | exact H9].
    + rewrite gotos_app, Hg, gotos_app. simpl. lia.
  - intros k id h rest Hk Hfail Hgoto Hid Hh.
    destruct (@retryLoop_succeeds tab url k RETRY_LIMIT
                (t ++ [Log VERBOSE "Reading spell" None; NewPage]) id h rest)
      as (t' & Heq & Hg & _); auto.
    { change (Z.to_nat RETRY_LIMIT) with 10%nat in Hk. unfold RETRY_LIMIT. lia. }
    exists (t' ++ [ClosePage]). rewrite (Hrun _ _ Heq).
    split; auto. rewrite gotos_app, Hg, gotos_app. simpl. lia.
Qed.

(** The same on samples: a tab whose page never loads, one whose page
    loads at the third try, and one whose page loads at once and whose
    [close] fails. *)
Lemma crawlSpellPage_attempts_witness :
  (exists e t',
     crawlSpellPage deadTab flyUrl [] = (after_close deadTab (Throw e), t')
     /\ tab_goto deadTab (Z.to_nat RETRY_LIMIT - 1) = Some e
     /\ gotos t' = (gotos [] + Z.to_nat RETRY_LIMIT)%nat)
  /\ (exists t',
        crawlSpellPage slowTab flyUrl []
        = (after_close slowTab
             (Ok (Some (recordOf (js "2589") (trim (textContent (node " Fly " None)))
                          (tab_document slowTab 2)))), t')
        /\ gotos t' = (gotos [] + 3)%nat)
  /\ (exists t',
        crawlSpellPage stickyTab flyUrl []
        = (after_close stickyTab
             (Ok (Some (recordOf (js "2589") (trim (textContent (node " Fly " None)))
                          (tab_document stickyTab 0)))), t')
        /\ gotos t' = (gotos [] + 1)%nat).
Proof.
  split; [|split].
  - apply (proj2 (@crawlSpellPage_attempts deadTab flyUrl []) eq_refl).
    intros i _. discriminate.
  - apply (proj2 (proj2 (@crawlSpellPage_attempts slowTab flyUrl []) eq_refl)
             2%nat (js "2589") (node " Fly " None) []).
    + vm_compute. lia.
    + intros i Hi. exists timeout. apply goto_fails.
      destruct i as [|[|i]]; [reflexivity | reflexivity | lia].
    + reflexivity.
    + reflexivity.
    + reflexivity.
  - apply (proj2 (proj2 (@crawlSpellPage_attempts stickyTab flyUrl []) eq_refl)
             0%nat (js "2589") (node " Fly " None) []).
    + vm_compute. lia.
    + intros i Hi. lia.
    + reflexivity.
    + reflexivity.
    + reflexivity.
Defined.

(* ===================================================================== *)
(** * The field extractors *)
(* ===================================================================== *)

(** C3.  Every extractor but [readName] is guarded: whatever its access
    throws, it returns its default ([null], or the empty list) after
    logging a warning with the field and the message.  And an attempt
    whose page loads and has a name builds the record all the same, each
    guarded field at its value or at its default, with one warning for
    each field that failed. *)
Theorem extractors_degrade (tab : Tab) (url : jsstring) (i : nat) (t : trace)
        (id : jsstring) (h : Element) (rest : list Element) :
  tab_goto tab i = None ->
  spellId url = Ok id ->
  doc_query (tab_document tab i) SelHeading = Ok (h :: rest) ->
  extractors_guarded
  /\ exists t',
      attempt tab url i t
      = (Ok (recordOf id (trim (textContent h)) (tab_document tab i)), t')
      /\ warnings t'
         = warnings t ++ warnings (fieldWarnings (tab_document tab i)).
Proof.
  intros Hgoto Hid Hh. split; [apply extractors_are_guarded|].
  destruct (@attempt_ok tab url i t id h rest Hgoto Hid Hh) as (l & Heq & _ & Hw).
  eexists. split; [exact Heq|].
  rewrite warnings_app. cbn [warnings]. now rewrite Hw.
Qed.

(** The same on a sample: on [barePage] every guarded access fails, six of them
    on a protocol error, and the record holds the defaults. *)
Lemma extractors_degrade_witness :
  extractors_guarded
  /\ exists t',
      attempt goodTab flyUrl 0 []
      = (Ok (recordOf (js "2589") (trim (textContent (node " Fly " None)))
               (tab_document goodTab 0)), t')
      /\ warnings t'
         = warnings [] ++ warnings (fieldWarnings (tab_document goodTab 0)).
Proof.
  exact (@extractors_degrade goodTab flyUrl 0 [] (js "2589")
           (node " Fly " None) [] eq_refl eq_refl eq_refl).
Defined.



(* ===================================================================== *)
(** * What a returned record is *)
(* ===================================================================== *)

Lemma spellId_fails (tab : Tab) (url : jsstring) (i : nat) (e : error) :
  tab_goto tab i = None -> spellId url = Throw e -> fails tab url i e.
Proof.
  intros Hgoto Hid t. unfold attempt. rewrite Hgoto, Hid. reflexivity.
Qed.

(** An attempt that returns a record had a page that loaded, a url with
    an id and a page with a heading, and the record is the one of that
    page. *)
Lemma attempt_inv (tab : Tab) (url : jsstring) (i : nat) (t t' : trace)
      (s : Spell.t) :
  attempt tab url i t = (Ok s, t') ->
  exists id h rest,
    tab_goto tab i = None
    /\ spellId url = Ok id
    /\ doc_query (tab_document tab i) SelHeading = Ok (h :: rest)
    /\ s = recordOf id (trim (textContent h)) (tab_document tab i).
Proof.
  intros H.
  destruct (tab_goto tab i) as [e|] eqn:Hgoto.
  { rewrite (attempt_goto_fails url t Hgoto) in H. discriminate. }
  destruct (spellId url) as [id|e] eqn:Hid.
  2:{ rewrite (spellId_fails Hgoto Hid t) in H. discriminate. }
  destruct (doc_query (tab_document tab i) SelHeading) as [[|h rest]|e] eqn:Hh.
  - rewrite (@name_fails tab url i id (no_match SelHeading) Hgoto Hid) in H; [discriminate|].
    unfold outcome. rewrite readName_throws, Hh. reflexivity.
  - destruct (@attempt_ok tab url i t id h rest Hgoto Hid Hh) as (l & Heq & _).
    rewrite Heq in H. inversion H; subst. eauto 10.
  - rewrite (@name_fails tab url i id e Hgoto Hid) in H; [discriminate|].
    unfold outcome. rewrite readName_throws, Hh. reflexivity.
Qed.

Lemma retryLoop_inv (tab : Tab) (url : jsstring) (s : Spell.t) (t' : trace) :
  forall (n : nat) (retryCount : Z) (i : nat) (t : trace),
    (Z.to_nat retryCount <= n)%nat ->
    retryLoop tab url retryCount i t = (Ok (Some s), t') ->
    exists j t0 t1, attempt tab url j t0 = (Ok s, t1).
Proof.
  induction n as [|n IH]; intros retryCount i t Hn H;
    rewrite retryLoop_step in H;
    destruct (Z.ltb_spec 0 retryCount); try lia; try discriminate.
  destruct (attempt tab url i t) as [[s0|e] t1] eqn:Ha.
  - inversion H; subst. eauto.
  - destruct (Z.leb_spec (retryCount - 1) 0); [discriminate|].
    eapply IH; [|exact H]. lia.
Qed.

(** A record [crawlSpellPage] returns is the record of one of the pages
    the tab showed. *)
Lemma crawlSpellPage_inv (tab : Tab) (url : jsstring) (t t' : trace)
      (s : Spell.t) :
  crawlSpellPage tab url t = (Ok (Some s), t') ->
  exists i id h rest,
    spellId url = Ok id
    /\ doc_query (tab_document tab i) SelHeading = Ok (h :: rest)
    /\ s = recordOf id (trim (textContent h)) (tab_document tab i).
Proof.
  rewrite crawlSpellPage_run. destruct (tab_open tab); [discriminate|].
  destruct (retryLoop _ _ _ _ _) as [r t1] eqn:Hr.
  destruct (tab_close tab); [discriminate|].
  intros H. inversion H; subst.
  apply (@retryLoop_inv tab url s t1 _ _ _ _ (le_n _)) in Hr.
  destruct Hr as (j & t0 & t2 & Ha).
  apply attempt_inv in Ha. destruct Ha as (id & h & rest & _ & Hid & Hh & ->).
  eauto 10.
Qed.

(** [crawlSpellPage] never returns [undefined]. *)
Lemma retryLoop_defined (tab : Tab) (url : jsstring) :
  forall (n : nat) (retryCount : Z) (i : nat) (t t' : trace),
    (Z.to_nat retryCount <= n)%nat -> 0 < retryCount ->
    retryLoop tab url retryCount i t <> (Ok None, t').
Proof.
  induction n as [|n IH]; intros retryCount i t t' Hn Hpos H; [lia|].
  rewrite retryLoop_step in H.
  destruct (Z.ltb_spec 0 retryCount); [|lia].
  destruct (attempt tab url i t) as [[s0|e] t1]; [discriminate|].
  destruct (Z.leb_spec (retryCount - 1) 0); [discriminate|].
  eapply IH; [| |exact H]; lia.
Qed.

Lemma crawlSpellPage_defined (tab : Tab) (url : jsstring) (t t' : trace) :
  crawlSpellPage tab url t <> (Ok None, t').
Proof.
  rewrite crawlSpellPage_run. destruct (tab_open tab); [discriminate|].
  destruct (retryLoop _ _ _ _ _) as [r t1] eqn:Hr.
  destruct (tab_close tab); [discriminate|].
  intros H. inversion H; subst.
  eapply retryLoop_defined; [apply le_n | | exact Hr]. reflexivity.
Qed.

(* ===================================================================== *)
(** * The identifier *)
(* ===================================================================== *)

(** C6.  The [id] of a record is a function of the url alone: two calls on
    the same url, whatever the tabs show and whatever the trace, return
    records with the same [id], which is [spellId url]: the run of digits
    the url ends in, before at most one slash. *)
Theorem id_from_reference_alone (url : jsstring) (tab1 tab2 : Tab)
        (t1 t2 t1' t2' : trace) (s1 s2 : Spell.t) :
  crawlSpellPage tab1 url t1 = (Ok (Some s1), t1') ->
  crawlSpellPage tab2 url t2 = (Ok (Some s2), t2') ->
  spellId url = Ok (Spell.id s1)
  /\ Spell.id s2 = Spell.id s1
  /\ exists pre suf,
      url = pre ++ Spell.id s1 ++ suf
      /\ all isDigit (Spell.id s1) /\ Spell.id s1 <> []
      /\ (suf = [] \/ suf = [47%N])
      /\ (forall pre' c, pre = pre' ++ [c] -> isDigit c = false).
Proof.
  intros H1 H2.
  apply crawlSpellPage_inv in H1. destruct H1 as (i1 & id1 & h1 & r1 & Hid1 & _ & ->).
  apply crawlSpellPage_inv in H2. destruct H2 as (i2 & id2 & h2 & r2 & Hid2 & _ & ->).
  cbn [recordOf Spell.id]. rewrite Hid1 in Hid2. inversion Hid2; subst id2.
  repeat split; auto.
  unfold spellId in Hid1.
  destruct (exec re_trailingId url) as [m|] eqn:Hm; [|discriminate].
  inversion Hid1; subst id1. apply exec_trailingId. exact Hm.
Qed.

(** The same on samples: one url on a page that holds the fields and on a
    bare one. *)
Lemma id_from_reference_alone_witness :
  spellId flyUrl = Ok (Spell.id strayRecord)
  /\ Spell.id (recordOf (js "2589") (js "Fly") barePage) = Spell.id strayRecord
  /\ exists pre suf,
      flyUrl = pre ++ Spell.id strayRecord ++ suf
      /\ all isDigit (Spell.id strayRecord) /\ Spell.id strayRecord <> []
      /\ (suf = [] \/ suf = [47%N])
      /\ (forall pre' c, pre = pre' ++ [c] -> isDigit c = false).
Proof.
  refine (@id_from_reference_alone flyUrl strayTab goodTab [] []
            (snd (crawlSpellPage strayTab flyUrl []))
            (snd (crawlSpellPage goodTab flyUrl []))
            strayRecord (recordOf (js "2589") (js "Fly") barePage) _ _);
    vm_compute; reflexivity.
Defined.

(* ===================================================================== *)
(** * The patterns, both ways *)
(* ===================================================================== *)

Lemma scan_here (r : regex) (input s : jsstring) (m : list jsstring) :
  rmatch input r s []
    (fun s' caps => Some (firstn (length s - length s') s :: caps)) = Some m ->
  scan r input s = Some m.
Proof. intros H. destruct s; cbn [scan]; rewrite H; reflexivity. Qed.

(** Where the pattern can match, [scan] finds a match. *)
Lemma scan_finds (r : regex) (input pre s0 s' : jsstring) (cs : list jsstring) :
  den input r s0 s' cs -> scan r input (pre ++ s0) <> None.
Proof.
  intros Hd. induction pre as [|c pre IH]; cbn [app].
  - destruct (rmatch input r s0 []
                (fun s' caps => Some (firstn (length s0 - length s') s0 :: caps)))
      as [m|] eqn:Hm.
    + rewrite (scan_here Hm). discriminate.
    + exfalso. eapply rmatch_complete in Hd; [apply Hd; exact Hm|].
      intros cs'. discriminate.
  - cbn [scan]. destruct (rmatch input r (c :: pre ++ s0) [] _);
      [discriminate | exact IH].
Qed.

Lemma space_not_digit (c : jschar) : isSpace c = true -> isDigit c = false.
Proof.
  intros H. destruct (isDigit c) eqn:E; auto.
  apply digit_cases in E. simpl in E.
  repeat (destruct E as [<- | E]; [vm_compute in H; discriminate|]).
  contradiction.
Qed.

(** A text splits in one way only into a run of [P] and a rest that does
    not begin with [P]. *)
Lemma run_split_unique (P : jschar -> bool) :
  forall u u' a a' : jsstring,
    all P u -> all P u' ->
    (forall c r, a = c :: r -> P c = false) ->
    (forall c r, a' = c :: r -> P c = false) ->
    u ++ a = u' ++ a' -> u = u' /\ a = a'.
Proof.
  induction u as [|x u IH]; intros [|x' u'] a a' Hu Hu' Ha Ha' H; cbn [app] in H.
  - auto.
  - inversion Hu' as [|? ? Hx _]; subst.
    rewrite (Ha _ _ eq_refl) in Hx. discriminate.
  - inversion Hu as [|? ? Hx _]; subst.
    rewrite (Ha' _ _ eq_refl) in Hx. discriminate.
  - inversion H; subst. inversion Hu; inversion Hu'; subst.
    destruct (IH u' a a') as [-> ->]; auto.
Qed.

(** The same from the end of the text. *)
Lemma tail_split_unique (P : jschar -> bool) (a a' u u' : jsstring) :
  all P u -> all P u' ->
  (forall r c, a = r ++ [c] -> P c = false) ->
  (forall r c, a' = r ++ [c] -> P c = false) ->
  a ++ u = a' ++ u' -> a = a' /\ u = u'.
Proof.
  intros Hu Hu' Ha Ha' H.
  apply (f_equal (@rev jschar)) in H. rewrite !rev_app_distr in H.
  apply run_split_unique with (P := P) in H.
  - destruct H as [H1 H2].
    apply (f_equal (@rev jschar)) in H1, H2.
    rewrite !rev_involutive in H1, H2. auto.
  - apply Forall_rev, Hu.
  - apply Forall_rev, Hu'.
  - intros c r Hr. apply (Ha (rev r) c).
    rewrite <- (rev_involutive a), Hr. reflexivity.
  - intros c r Hr. apply (Ha' (rev r) c).
    rewrite <- (rev_involutive a'), Hr. reflexivity.
Qed.

(** What [parseClassSpellLevel] accepts has a level. *)
Lemma parseClassSpellLevel_some (text : jsstring) (x : ClassSpellLevel.t) :
  parseClassSpellLevel text = Some x ->
  exists c w digits,
    levelled text c w digits
    /\ x = ClassSpellLevel.make c (toDouble (decimalValue digits)).
Proof.
  unfold parseClassSpellLevel, levelled.
  destruct (exec re_classLevel text) as [m|] eqn:Hm; [|discriminate].
  intros H. inversion H; subst; clear H.
  destruct (exec_classLevel Hm) as (w & Ht & Hc & Hw & Hd & Hne).
  exists (group m 1), w, (group m 2). repeat split; auto.
  now rewrite (parseInt_decimal Hd Hne).
Qed.

(** A text with a level is accepted, and split at its last white space. *)
Lemma parseClassSpellLevel_levelled (text c : jsstring) (w : jschar)
      (digits : jsstring) :
  levelled text c w digits ->
  parseClassSpellLevel text
  = Some (ClassSpellLevel.make c (toDouble (decimalValue digits))).
Proof.
  unfold parseClassSpellLevel.
  intros (-> & Hc & Hw & Hd & Hne).
  destruct (exec re_classLevel (c ++ w :: digits)) as [m|] eqn:Hm.
  - destruct (exec_classLevel Hm) as (w' & Ht & Hc' & Hw' & Hd' & Hne').
    change (w :: digits) with ([w] ++ digits) in Ht.
    change (w' :: group m 2) with ([w'] ++ group m 2) in Ht.
    rewrite !app_assoc in Ht.
    apply tail_split_unique with (P := isDigit) in Ht; auto.
    + destruct Ht as [H1 H2]. apply app_inj_tail in H1. destruct H1 as [H1 _].
      rewrite <- H1, <- H2, (parseInt_decimal Hd Hne). reflexivity.
    + intros r x Hr. apply app_inj_tail in Hr. destruct Hr as [_ <-].
      now apply space_not_digit.
    + intros r x Hr. apply app_inj_tail in Hr. destruct Hr as [_ <-].
      now apply space_not_digit.
  - exfalso. unfold exec in Hm.
    refine (@scan_finds re_classLevel (c ++ w :: digits) [] (c ++ w :: digits)
              [] [c; digits] _ Hm).
    unfold re_classLevel; cbn [den].
    exists (c ++ w :: digits), [], [c; digits]. split; [auto|]. split; [|reflexivity].
    exists (w :: digits), [c], [digits]. split; [|split; [|reflexivity]].
    { exists []. split; [split; [eauto | reflexivity]|].
      cbn [app]. f_equal. f_equal. symmetry. apply firstn_matched. }
    exists digits, [], [digits]. split; [|split; [|reflexivity]].
    { split; eauto. }
    exists [], [digits], []. split; [|split; [|reflexivity]].
    { exists []. split; [split; [|reflexivity]|].
      - exists digits. rewrite app_nil_r. auto.
      - cbn [app length]. rewrite Nat.sub_0_r, firstn_all. reflexivity. }
    auto.
Qed.

(* ===================================================================== *)
(** * The level entries *)
(* ===================================================================== *)

Lemma parseClassSpellLevel_entry (text : jsstring) :
  class_entry text (parseClassSpellLevel text).
Proof.
  unfold class_entry. destruct (parseClassSpellLevel text) as [x|] eqn:Hx.
  - right. apply parseClassSpellLevel_some in Hx.
    destruct Hx as (c & w & digits & Hl & ->).
    exists c, w, digits. split; [exact Hl|]. split; [reflexivity|].
    apply toDouble_counting, decimalValue_nonneg. apply Hl.
  - left. split; [reflexivity|]. intros c w digits Hl.
    rewrite (parseClassSpellLevel_levelled Hl) in Hx. discriminate.
Qed.


Lemma outcome_readClassLevels_try (page : Document) :
  outcome (readClassLevels_try page)
  = match doc_query page (SelLinkTo "/classes/") with
    | Ok links => Ok (map (fun e => parseClassSpellLevel (textContent e)) links)
    | Throw e => Throw e
    end.
Proof.
  unfold outcome, readClassLevels_try, page_SSeval, bind, lift, log, emit, ret.
  destruct (doc_query page (SelLinkTo "/classes/")) as [links|e]; cbn; auto.
  now rewrite map_map.
Qed.

Lemma domainLevelOf_entry (e : Element) (t t' : trace) (d : DomainSpellLevel.t) :
  domainLevelOf e t = (Ok d, t') -> domain_entry e d /\ readable e.
Proof.
  unfold domainLevelOf, evaluate, bind, lift, throw, ret, nextSiblingText,
    domain_entry, readable.
  destruct (detached e); [discriminate|].
  destruct (nextSibling e) as [text|]; [|discriminate].
  intros H. inversion H; subst. split; [eauto | split; [reflexivity | discriminate]].
Qed.

Lemma domainLevelOf_readable (e : Element) (t : trace) :
  readable e -> exists d, domainLevelOf e t = (Ok d, t).
Proof.
  unfold domainLevelOf, evaluate, bind, lift, throw, ret, nextSiblingText,
    readable.
  intros [-> Hsib]. destruct (nextSibling e) as [text|]; [|contradiction].
  eexists. reflexivity.
Qed.

Lemma Promise_all_domainLevels (links : list Element) :
  forall (t t' : trace) (ds : list DomainSpellLevel.t),
    Promise_all (map domainLevelOf links) t = (Ok ds, t') ->
    Forall2 domain_entry links ds /\ Forall readable links.
Proof.
  induction links as [|e links IH]; intros t t' ds H; simpl in H.
  - inversion H. split; constructor.
  - unfold bind in H.
    destruct (domainLevelOf e t) as [[d|err] t1] eqn:Hd; [|discriminate].
    fold (@bind (list DomainSpellLevel.t) (list DomainSpellLevel.t)) in H.
    destruct (Promise_all (map domainLevelOf links) t1) as [[l|err] t2] eqn:Hl;
      [|discriminate].
    inversion H; subst. apply domainLevelOf_entry in Hd.
    apply IH in Hl. split; constructor; tauto.
Qed.

Lemma Promise_all_readable (links : list Element) :
  Forall readable links ->
  forall t, exists ds, Promise_all (map domainLevelOf links) t = (Ok ds, t).
Proof.
  induction 1 as [|e links He _ IH]; intros t; cbn [map Promise_all].
  - exists []. reflexivity.
  - destruct (domainLevelOf_readable t He) as (d & Hd).
    destruct (IH t) as (ds & Hds).
    exists (d :: ds). unfold bind at 1. rewrite Hd.
    unfold bind at 1. rewrite Hds. reflexivity.
Qed.

(** What [readDomainLevels] awaits: the entries of the links when every
    link is readable, a rejection otherwise. *)
Lemma outcome_readDomainLevels_try (page : Document) :
  match doc_query page (SelLinkTo "/spells/domains/") with
  | Ok links =>
      match outcome (readDomainLevels_try page) with
      | Ok ds => Forall2 domain_entry links ds /\ Forall readable links
      | Throw _ => ~ Forall readable links
      end
  | Throw _ => exists e, outcome (readDomainLevels_try page) = Throw e
  end.
Proof.
  unfold outcome, readDomainLevels_try, page_SS, bind, lift.
  destruct (doc_query page (SelLinkTo "/spells/domains/")) as [links|e];
    [|eexists; reflexivity].
  destruct (Promise_all (map domainLevelOf links) []) as [[l|err] t1] eqn:Hl; cbn.
  - eapply Promise_all_domainLevels; eauto.
  - intros Hall. destruct (Promise_all_readable Hall []) as (ds & Hds).
    congruence.
Qed.

(** A record [crawlSpellPage] returns is read from the page of a load
    that succeeded, one of the [RETRY_LIMIT] loads of the call. *)
Lemma retryLoop_loaded (tab : Tab) (url : jsstring) (s : Spell.t) (t' : trace) :
  forall (n : nat) (retryCount : Z) (i : nat) (t : trace),
    (Z.to_nat retryCount <= n)%nat ->
    retryLoop tab url retryCount i t = (Ok (Some s), t') ->
    exists j t0 t1,
      (i <= j < i + Z.to_nat retryCount)%nat
      /\ attempt tab url j t0 = (Ok s, t1).
Proof.
  induction n as [|n IH]; intros retryCount i t Hn H;
    rewrite retryLoop_step in H;
    destruct (Z.ltb_spec 0 retryCount); try lia; try discriminate.
  destruct (attempt tab url i t) as [[s0|e] t1] eqn:Ha.
  - inversion H; subst. exists i, t, t'. split; [lia | exact Ha].
  - destruct (Z.leb_spec (retryCount - 1) 0); [discriminate|].
    apply IH in H; [|lia]. destruct H as (j & t0 & t2 & Hj & Hatt).
    exists j, t0, t2. split; [lia | exact Hatt].
Qed.

Lemma crawlSpellPage_loaded (tab : Tab) (url : jsstring) (t t' : trace)
      (s : Spell.t) :
  crawlSpellPage tab url t = (Ok (Some s), t') ->
  exists i id name,
    (i < Z.to_nat RETRY_LIMIT)%nat
    /\ tab_goto tab i = None
    /\ s = recordOf id name (tab_document tab i).
Proof.
  rewrite crawlSpellPage_run. destruct (tab_open tab); [discriminate|].
  destruct (retryLoop _ _ _ _ _) as [r t1] eqn:Hr.
  destruct (tab_close tab); [discriminate|].
  intros H. inversion H; subst.
  apply (@retryLoop_loaded tab url s t1 _ _ _ _ (le_n _)) in Hr.
  destruct Hr as (j & t0 & t2 & Hj & Ha).
  apply attempt_inv in Ha. destruct Ha as (id & h & rest & Hg & _ & _ & ->).
  exists j, id, (trim (textContent h)). split; [lia | auto].
Qed.

(** The level entries are not always pairs: a class link without a level gives a
    [null] entry, and a domain link that no number follows gives the
    level [NaN]. *)
Lemma levels_not_well_formed :
  crawlSpellPage strayTab flyUrl []
  = (Ok (Some strayRecord), snd (crawlSpellPage strayTab flyUrl []))
  /\ ~ levels_well_formed strayRecord.
Proof.
  split; [vm_compute; reflexivity|].
  intros [Hc _]. cbn in Hc.
  inversion Hc as [|? ? _ Hc1]; subst. inversion Hc1 as [|? ? Hnull _]; subst.
  destruct Hnull as (c & z & Hnull). discriminate.
Qed.

(** C5, amended.  A record that [crawlSpellPage] returns is read from
    the page of a load that succeeded.  When the query for the class
    links of that page works, [classLevels] has one entry for each link,
    in the order of the links and with repetitions kept: [null] for a
    text without a level, else the name with the double of the number
    its trailing digits spell, a non-negative integer or [Infinity]; when
    the query fails, [classLevels] is empty.  When the query for the
    domain links works and every link is readable, [domainLevels] has one
    entry for each link, in order, with the text of the link and
    [parseInt] of the text after it, whatever that is; when the query
    fails or some link is not readable, [domainLevels] is empty. *)
Theorem level_entries (tab : Tab) (url : jsstring) (t t' : trace) (s : Spell.t) :
  crawlSpellPage tab url t = (Ok (Some s), t') ->
  exists i,
    (i < Z.to_nat RETRY_LIMIT)%nat
    /\ tab_goto tab i = None
    /\ (forall links,
          doc_query (tab_document tab i) (SelLinkTo "/classes/") = Ok links ->
          Spell.classLevels s
          = map (fun e => parseClassSpellLevel (textContent e)) links
          /\ Forall2 (fun e x => class_entry (textContent e) x)
                     links (Spell.classLevels s))
    /\ (forall e,
          doc_query (tab_document tab i) (SelLinkTo "/classes/") = Throw e ->
          Spell.classLevels s = [])
    /\ (forall links,
          doc_query (tab_document tab i) (SelLinkTo "/spells/domains/")
          = Ok links ->
          (Forall readable links ->
           Forall2 domain_entry links (Spell.domainLevels s))
          /\ (~ Forall readable links -> Spell.domainLevels s = []))
    /\ (forall e,
          doc_query (tab_document tab i) (SelLinkTo "/spells/domains/")
          = Throw e ->
          Spell.domainLevels s = []).
Proof.
  intros H. apply crawlSpellPage_loaded in H.
  destruct H as (i & id & name & Hi & Hgoto & ->).
  exists i. split; [exact Hi|]. split; [exact Hgoto|].
  cbn [recordOf Spell.classLevels Spell.domainLevels].
  rewrite outcome_readClassLevels_try.
  pose proof (outcome_readDomainLevels_try (tab_document tab i)) as Hdom.
  split; [|split; [|split]].
  - intros links Hq. rewrite Hq. cbn [or_default]. split; [reflexivity|].
    clear Hq. induction links as [|e links IH]; cbn [map]; constructor; auto.
    apply parseClassSpellLevel_entry.
  - intros e Hq. rewrite Hq. reflexivity.
  - intros links Hq. rewrite Hq in Hdom.
    destruct (outcome (readDomainLevels_try (tab_document tab i))) as [ds|e];
      cbn [or_default].
    + split; [intros _; apply Hdom | intros Hn; exfalso; apply Hn, Hdom].
    + split; [intros Hall; contradiction | reflexivity].
  - intros e Hq. rewrite Hq in Hdom. destruct Hdom as (e' & ->). reflexivity.
Qed.

(** The same on the sample page with a stray link: three class entries,
    the second [null], and one domain entry whose level is [NaN]. *)
Lemma level_entries_witness :
  exists i,
    (i < Z.to_nat RETRY_LIMIT)%nat
    /\ tab_goto strayTab i = None
    /\ (forall links,
          doc_query (tab_document strayTab i) (SelLinkTo "/classes/") = Ok links ->
          Spell.classLevels strayRecord
          = map (fun e => parseClassSpellLevel (textContent e)) links
          /\ Forall2 (fun e x => class_entry (textContent e) x)
                     links (Spell.classLevels strayRecord))
    /\ (forall e,
          doc_query (tab_document strayTab i) (SelLinkTo "/classes/") = Throw e ->
          Spell.classLevels strayRecord = [])
    /\ (forall links,
          doc_query (tab_document strayTab i) (SelLinkTo "/spells/domains/")
          = Ok links ->
          (Forall readable links ->
           Forall2 domain_entry links (Spell.domainLevels strayRecord))
          /\ (~ Forall readable links -> Spell.domainLevels strayRecord = []))
    /\ (forall e,
          doc_query (tab_document strayTab i) (SelLinkTo "/spells/domains/")
          = Throw e ->
          Spell.domainLevels strayRecord = []).
Proof.
  apply (@level_entries strayTab flyUrl []
           (snd (crawlSpellPage strayTab flyUrl [])) strayRecord).
  vm_compute. reflexivity.
Defined.

(* ===================================================================== *)
(** * Lemmas on the list paginator *)
(* ===================================================================== *)

Lemma jsstring_eqb_eq (a b : jsstring) : jsstring_eqb a b = true <-> a = b.
Proof.
  revert b. induction a as [|x a IH]; intros [|y b]; simpl;
    try (split; [discriminate | discriminate]); try tauto.
  rewrite andb_true_iff, N.eqb_eq, IH. split.
  - intros [-> ->]. reflexivity.
  - intros H. inversion H. auto.
Qed.

Lemma includes_In (l : list jsstring) (s : jsstring) :
  includes l s = true <-> In s l.
Proof.
  unfold includes. rewrite existsb_exists. split.
  - intros (x & Hx & Heq). apply jsstring_eqb_eq in Heq. now subst.
  - intros H. exists s. split; auto. now apply jsstring_eqb_eq.
Qed.

Arguments includes : simpl never.

(** The function [listing] decides the relation [listed]. *)
Lemma listing_listed (row : Element) (r : reference) :
  listing row = Some r <-> listed row r.
Proof.
  unfold listing, listed. split.
  - destruct (query row SelTh) as [[|th l]|e]; try discriminate.
    destruct (query row (SelCellLink 4)) as [[|cell l4]|e]; try discriminate.
    destruct (query row (SelCellLink 1)) as [[|a l1]|e]; try discriminate.
    destruct (includes RULEBOOKS (textContent cell)) eqn:Hin; [|discriminate].
    intros H. inversion H; subst. apply includes_In in Hin.
    repeat split; eauto.
  - intros (-> & (cell & l4 & -> & Hin) & (a & l1 & -> & <-)).
    apply includes_In in Hin. now rewrite Hin.
Qed.

(** [parseRow] logs nothing; it adds the reference of a listed row and
    adds nothing for any other row. *)
Lemma parseRow_run (row : Element) (spellUrls : list reference) (t : trace) :
  parseRow row spellUrls t
  = (match outcome (parseRow row []) with
     | Ok _ => Ok (spellUrls ++ match listing row with
                                | Some r => [r]
                                | None => []
                                end)
     | Throw e => Throw e
     end, t).
Proof.
  unfold outcome, listing, parseRow, elem_S, elem_Seval, eval_first, bind, lift,
    ret, throw.
  destruct (query row SelTh) as [[|th l]|e]; cbn; try now rewrite ?app_nil_r.
  destruct (query row (SelCellLink 4)) as [[|cell l4]|e]; cbn; auto.
  destruct (includes RULEBOOKS (textContent cell)); cbn.
  - destruct (query row (SelCellLink 1)) as [[|a l1]|e]; cbn; auto.
  - destruct (query row (SelCellLink 1)) as [[|a l1]|e]; cbn; now rewrite app_nil_r.
Qed.

Lemma listing_throws (row : Element) (e : error) :
  outcome (parseRow row []) = Throw e -> listing row = None.
Proof.
  unfold outcome, listing, parseRow, elem_S, elem_Seval, eval_first, bind, lift,
    ret, throw.
  destruct (query row SelTh) as [[|th l]|e']; cbn; auto.
  destruct (query row (SelCellLink 4)) as [[|cell l4]|e']; cbn; auto.
  destruct (includes RULEBOOKS (textContent cell)); cbn;
    destruct (query row (SelCellLink 1)) as [[|a l1]|e']; cbn; auto; discriminate.
Qed.

(** The row loop never throws: it collects the references of the listed
    rows and leaves one warning for each row whose parse throws. *)
Lemma eachRow_run (rows : list Element) :
  forall (spellUrls : list reference) (t : trace),
    eachRow rows spellUrls t
    = (Ok (spellUrls ++ references rows), t ++ rowWarnings rows).
Proof.
  induction rows as [|row rows IH]; intros spellUrls t; cbn [eachRow].
  - unfold ret, references, rowWarnings. cbn [flat_map]. now rewrite !app_nil_r.
  - unfold bind, try_catch. rewrite parseRow_run.
    unfold references, rowWarnings in *. cbn [flat_map].
    destruct (outcome (parseRow row [])) as [u|e] eqn:Hrow.
    + rewrite IH. cbn [app]. now rewrite <- app_assoc.
    + rewrite (listing_throws Hrow).
      unfold log_error, emit, ret, row_warning. rewrite IH.
      cbn [app]. now rewrite <- app_assoc.
Qed.

Lemma crawlSpellListPage_run (page : Document) (t : trace) :
  crawlSpellListPage page t
  = match doc_query page SelTableRows with
    | Ok rows =>
        (Ok (references rows),
         t ++ page_entered :: rowWarnings rows ++ [page_counted])
    | Throw e => (Throw e, t ++ [page_entered])
    end.
Proof.
  unfold crawlSpellListPage, page_SS, bind, lift, log, emit, ret.
  destruct (doc_query page SelTableRows) as [rows|e]; auto.
  rewrite eachRow_run. cbn [app]. now rewrite <- !app_assoc.
Qed.

Lemma warned_app (msg : string) (t l : trace) :
  warned msg (t ++ l) = warned msg t ++ warned msg l.
Proof.
  induction t as [|ev t IH]; simpl; auto.
  destruct ev as [[] m err| | | | | | |]; simpl; auto.
  destruct (String.eqb m msg); simpl; now rewrite IH.
Qed.

Lemma clicks_app (t l : trace) : clicks (t ++ l) = (clicks t + clicks l)%nat.
Proof.
  induction t as [|ev t IH]; simpl; auto. destruct ev; simpl; auto.
Qed.

(** The click loop leaves only when a click succeeds: what it returns
    comes after some number [k] of failed clicks and one that worked. *)
Lemma navigateNext_inv (tab : ListTab) (n : nat) :
  forall (fuel j : nat) (t t' : trace),
    navigateNext fuel tab n j t = Some t' ->
    exists k,
      list_navigate tab n (j + k) = None
      /\ (forall i, (i < k)%nat -> list_navigate tab n (j + i) <> None)
      /\ clicks t' = (clicks t + S k)%nat
      /\ length (warned "Navigation to next page failed, retrying." t')
         = (length (warned "Navigation to next page failed, retrying." t) + k)%nat
      /\ stdout t' = stdout t
      /\ warned "Error parsing spell table row." t'
         = warned "Error parsing spell table row." t.
Proof.
  induction fuel as [|fuel IH]; intros j t t' H; simpl in H; [discriminate|].
  destruct (list_navigate tab n j) as [e|] eqn:Hnav.
  - apply IH in H. destruct H as (k & Hk & Hlt & Hc & Hw & Hs & Hr).
    exists (S k). replace (j + S k)%nat with (S j + k)%nat by lia.
    split; auto. split; [|split; [|split; [|split]]].
    + intros i Hi. destruct i as [|i].
      * rewrite Nat.add_0_r, Hnav. discriminate.
      * replace (j + S i)%nat with (S j + i)%nat by lia. apply Hlt. lia.
    + rewrite Hc, clicks_app. simpl. lia.
    + rewrite Hw, warned_app, length_app. simpl. lia.
    + rewrite Hs, stdout_app. simpl. now rewrite app_nil_r.
    + rewrite Hr, warned_app. simpl. now rewrite app_nil_r.
  - inversion H; subst. exists O. rewrite Nat.add_0_r. split; auto.
    split; [intros i Hi; lia|]. split; [|split; [|split]].
    + rewrite clicks_app. simpl. lia.
    + rewrite warned_app. simpl. rewrite app_nil_r. lia.
    + rewrite stdout_app. simpl. now rewrite app_nil_r.
    + rewrite warned_app. simpl. now rewrite app_nil_r.
Qed.

(** However many clicks fail, the loop comes back once one succeeds. *)
Lemma navigateNext_retries (tab : ListTab) (n : nat) :
  forall (k fuel j : nat) (t : trace),
    (forall i, (i < k)%nat -> list_navigate tab n (j + i) <> None) ->
    list_navigate tab n (j + k) = None ->
    (k < fuel)%nat ->
    exists t', navigateNext fuel tab n j t = Some t'.
Proof.
  induction k as [|k IH]; intros fuel j t Hfail Hok Hfuel;
    (destruct fuel as [|fuel]; [lia|]); simpl.
  - rewrite Nat.add_0_r in Hok. rewrite Hok. eauto.
  - pose proof (Hfail O ltac:(lia)) as H0. rewrite Nat.add_0_r in H0.
    destruct (list_navigate tab n j) as [e|]; [|contradiction].
    apply IH; [| |lia].
    + intros i Hi. replace (S j + i)%nat with (j + S i)%nat by lia.
      apply Hfail. lia.
    + replace (S j + k)%nat with (j + S k)%nat by lia. exact Hok.
Qed.

(** While no click succeeds the loop does not come back. *)
Lemma navigateNext_stuck (tab : ListTab) (n : nat) :
  (forall j, list_navigate tab n j <> None) ->
  forall (fuel j : nat) (t : trace), navigateNext fuel tab n j t = None.
Proof.
  intros Hfail. induction fuel as [|fuel IH]; intros j t; simpl; auto.
  specialize (Hfail j). destruct (list_navigate tab n j); [apply IH | contradiction].
Qed.

Lemma warned_rowWarnings (rows : list Element) :
  warned "Error parsing spell table row." (rowWarnings rows) = parseErrors rows.
Proof.
  unfold rowWarnings, parseErrors.
  induction rows as [|row rows IH]; cbn [flat_map]; auto.
  rewrite warned_app, IH. destruct (outcome (parseRow row [])); reflexivity.
Qed.

Lemma stdout_rowWarnings (rows : list Element) : stdout (rowWarnings rows) = [].
Proof.
  unfold rowWarnings. induction rows as [|row rows IH]; cbn [flat_map]; auto.
  rewrite stdout_app, IH. destruct (outcome (parseRow row [])); reflexivity.
Qed.

Section Catalogue.

(** A list of [last + 1] pages whose queries work: page [n] shows the
    rows [rows n], every page but the last has a link to the next, and
    the click on page [n] succeeds at try [tries n]. *)
Variable tab : ListTab.
Variable last : nat.
Variable rows : nat -> list Element.
Variable tries : nat -> nat.

Hypothesis rows_ok :
  forall n, (n <= last)%nat ->
            doc_query (list_page tab n) SelTableRows = Ok (rows n).
Hypothesis next_ok :
  forall n, (n < last)%nat ->
            exists btn rest,
              doc_query (list_page tab n) SelNext = Ok (btn :: rest).
Hypothesis last_ok : doc_query (list_page tab last) SelNext = Ok [].
Hypothesis tries_ok :
  forall n, (n < last)%nat ->
            list_navigate tab n (tries n) = None
            /\ forall j, (j < tries n)%nat -> list_navigate tab n j <> None.

Lemma listLoop_pages (navFuel : nat) :
  (forall n, (n < last)%nat -> (tries n < navFuel)%nat) ->
  forall (m n fuel : nat) (spellUrls : list reference) (t : trace),
    (n + m)%nat = last -> (m < fuel)%nat ->
    exists t',
      listLoop fuel navFuel tab n spellUrls t
      = Some (Ok (spellUrls
                  ++ flat_map (fun i => references (rows i)) (seq n (S m))),
              t')
      /\ warned "Error parsing spell table row." t'
         = warned "Error parsing spell table row." t
           ++ flat_map (fun i => parseErrors (rows i)) (seq n (S m))
      /\ stdout t' = stdout t.
Proof.
  intros Hnav. induction m as [|m IH]; intros n fuel spellUrls t Hlast Hfuel;
    (destruct fuel as [|fuel]; [lia|]); cbn [listLoop].
  - rewrite Nat.add_0_r in Hlast. subst n.
    rewrite crawlSpellListPage_run, (rows_ok (le_n last)).
    unfold page_S, bind, lift, ret. rewrite last_ok. cbn [first_or_null].
    eexists. split; [|split].
    + cbn [seq flat_map]. now rewrite app_nil_r.
    + rewrite !warned_app. cbn [seq flat_map]. rewrite app_nil_r.
      change (page_entered :: rowWarnings (rows last) ++ [page_counted])
        with ([page_entered] ++ rowWarnings (rows last) ++ [page_counted]).
      rewrite !warned_app, warned_rowWarnings. cbn. now rewrite !app_nil_r.
    + rewrite !stdout_app.
      change (page_entered :: rowWarnings (rows last) ++ [page_counted])
        with ([page_entered] ++ rowWarnings (rows last) ++ [page_counted]).
      rewrite !stdout_app, stdout_rowWarnings. cbn. now rewrite !app_nil_r.
  - assert (Hn : (n < last)%nat) by lia.
    rewrite crawlSpellListPage_run, (@rows_ok n) by lia.
    unfold page_S, bind, lift, ret.
    destruct (next_ok Hn) as (btn & rest & ->). cbn [first_or_null].
    destruct (tries_ok Hn) as (Hok & Hfail).
    match goal with |- context [navigateNext navFuel tab n 0 ?t0] =>
      destruct (@navigateNext_retries tab n (tries n) navFuel 0%nat t0)
        as (t3 & Ht3); auto; try (apply Hnav; exact Hn);
      rewrite Ht3; apply navigateNext_inv in Ht3;
      destruct Ht3 as (k & _ & _ & _ & _ & Hs3 & Hr3)
    end.
    destruct (IH (S n) fuel (spellUrls ++ references (rows n)) t3)
      as (t' & Heq & Hw & Hs); [lia | lia |].
    exists t'. rewrite Heq. split; [|split].
    + cbn [seq flat_map]. now rewrite <- app_assoc.
    + rewrite Hw, Hr3. cbn [seq flat_map].
      rewrite !warned_app.
      change (page_entered :: rowWarnings (rows n) ++ [page_counted])
        with ([page_entered] ++ rowWarnings (rows n) ++ [page_counted]).
      rewrite !warned_app, warned_rowWarnings. cbn. now rewrite !app_nil_r, <- app_assoc.
    + rewrite Hs, Hs3. rewrite !stdout_app.
      change (page_entered :: rowWarnings (rows n) ++ [page_counted])
        with ([page_entered] ++ rowWarnings (rows n) ++ [page_counted]).
      rewrite !stdout_app, stdout_rowWarnings. cbn. now rewrite !app_nil_r.
Qed.

End Catalogue.

(* ===================================================================== *)
(** * The list paginator *)
(* ===================================================================== *)

(** C7.  On a list of [last + 1] pages whose tab opens and loads, where
    each page shows its rows and each page but the last a link to the
    next, and where each click succeeds at some try, the paginator
    returns, given fuel beyond the number of pages and of tries, exactly
    the references of the listed rows (not a header, rulebook in the
    allow-list), page after page and row after row.  A row whose parse
    throws adds nothing, leaves one warning, and the rows after it are
    still read. *)
Theorem paginator_returns_listed (tab : ListTab) (last : nat)
        (rows : nat -> list Element) (tries : nat -> nat) (fuel : nat)
        (t : trace) :
  list_open tab = None ->
  list_goto tab = None ->
  (forall n, (n <= last)%nat ->
             doc_query (list_page tab n) SelTableRows = Ok (rows n)) ->
  (forall n, (n < last)%nat ->
             exists btn rest,
               doc_query (list_page tab n) SelNext = Ok (btn :: rest)) ->
  doc_query (list_page tab last) SelNext = Ok [] ->
  (forall n, (n < last)%nat ->
             list_navigate tab n (tries n) = None
             /\ forall j, (j < tries n)%nat -> list_navigate tab n j <> None) ->
  (last < fuel)%nat ->
  (forall n, (n < last)%nat -> (tries n < fuel)%nat) ->
  (forall row r, listing row = Some r <-> listed row r)
  /\ exists t',
      crawlSpellListPages fuel tab t
      = Some (Ok (flat_map (fun n => references (rows n)) (seq 0 (S last))), t')
      /\ warned "Error parsing spell table row." t'
         = warned "Error parsing spell table row." t
           ++ flat_map (fun n => parseErrors (rows n)) (seq 0 (S last)).
Proof.
  intros Hopen Hgoto Hrows Hnext Hlast Htries Hfuel Hnav.
  split; [apply listing_listed|].
  unfold crawlSpellListPages, bind, emit, settle, ret.
  rewrite Hopen, Hgoto.
  match goal with |- context [listLoop fuel fuel tab 0 [] ?t0] =>
    destruct (@listLoop_pages tab last rows tries Hrows Hnext Hlast Htries fuel
                Hnav last 0%nat fuel [] t0) as (t' & Heq & Hw & _); auto
  end.
  rewrite Heq. cbn [option_map fst snd app].
  eexists. split; [reflexivity|].
  rewrite warned_app, Hw, !warned_app. cbn [warned]. now rewrite !app_nil_r.
Qed.

(** The same on a sample: the two-page list, whose first click fails. *)
Lemma paginator_returns_listed_witness :
  (forall row r, listing row = Some r <-> listed row r)
  /\ exists t',
      crawlSpellListPages 3 twoPages []
      = Some (Ok (flat_map
                    (fun n => references (match n with
                                          | O => page1rows
                                          | _ => page2rows
                                          end))
                    (seq 0 2)), t')
      /\ warned "Error parsing spell table row." t'
         = warned "Error parsing spell table row." []
           ++ flat_map
                (fun n => parseErrors (match n with
                                       | O => page1rows
                                       | _ => page2rows
                                       end))
                (seq 0 2).
Proof.
  apply (@paginator_returns_listed twoPages 1
           (fun n => match n with O => page1rows | _ => page2rows end)
           (fun n => match n with O => 1%nat | _ => 0%nat end) 3 []).
  - reflexivity.
  - reflexivity.
  - intros n Hn. destruct n as [|[|n]]; [reflexivity | reflexivity | lia].
  - intros n Hn. destruct n as [|n]; [|lia]. eexists. eexists. reflexivity.
  - reflexivity.
  - intros n Hn. destruct n as [|n]; [|lia]. split; [reflexivity|].
    intros j Hj. destruct j as [|j]; [discriminate | lia].
  - lia.
  - intros n Hn. destruct n as [|n]; lia.
Defined.

(** What the paginator throws is what the tab threw on opening, on the
    first load, or on a query of a page; never what a click threw. *)
Lemma listLoop_throws (tab : ListTab) (navFuel : nat) (e : error) (t' : trace) :
  forall (fuel n : nat) (spellUrls : list reference) (t : trace),
    listLoop fuel navFuel tab n spellUrls t = Some (Throw e, t') ->
    exists n', doc_query (list_page tab n') SelTableRows = Throw e
               \/ doc_query (list_page tab n') SelNext = Throw e.
Proof.
  induction fuel as [|fuel IH]; intros n spellUrls t H; cbn [listLoop] in H;
    [discriminate|].
  rewrite crawlSpellListPage_run in H.
  destruct (doc_query (list_page tab n) SelTableRows) as [rows|e0] eqn:Hrows.
  2:{ inversion H; subst. eauto. }
  unfold page_S, bind, lift, ret in H.
  destruct (doc_query (list_page tab n) SelNext) as [[|btn rest]|e0] eqn:Hnext;
    cbn [first_or_null] in H.
  - discriminate.
  - destruct (navigateNext navFuel tab n 0 _) as [t3|]; [|discriminate].
    eapply IH; eauto.
  - inversion H; subst. eauto.
Qed.

Lemma crawlSpellListPages_throws (tab : ListTab) (fuel : nat) (t t' : trace)
      (e : error) :
  crawlSpellListPages fuel tab t = Some (Throw e, t') ->
  list_open tab = Some e
  \/ list_goto tab = Some e
  \/ exists n, doc_query (list_page tab n) SelTableRows = Throw e
               \/ doc_query (list_page tab n) SelNext = Throw e.
Proof.
  unfold crawlSpellListPages, bind, emit, settle, throw, ret.
  destruct (list_open tab) as [e0|]; [intros H; inversion H; auto|].
  destruct (list_goto tab) as [e0|]; [intros H; inversion H; auto|].
  destruct (listLoop fuel fuel tab 0 [] _) as [[r t1]|] eqn:Hl; [|discriminate].
  cbn. intros H. inversion H; subst. right. right.
  eapply listLoop_throws; eauto.
Qed.

(** C8.  The click on the next-page link is retried without a limit and
    its failure is never thrown.  The click loop comes back only after a
    click that succeeded, having logged one warning for each click that
    failed; it comes back after any number of failures, given fuel for
    them; while every click fails it does not come back at all.  And on
    a tab that opens and whose queries work, the paginator throws
    nothing, whatever the clicks do. *)
Theorem navigation_never_surfaces (tab : ListTab) (fuel : nat) (t : trace) :
  (forall n j t0 t1,
      navigateNext fuel tab n j t0 = Some t1 ->
      exists k,
        list_navigate tab n (j + k) = None
        /\ (forall i, (i < k)%nat -> list_navigate tab n (j + i) <> None)
        /\ clicks t1 = (clicks t0 + S k)%nat
        /\ length (warned "Navigation to next page failed, retrying." t1)
           = (length (warned "Navigation to next page failed, retrying." t0)
              + k)%nat)
  /\ (forall n k t0,
         (forall i, (i < k)%nat -> list_navigate tab n i <> None) ->
         list_navigate tab n k = None ->
         (k < fuel)%nat ->
         exists t1, navigateNext fuel tab n 0 t0 = Some t1)
  /\ (forall n,
         (forall j, list_navigate tab n j <> None) ->
         forall j t0, navigateNext fuel tab n j t0 = None)
  /\ (list_open tab = None ->
      list_goto tab = None ->
      (forall n, exists rows,
            doc_query (list_page tab n) SelTableRows = Ok rows) ->
      (forall n, exists l, doc_query (list_page tab n) SelNext = Ok l) ->
      forall e t', crawlSpellListPages fuel tab t <> Some (Throw e, t')).
Proof.
  split; [|split; [|split]].
  - intros n j t0 t1 H. apply navigateNext_inv in H.
    destruct H as (k & H1 & H2 & H3 & H4 & _). eauto.
  - intros n k t0 Hfail Hok Hfuel.
    apply (@navigateNext_retries tab n k fuel 0%nat t0); auto.
  - intros n Hfail j t0. now apply navigateNext_stuck.
  - intros Hopen Hgoto Hrows Hnext e t' H.
    apply crawlSpellListPages_throws in H.
    destruct H as [H | [H | (n & [H | H])]].
    + congruence.
    + congruence.
    + destruct (Hrows n) as (rows & Hr). congruence.
    + destruct (Hnext n) as (l & Hl). congruence.
Qed.

(** The same on samples: the two-page list, and that list with a link that
    never works. *)
Lemma navigation_never_surfaces_witness :
  (exists k,
      list_navigate twoPages 0 (0 + k) = None
      /\ (forall i, (i < k)%nat -> list_navigate twoPages 0 (0 + i) <> None)
      /\ clicks [Click; Log WARN "Navigation to next page failed, retrying."
                          (Some (message timeout)); Click]
         = (clicks [] + S k)%nat
      /\ length (warned "Navigation to next page failed, retrying."
                   [Click; Log WARN "Navigation to next page failed, retrying."
                             (Some (message timeout)); Click])
         = (length (warned "Navigation to next page failed, retrying." []) + k)%nat)
  /\ (exists t1, navigateNext 3 twoPages 0 0 [] = Some t1)
  /\ navigateNext 3 stuckPages 0 0 [] = None
  /\ (forall e t', crawlSpellListPages 3 stuckPages [] <> Some (Throw e, t')).
Proof.
  destruct (navigation_never_surfaces twoPages 3 []) as (H1 & H2 & _ & _).
  destruct (navigation_never_surfaces stuckPages 3 []) as (_ & _ & H3 & H4).
  split; [|split; [|split]].
  - apply (H1 0%nat 0%nat []). reflexivity.
  - apply (H2 0%nat 1%nat []).
    + intros i Hi. destruct i as [|i]; [discriminate | lia].
    + reflexivity.
    + lia.
  - apply H3. intros j. discriminate.
  - apply H4.
    + reflexivity.
    + reflexivity.
    + intros n. destruct n as [|n]; eexists; reflexivity.
    + intros n. destruct n as [|n]; eexists; reflexivity.
Defined.

(* ===================================================================== *)
(** * Lemmas on the task runner *)
(* ===================================================================== *)

(** With [RETRY_LIMIT] at ten, an iteratee always starts a fetch. *)
Lemma startWorker_awaits (item : nat) (spellUrl : reference) :
  startWorker item spellUrl
  = Await (mkWorker item spellUrl (RETRY_LIMIT - 1) None 0).
Proof. reflexivity. Qed.

Section RunnerFacts.

Variable C : Type.
Variable spellCallback : option Spell.t -> C -> trace -> result unit * C * trace.
Variable tabs : nat -> nat -> Tab.

Lemma running_finalCallback (err : option error) (st : Runner C) :
  r_running (finalCallback err st) = r_running st.
Proof. unfold finalCallback. destruct (r_settled st); reflexivity. Qed.

Lemma running_noteDone (item : nat) (err : option error) (st : Runner C) :
  r_running (noteDone item err st) = r_running st.
Proof.
  unfold noteDone. destruct err; cbn [r_done r_running].
  - now rewrite running_finalCallback.
  - destruct (r_done st && _); [now rewrite running_finalCallback | reflexivity].
Qed.

(** [replenish] fills the activations up to the limit and not beyond. *)
Lemma replenish_bound (limit : nat) (pending : list (nat * reference)) :
  forall st : Runner C,
    (length (r_running st) <= limit)%nat ->
    (length (r_running (replenish limit pending st)) <= limit)%nat.
Proof.
  induction pending as [|[item spellUrl] pending IH]; intros st Hst;
    cbn [replenish].
  - destruct (Nat.ltb_spec (length (r_running st)) limit); cbn [andb]; auto.
    destruct (negb (r_done st)); cbn [r_running set_done]; auto.
    destruct (_ =? 0)%nat; [rewrite running_finalCallback|]; auto.
  - destruct (Nat.ltb_spec (length (r_running st)) limit); cbn [andb]; auto.
    destruct (negb (r_done st)); cbn [r_running]; auto.
    rewrite startWorker_awaits. apply IH. cbn [r_running].
    rewrite length_app. simpl. lia.
Qed.

Lemma length_remove_nth (k : nat) (l : list Worker) (w : Worker) :
  nth_error l k = Some w -> S (length (remove_nth k l)) = length l.
Proof.
  intros H. unfold remove_nth.
  assert (Hk : (k < length l)%nat) by (apply nth_error_Some; congruence).
  rewrite length_app, length_firstn, length_skipn. lia.
Qed.

Lemma length_replace_nth (k : nat) (l : list Worker) (w w' : Worker) :
  nth_error l k = Some w -> length (replace_nth k w' l) = length l.
Proof.
  intros H. unfold replace_nth.
  assert (Hk : (k < length l)%nat) by (apply nth_error_Some; congruence).
  rewrite length_app, length_firstn. cbn [length]. rewrite length_skipn. lia.
Qed.

Lemma step_bound (limit k : nat) (st : Runner C) :
  (length (r_running st) <= limit)%nat ->
  (length (r_running (step spellCallback tabs limit k st)) <= limit)%nat.
Proof.
  intros Hst. unfold step.
  destruct (nth_error (r_running st) k) as [w|] eqn:Hw; auto.
  destruct (crawlSpellPage _ _ _) as [r t1].
  destruct (resume spellCallback w r (r_closure st) t1) as [[ctl c'] t2].
  destruct ctl as [w'|item err].
  - cbn [r_running]. rewrite (length_replace_nth w' Hw). exact Hst.
  - pose proof (length_remove_nth Hw) as Hlen.
    destruct err as [e|].
    + rewrite running_noteDone. cbn [r_running]. lia.
    + match goal with |- context [if ?b then _ else _] => destruct b end.
      * rewrite running_noteDone. cbn [r_running]. lia.
      * apply replenish_bound. rewrite running_noteDone. cbn [r_running]. lia.
Qed.

Lemma run_bound (sched : list nat) :
  forall st : Runner C,
    (length (r_running st) <= CONCURRENCY)%nat ->
    (length (r_running (run spellCallback tabs sched st)) <= CONCURRENCY)%nat.
Proof.
  unfold run. induction sched as [|k sched IH]; intros st Hst; simpl; auto.
  apply IH. now apply step_bound.
Qed.

(** From an idle runner, [replenish] starts as many items as the limit
    allows. *)
Lemma replenish_starts (limit : nat) (pending : list (nat * reference)) :
  forall st : Runner C,
    r_done st = false ->
    (length (r_running st) <= limit)%nat ->
    (0 < limit)%nat ->
    length (r_running (replenish limit pending st))
    = Nat.min limit (length (r_running st) + length pending).
Proof.
  induction pending as [|[item spellUrl] pending IH]; intros st Hdone Hst Hlim;
    cbn [replenish]; rewrite Hdone; cbn [negb].
  - destruct (Nat.ltb_spec (length (r_running st)) limit);
      cbn [andb r_running set_done length].
    + destruct (length (r_running st) =? 0)%nat;
        [rewrite running_finalCallback|]; cbn [r_running set_done]; lia.
    + lia.
  - destruct (Nat.ltb_spec (length (r_running st)) limit); cbn [andb r_running length].
    + rewrite startWorker_awaits, IH; cbn [r_running r_done]; auto;
        rewrite length_app; simpl; lia.
    + lia.
Qed.

End RunnerFacts.

(* ===================================================================== *)
(** * The concurrency ceiling *)
(* ===================================================================== *)

(** C10.  In every state a run of [crawlSpellPages] reaches, under every
    schedule, at most [CONCURRENCY] activations of the iteratee are
    running, each waiting for the one fetch it has in flight; and the run
    starts with as many as the ceiling and the list allow. *)
Theorem in_flight_bounded (C : Type)
        (spellCallback : option Spell.t -> C -> trace -> result unit * C * trace)
        (tabs : nat -> nat -> Tab) (spellUrls : list reference) (c : C)
        (t : trace) (sched : list nat) :
  (length (r_running (run spellCallback tabs sched
                        (crawlSpellPages spellUrls c t))) <= CONCURRENCY)%nat
  /\ length (r_running (crawlSpellPages spellUrls c t))
     = Nat.min CONCURRENCY (length spellUrls).
Proof.
  assert (Hlen : forall i l, length (enumerate i l) = length l).
  { intros i l. revert i. induction l as [|x l IH]; intros i; simpl; auto. }
  assert (Hstart : length (r_running (crawlSpellPages spellUrls c t))
                   = Nat.min CONCURRENCY (length spellUrls)).
  { unfold crawlSpellPages. rewrite replenish_starts; cbn [r_running r_done length];
      auto; [now rewrite Hlen | lia | unfold CONCURRENCY; lia]. }
  split; [|exact Hstart].
  apply run_bound. rewrite Hstart. apply Nat.le_min_l.
Qed.


(* ===================================================================== *)
(** * Lemmas on the run of the driver *)
(* ===================================================================== *)

Lemma enumerate_skipn (l : list reference) :
  forall (i m : nat) (x : nat * reference) (rest : list (nat * reference)),
    skipn m (enumerate i l) = x :: rest ->
    fst x = (i + m)%nat /\ nth_error l m = Some (snd x)
    /\ rest = skipn (S m) (enumerate i l) /\ (m < length l)%nat.
Proof.
  induction l as [|y l IH]; intros i m x rest H.
  - destruct m; discriminate.
  - destruct m as [|m]; cbn [enumerate skipn] in H.
    + inversion H; subst. cbn. repeat split; auto; lia.
    + apply IH in H. destruct H as (H1 & H2 & H3 & H4).
      cbn [nth_error length enumerate]. repeat split; auto; lia.
Qed.

Lemma Permutation_remove_nth (k : nat) (l : list Worker) (w : Worker) :
  nth_error l k = Some w -> Permutation l (w :: remove_nth k l).
Proof.
  revert l. induction k as [|k IH]; intros [|x l] H; try discriminate.
  - inversion H; subst. apply Permutation_refl.
  - cbn [nth_error] in H. unfold remove_nth. cbn [firstn skipn app].
    specialize (IH l H). unfold remove_nth in IH.
    eapply Permutation_trans; [apply perm_skip, IH | apply perm_swap].
Qed.

Lemma map_replace_nth {B} (f : Worker -> B) (k : nat) (l : list Worker)
      (w w' : Worker) :
  nth_error l k = Some w -> f w' = f w ->
  map f (replace_nth k w' l) = map f l.
Proof.
  revert l. induction k as [|k IH]; intros [|x l] H Hf; try discriminate.
  - inversion H; subst. unfold replace_nth. cbn. now rewrite Hf.
  - cbn [nth_error] in H. unfold replace_nth in *. cbn [firstn skipn app map].
    f_equal. now apply IH.
Qed.

Lemma In_firstn_all {B} (k : nat) (l : list B) (x : B) :
  In x (firstn k l) -> In x l.
Proof.
  intros H. rewrite <- (firstn_skipn k l). apply in_or_app. auto.
Qed.

Lemma In_skipn_all {B} (k : nat) (l : list B) (x : B) :
  In x (skipn k l) -> In x l.
Proof.
  intros H. rewrite <- (firstn_skipn k l). apply in_or_app. auto.
Qed.

Lemma Forall_replace_nth (P : Worker -> Prop) (k : nat) (l : list Worker)
      (w' : Worker) :
  Forall P l -> P w' -> Forall P (replace_nth k w' l).
Proof.
  intros Hl Hw. rewrite Forall_forall in Hl.
  unfold replace_nth. apply Forall_app. split.
  - apply Forall_forall. intros x Hx. eapply Hl, In_firstn_all, Hx.
  - constructor; auto. apply Forall_forall. intros x Hx.
    eapply Hl, In_skipn_all, Hx.
Qed.

Lemma Forall_remove_nth (P : Worker -> Prop) (k : nat) (l : list Worker) :
  Forall P l -> Forall P (remove_nth k l).
Proof.
  intros Hl. rewrite Forall_forall in Hl.
  unfold remove_nth. apply Forall_app. split;
    apply Forall_forall; intros x Hx; apply Hl.
  - eapply In_firstn_all; eauto.
  - eapply In_skipn_all; eauto.
Qed.

(** When no iteratee ended with an error, each item that is finished was
    delivered, in the same order. *)
Lemma sync_no_error (d : list (nat * option Spell.t))
      (f : list (nat * option error)) :
  sync d f -> Forall (fun x => snd x = None) f -> map fst d = map fst f.
Proof.
  induction 1 as [|d f i s e Hs IH|d f i e Hs IH]; intros Hf; auto.
  - apply Forall_app in Hf. destruct Hf as [Hf _].
    rewrite !map_app, IH; auto.
  - apply Forall_app in Hf. destruct Hf as [_ Hf].
    inversion Hf; subst. discriminate.
Qed.

(** The iteratee of the driver from the point where its fetch settles. *)
Lemma resume_collect (w : Worker) (r : result (option Spell.t)) (c : Collected)
      (t : trace) :
  resume collect w r c t
  = match r with
    | Ok (Some s) =>
        (Done (w_item w) (if 0 <? w_retryCount w then None else w_error w),
         mkCollected (spells c ++ [s]) (S (spellCounter c)),
         t ++ [Log INFO "Read spell." None])
    | Ok None =>
        let e := TypeError "Cannot read property 'name' of undefined" in
        (if 0 <? w_retryCount w
         then Await (mkWorker (w_item w) (w_spellUrl w) (w_retryCount w - 1)
                       (Some e) (S (w_calls w)))
         else Done (w_item w) (Some e), c, t ++ [crawl_warning e])
    | Throw e =>
        (if 0 <? w_retryCount w
         then Await (mkWorker (w_item w) (w_spellUrl w) (w_retryCount w - 1)
                       (Some e) (S (w_calls w)))
         else Done (w_item w) (Some e), c, t ++ [crawl_warning e])
    end.
Proof.
  unfold resume, collect, loopTest, afterLoop.
  destruct r as [[s|]|e]; cbn [w_item w_spellUrl w_retryCount w_error w_calls];
    auto;
    destruct (Z.ltb_spec 0 (w_retryCount w)); auto;
    destruct (Z.ltb_spec 0 (w_retryCount w - 1)); auto; lia.
Qed.

Ltac runner_fields :=
  cbn [r_pending r_running r_done r_settled r_closure r_trace r_delivered
       r_finished] in *.

Lemma perm_finish (run : list Worker) (k : nat) (w : Worker)
      (fi : list (nat * option error)) (err : option error) (L : list nat) :
  nth_error run k = Some w ->
  Permutation (map fst fi ++ map w_item run) L ->
  Permutation (map fst (fi ++ [(w_item w, err)]) ++ map w_item (remove_nth k run)) L.
Proof.
  intros Hw H. eapply Permutation_trans; [|exact H].
  rewrite map_app, <- app_assoc. apply Permutation_app_head. cbn [map fst app].
  apply Permutation_sym.
  apply (Permutation_map w_item (Permutation_remove_nth Hw)).
Qed.

Section DriverRun.

Variable spellUrls : list reference.
Variable tabs : nat -> nat -> Tab.

(** [replenish] keeps the invariant. *)
Lemma replenish_inv (limit : nat) (pending : list (nat * reference)) :
  forall st : Runner Collected,
    r_pending st = pending ->
    runner_inv spellUrls tabs st ->
    runner_inv spellUrls tabs (replenish limit pending st).
Proof.
  induction pending as [|[item spellUrl] pending IH]; intros st Hp HI;
    cbn [replenish];
    (destruct ((length (r_running st) <? limit)%nat && negb (r_done st))
       eqn:Hcond;
     [| destruct st; runner_fields; subst; exact HI]).
  - destruct st as [p run dn se cl tr dl fi]. runner_fields. subst p.
    destruct HI as [Hpend Hdone Herr Hres Hsync Hspells Hurls Hfetched].
    runner_fields. unfold set_done, finalCallback. runner_fields.
    destruct (length run =? 0)%nat eqn:Hrun; [destruct se as [x|] eqn:Hse|];
      runner_fields; constructor; runner_fields; auto.
    intros _. apply Nat.eqb_eq in Hrun. destruct run; [auto | discriminate].
  - apply andb_prop in Hcond. destruct Hcond as [Hlim Hnd].
    apply negb_true_iff in Hnd.
    rewrite startWorker_awaits. apply IH; [reflexivity|].
    destruct st as [p run dn se cl tr dl fi]. runner_fields. subst p dn.
    destruct HI as [Hpend Hdone Herr Hres Hsync Hspells Hurls Hfetched].
    runner_fields.
    destruct Hpend as (m & Hm & Hle & Hperm).
    symmetry in Hm. apply enumerate_skipn in Hm.
    destruct Hm as (Hitem & Hurl & Hrest & Hlt). cbn [fst snd] in *.
    constructor; runner_fields; auto.
    + exists (S m). split; [exact Hrest|]. split; [lia|].
      rewrite seq_S, map_app, app_assoc. cbn [map w_item plus].
      apply Permutation_app; [exact Hperm|]. subst item. apply Permutation_refl.
    + intros H. discriminate.
    + intros H. destruct (Hres H) as (Hnil & _). discriminate.
    + apply Forall_app. split; auto. constructor; auto.
      cbn [w_item w_spellUrl]. subst item. exact Hurl.
Qed.

(** [done] for a running item keeps the invariant. *)
Lemma noteDone_inv (st : Runner Collected) (k : nat) (w : Worker)
      (err : option error) (c' : Collected) (t' : trace)
      (d' : list (nat * option Spell.t)) :
  runner_inv spellUrls tabs st ->
  nth_error (r_running st) k = Some w ->
  sync d' (r_finished st ++ [(w_item w, err)]) ->
  map snd d' = map Some (spells c') ->
  Forall (fun d => fetched spellUrls tabs (fst d) (snd d)) d' ->
  runner_inv spellUrls tabs
    (noteDone (w_item w) err
       (mkRunner (r_pending st) (remove_nth k (r_running st)) (r_done st)
          (r_settled st) c' t' d' (r_finished st))).
Proof.
  intros HI Hw Hsync' Hspells' Hfetched'.
  destruct st as [p run dn se cl tr dl fi]. runner_fields.
  destruct HI as [Hpend Hdone Herr Hres Hsync Hspells Hurls Hfetched].
  runner_fields.
  assert (Hns : se <> Some None).
  { intros ->. destruct (Hres eq_refl) as (_ & -> & _). destruct k; discriminate. }
  destruct Hpend as (m & Hm & Hle & Hperm).
  pose proof (@perm_finish run k w fi err (seq 0 m) Hw Hperm) as Hperm'.
  pose proof (Forall_remove_nth k Hurls) as Hurls'.
  unfold noteDone, finalCallback, set_done. runner_fields.
  destruct err as [e|].
  - destruct se as [[e0|]|]; [| contradiction |];
      constructor; runner_fields; eauto; try discriminate.
  - destruct (dn && (length (remove_nth k run) =? 0)%nat) eqn:Hall.
    + apply andb_prop in Hall. destruct Hall as [-> Hrun].
      apply Nat.eqb_eq in Hrun.
      destruct se as [[e0|]|]; [| contradiction |].
      * constructor; runner_fields; eauto; try discriminate.
      * assert (Hp : p = []).
        { destruct (Hdone eq_refl) as [Hp | (e & He)]; [exact Hp | discriminate]. }
        constructor; runner_fields; eauto; try discriminate.
        intros _. split; [exact Hp|]. split.
        -- destruct (remove_nth k run); [reflexivity | discriminate].
        -- apply Forall_app. split; [auto | constructor; auto].
    + constructor; runner_fields; eauto.
      * intros H. apply Forall_app. split; [auto | constructor; auto].
      * intros H. contradiction.
Qed.

(** A step of the run keeps the invariant. *)
Lemma step_inv (limit k : nat) (st : Runner Collected) :
  runner_inv spellUrls tabs st ->
  runner_inv spellUrls tabs (step collect tabs limit k st).
Proof.
  intros HI. unfold step.
  destruct (nth_error (r_running st) k) as [w|] eqn:Hw; auto.
  destruct (crawlSpellPage _ _ _) as [r t1] eqn:Hr.
  rewrite resume_collect.
  assert (Hurl : nth_error spellUrls (w_item w) = Some (w_spellUrl w)).
  { pose proof (inv_urls HI) as Hurls. rewrite Forall_forall in Hurls.
    apply Hurls. eapply nth_error_In; eauto. }
  destruct r as [[s|]|e].
  - set (err := if 0 <? w_retryCount w then None else w_error w).
    match goal with |- context [noteDone ?i ?e ?b] =>
      assert (HI1 : runner_inv spellUrls tabs (noteDone i e b)) end.
    { apply noteDone_inv; auto.
      - apply sync_delivered. apply (inv_sync HI).
      - cbn [spells]. rewrite !map_app, (inv_spells HI). reflexivity.
      - apply Forall_app. split; [apply (inv_fetched HI)|].
        constructor; auto. cbn [fst snd]. red. eauto 10. }
    destruct err; auto.
    match goal with |- context [if ?b then _ else _] => destruct b end; auto.
    apply replenish_inv; auto.
  - exfalso. eapply crawlSpellPage_defined; eauto.
  - destruct (0 <? w_retryCount w).
    + destruct st as [p run dn se cl tr dl fi]. runner_fields.
      destruct HI as [Hpend Hdone Herr Hres Hsync Hspells Hurls Hfetched].
      runner_fields.
      constructor; runner_fields; auto.
      * destruct Hpend as (m & Hm & Hle & Hperm). exists m.
        rewrite (@map_replace_nth nat w_item k run w); auto.
      * intros H. destruct (Hres H) as (_ & -> & _). destruct k; discriminate.
      * apply Forall_replace_nth; auto.
    + apply noteDone_inv; auto.
      * apply sync_failed. apply (inv_sync HI).
      * apply (inv_spells HI).
      * apply (inv_fetched HI).
Qed.

Lemma run_inv (sched : list nat) :
  forall st : Runner Collected,
    runner_inv spellUrls tabs st ->
    runner_inv spellUrls tabs (run collect tabs sched st).
Proof.
  unfold run. induction sched as [|k sched IH]; intros st HI; simpl; auto.
  apply IH. now apply step_inv.
Qed.

Lemma awaitSettled_inv (sched : list nat) :
  forall (st st' : Runner Collected) (err : option error) (rest : list nat),
    runner_inv spellUrls tabs st ->
    awaitSettled collect tabs sched st = Some (err, st', rest) ->
    runner_inv spellUrls tabs st' /\ r_settled st' = Some err.
Proof.
  induction sched as [|k sched IH]; intros st st' err rest HI H;
    cbn [awaitSettled] in H;
    destruct (r_settled st) as [x|] eqn:Hs; try discriminate;
    try (inversion H; subst; auto; fail).
  eapply IH; [|exact H]. now apply step_inv.
Qed.

(** The invariant holds when [crawlSpellPages] has started its first
    items. *)
Lemma crawlSpellPages_inv (c : Collected) (t : trace) :
  spells c = [] ->
  runner_inv spellUrls tabs (crawlSpellPages spellUrls c t).
Proof.
  intros Hc. unfold crawlSpellPages. apply replenish_inv; [reflexivity|].
  constructor; runner_fields; auto; try discriminate.
  - exists O. cbn. repeat split; auto. lia.
  - constructor.
  - now rewrite Hc.
Qed.

End DriverRun.

(* --------------------------------------------------------------------- *)
(** ** Nothing but the driver writes to standard output *)
(* --------------------------------------------------------------------- *)

Lemma attempt_stdout (tab : Tab) (url : jsstring) (i : nat) (t : trace) :
  stdout (snd (attempt tab url i t)) = stdout t.
Proof.
  destruct (writer_attempt tab url i) as [Hrun Hev].
  rewrite Hrun. cbn [snd]. rewrite stdout_app, (no_stdout Hev). apply app_nil_r.
Qed.

Lemma retryLoop_stdout (tab : Tab) (url : jsstring) :
  forall (n : nat) (retryCount : Z) (i : nat) (t : trace),
    (Z.to_nat retryCount <= n)%nat ->
    stdout (snd (retryLoop tab url retryCount i t)) = stdout t.
Proof.
  induction n as [|n IH]; intros retryCount i t Hn;
    rewrite retryLoop_step;
    destruct (Z.ltb_spec 0 retryCount); try lia; auto;
    pose proof (attempt_stdout tab url i t) as Ha;
    destruct (attempt tab url i t) as [[s|e] t1]; cbn [snd] in *; auto.
  destruct (Z.leb_spec (retryCount - 1) 0).
  - cbn [snd]. rewrite stdout_app, Ha. apply app_nil_r.
  - rewrite IH by lia. rewrite stdout_app, Ha. apply app_nil_r.
Qed.

Lemma crawlSpellPage_stdout (tab : Tab) (url : jsstring) (t : trace) :
  stdout (snd (crawlSpellPage tab url t)) = stdout t.
Proof.
  rewrite crawlSpellPage_run. destruct (tab_open tab).
  - cbn [snd]. rewrite stdout_app. apply app_nil_r.
  - pose proof (@retryLoop_stdout tab url _ RETRY_LIMIT 0%nat
                  (t ++ [Log VERBOSE "Reading spell" None; NewPage]) (le_n _)) as H.
    destruct (retryLoop _ _ _ _ _) as [r t1]. cbn [snd] in *.
    rewrite stdout_app, H, stdout_app. cbn. now rewrite !app_nil_r.
Qed.

Lemma trace_finalCallback {C} (err : option error) (st : Runner C) :
  r_trace (finalCallback err st) = r_trace st.
Proof. unfold finalCallback. destruct (r_settled st); reflexivity. Qed.

Lemma trace_noteDone {C} (item : nat) (err : option error) (st : Runner C) :
  r_trace (noteDone item err st) = r_trace st.
Proof.
  unfold noteDone. destruct err; cbn [r_done r_running].
  - now rewrite trace_finalCallback.
  - destruct (r_done st && _); [now rewrite trace_finalCallback | reflexivity].
Qed.

Lemma trace_replenish {C} (limit : nat) (pending : list (nat * reference)) :
  forall st : Runner C, r_trace (replenish limit pending st) = r_trace st.
Proof.
  induction pending as [|[item spellUrl] pending IH]; intros st; cbn [replenish];
    destruct ((length (r_running st) <? limit)%nat && negb (r_done st)); auto.
  - cbn [set_done r_running]. destruct (_ =? 0)%nat;
      [rewrite trace_finalCallback|]; reflexivity.
  - rewrite startWorker_awaits, IH. reflexivity.
Qed.

Lemma step_stdout (tabs : nat -> nat -> Tab) (limit k : nat)
      (st : Runner Collected) :
  stdout (r_trace (step collect tabs limit k st)) = stdout (r_trace st).
Proof.
  unfold step. destruct (nth_error (r_running st) k) as [w|]; auto.
  match goal with |- context [crawlSpellPage ?tab ?url ?t] =>
    pose proof (crawlSpellPage_stdout tab url t) as Hc;
    destruct (crawlSpellPage tab url t) as [r t1] end.
  cbn [snd] in Hc. rewrite resume_collect.
  assert (Hlog : forall ev, is_log ev = true -> stdout (t1 ++ [ev]) = stdout (r_trace st)).
  { intros ev Hev. rewrite stdout_app, Hc. destruct ev; try discriminate.
    apply app_nil_r. }
  destruct r as [[s|]|e].
  - destruct (if 0 <? w_retryCount w then None else w_error w).
    + rewrite trace_noteDone. apply Hlog. reflexivity.
    + match goal with |- context [if ?b then _ else _] => destruct b end.
      * rewrite trace_noteDone. apply Hlog. reflexivity.
      * rewrite trace_replenish, trace_noteDone. apply Hlog. reflexivity.
  - cbv zeta. destruct (0 <? w_retryCount w); [|rewrite trace_noteDone];
      apply Hlog; reflexivity.
  - destruct (0 <? w_retryCount w); [|rewrite trace_noteDone];
      apply Hlog; reflexivity.
Qed.

Lemma run_stdout (tabs : nat -> nat -> Tab) (sched : list nat) :
  forall st : Runner Collected,
    stdout (r_trace (run collect tabs sched st)) = stdout (r_trace st).
Proof.
  unfold run. induction sched as [|k sched IH]; intros st; simpl; auto.
  rewrite IH. apply step_stdout.
Qed.

Lemma awaitSettled_stdout (tabs : nat -> nat -> Tab) (sched : list nat) :
  forall (st st' : Runner Collected) (err : option error) (rest : list nat),
    awaitSettled collect tabs sched st = Some (err, st', rest) ->
    stdout (r_trace st') = stdout (r_trace st).
Proof.
  induction sched as [|k sched IH]; intros st st' err rest H;
    cbn [awaitSettled] in H;
    destruct (r_settled st) as [x|]; try discriminate;
    try (inversion H; subst; auto; fail).
  apply IH in H. rewrite H. apply step_stdout.
Qed.

Lemma listLoop_stdout (tab : ListTab) (navFuel : nat) :
  forall (fuel n : nat) (spellUrls : list reference) (t t' : trace)
         (r : result (list reference)),
    listLoop fuel navFuel tab n spellUrls t = Some (r, t') ->
    stdout t' = stdout t.
Proof.
  induction fuel as [|fuel IH]; intros n spellUrls t t' r H;
    cbn [listLoop] in H; [discriminate|].
  rewrite crawlSpellListPage_run in H.
  destruct (doc_query (list_page tab n) SelTableRows) as [rows|e0].
  2:{ inversion H; subst. rewrite stdout_app. apply app_nil_r. }
  assert (Hpage : stdout (t ++ page_entered :: rowWarnings rows ++ [page_counted])
                  = stdout t).
  { change (page_entered :: rowWarnings rows ++ [page_counted])
      with ([page_entered] ++ rowWarnings rows ++ [page_counted]).
    rewrite !stdout_app, stdout_rowWarnings. cbn. now rewrite !app_nil_r. }
  unfold page_S, bind, lift, ret in H.
  destruct (doc_query (list_page tab n) SelNext) as [[|btn rest]|e0];
    cbn [first_or_null] in H.
  - inversion H; subst. rewrite stdout_app, Hpage. apply app_nil_r.
  - destruct (navigateNext navFuel tab n 0 _) as [t3|] eqn:Hnav; [|discriminate].
    apply navigateNext_inv in Hnav. destruct Hnav as (k & _ & _ & _ & _ & Hs & _).
    apply IH in H. rewrite H, Hs, stdout_app, Hpage. apply app_nil_r.
  - inversion H; subst. exact Hpage.
Qed.

Lemma crawlSpellListPages_stdout (tab : ListTab) (fuel : nat) (t t' : trace)
      (r : result (list reference)) :
  crawlSpellListPages fuel tab t = Some (r, t') -> stdout t' = stdout t.
Proof.
  unfold crawlSpellListPages, bind, emit, settle, throw, ret.
  destruct (list_open tab) as [e0|].
  { intros H. inversion H; subst. rewrite stdout_app. apply app_nil_r. }
  destruct (list_goto tab) as [e0|].
  { intros H. inversion H; subst. cbn [fst snd].
    rewrite !stdout_app. cbn. now rewrite !app_nil_r. }
  destruct (listLoop fuel fuel tab 0 [] _) as [[r1 t1]|] eqn:Hl; [|discriminate].
  cbn. intros H. inversion H; subst.
  apply listLoop_stdout in Hl. rewrite stdout_app, Hl, !stdout_app. cbn.
  now rewrite !app_nil_r.
Qed.

Lemma skipn_nil_length {B} (m : nat) (l : list B) :
  skipn m l = [] -> (length l <= m)%nat.
Proof.
  revert l. induction m as [|m IH]; intros [|x l] H; simpl in *;
    try discriminate; try lia.
  apply IH in H. lia.
Qed.

Lemma length_enumerate (l : list reference) (i : nat) :
  length (enumerate i l) = length l.
Proof. revert i. induction l as [|x l IH]; intros i; simpl; auto. Qed.

Lemma delivered_records (P : nat -> option Spell.t -> Prop)
      (d : list (nat * option Spell.t)) :
  forall sp : list Spell.t,
    map snd d = map Some sp ->
    Forall (fun x => P (fst x) (snd x)) d ->
    Forall2 (fun i s => P i (Some s)) (map fst d) sp.
Proof.
  induction d as [|[i x] d IH]; intros [|s sp] Hmap Hd; try discriminate.
  - constructor.
  - cbn in Hmap. inversion Hmap; subst. inversion Hd; subst.
    cbn. constructor; auto.
Qed.

(** A run that resolved has finished every reference without error and
    delivered one record for each, fetched for that reference. *)
Lemma resolved_run (spellUrls : list reference) (tabs : nat -> nat -> Tab)
      (st : Runner Collected) :
  runner_inv spellUrls tabs st ->
  r_settled st = Some None ->
  Forall (fun f => snd f = None) (r_finished st)
  /\ Permutation (map fst (r_finished st)) (seq 0 (length spellUrls))
  /\ map fst (r_delivered st) = map fst (r_finished st)
  /\ Forall2 (fun i s => fetched spellUrls tabs i (Some s))
             (map fst (r_delivered st)) (spells (r_closure st)).
Proof.
  intros HI Hs.
  destruct (inv_resolved HI Hs) as (Hp & Hr & Hf).
  destruct (inv_pending HI) as (m & Hm & Hle & Hperm).
  rewrite Hp in Hm. symmetry in Hm. apply skipn_nil_length in Hm.
  rewrite length_enumerate in Hm.
  assert (m = length spellUrls) by lia. subst m.
  rewrite Hr in Hperm. cbn [map] in Hperm. rewrite app_nil_r in Hperm.
  repeat split; auto.
  - apply sync_no_error; auto. apply (inv_sync HI).
  - apply delivered_records; [apply (inv_spells HI) | apply (inv_fetched HI)].
Qed.

(** What the run of the program has written when it is over. *)
Lemma main_stdout (world : World) (fuel : nat) (sched : list nat) (t : trace) :
  main world fuel sched = Some t ->
  match world_launch world with
  | Some _ => stdout t = []
  | None =>
      match crawlSpellListPages fuel (world_list world) listing_start with
      | None => False
      | Some (Throw _, _) => stdout t = []
      | Some (Ok spellUrls, t1) =>
          if (0 <? length spellUrls)%nat then
            match awaitSettled collect (world_tabs world) sched
                    (startCrawl spellUrls t1) with
            | None => False
            | Some (Some _, _, _) => stdout t = []
            | Some (None, st, _) => stdout t = [spells (r_closure st)]
            end
          else stdout t = []
      end
  end.
Proof.
  unfold main, bind, emit, settle, throw, ret.
  destruct (world_launch world) as [e|].
  { intros H. inversion H; subst. reflexivity. }
  unfold crawlAll. change ([] ++ [Launch]) with [Launch].
  change ([Launch] ++ [Log INFO "Building list of spells..." None])
    with listing_start.
  destruct (crawlSpellListPages fuel (world_list world) listing_start)
    as [[[spellUrls|e] t1]|] eqn:Hlist; [| |discriminate].
  - apply crawlSpellListPages_stdout in Hlist. cbn in Hlist.
    destruct (0 <? length spellUrls)%nat.
    + destruct (awaitSettled collect (world_tabs world) sched
                  (startCrawl spellUrls t1)) as [[[[err|] st] rest]|] eqn:Hrun;
        [| |discriminate];
        apply awaitSettled_stdout in Hrun;
        unfold startCrawl, crawlSpellPages in Hrun;
        rewrite trace_replenish in Hrun; cbn [r_trace] in Hrun;
        rewrite stdout_app, Hlist in Hrun; cbn in Hrun;
        intros H; inversion H; subst; clear H;
        rewrite run_stdout; unfold with_trace; cbn [r_trace];
        destruct (world_close world);
        rewrite !stdout_app, ?Hrun; reflexivity.
    + intros H. inversion H; subst.
      destruct (world_close world); rewrite !stdout_app, ?Hlist; reflexivity.
  - apply crawlSpellListPages_stdout in Hlist. cbn in Hlist.
    intros H. inversion H; subst.
    destruct (world_close world); rewrite !stdout_app, ?Hlist; reflexivity.
Qed.

(* ===================================================================== *)
(** * The output of the pipeline *)
(* ===================================================================== *)

(** C9.  A run of the program writes to standard output at most once,
    and only the array [spells] after the promise of [crawlSpellPages]
    resolved: then the iteratee of every discovered reference has called
    [done] without error, and the array holds one record for each of
    them, fetched for it.  When the browser does not launch or the
    promise is rejected, nothing is written. *)
Theorem output_all_or_nothing (world : World) (fuel : nat) (sched : list nat)
        (t : trace) :
  main world fuel sched = Some t ->
  (world_launch world <> None -> stdout t = [])
  /\ (forall spellUrls t1 err st rest,
         crawlSpellListPages fuel (world_list world) listing_start
         = Some (Ok spellUrls, t1) ->
         awaitSettled collect (world_tabs world) sched (startCrawl spellUrls t1)
         = Some (Some err, st, rest) ->
         stdout t = [])
  /\ (stdout t = []
      \/ exists spellUrls t1 st rest,
          world_launch world = None
          /\ crawlSpellListPages fuel (world_list world) listing_start
             = Some (Ok spellUrls, t1)
          /\ awaitSettled collect (world_tabs world) sched
               (startCrawl spellUrls t1)
             = Some (None, st, rest)
          /\ stdout t = [spells (r_closure st)]
          /\ Forall (fun f => snd f = None) (r_finished st)
          /\ Permutation (map fst (r_finished st)) (seq 0 (length spellUrls))
          /\ map fst (r_delivered st) = map fst (r_finished st)
          /\ Forall2 (fun i s => fetched spellUrls (world_tabs world) i (Some s))
                     (map fst (r_delivered st)) (spells (r_closure st))).
Proof.
  intros Hmain. apply main_stdout in Hmain.
  destruct (world_launch world) as [e|] eqn:Hlaunch.
  { repeat split; auto. }
  destruct (crawlSpellListPages fuel (world_list world) listing_start)
    as [[[spellUrls|e] t1]|] eqn:Hlist; [| |contradiction].
  - destruct (0 <? length spellUrls)%nat eqn:Hlen.
    + destruct (awaitSettled collect (world_tabs world) sched
                  (startCrawl spellUrls t1)) as [[[[err|] st] rest]|] eqn:Hrun;
        [| |contradiction].
      * split; [intros H; contradiction|]. split; auto.
      * split; [intros H; contradiction|]. split.
        { intros urls' t1' err st' rest' Hl Hr. inversion Hl; subst.
          rewrite Hrun in Hr. discriminate. }
        right. exists spellUrls, t1, st, rest.
        destruct (@awaitSettled_inv spellUrls (world_tabs world) sched
                    (startCrawl spellUrls t1) st None rest) as (HI & Hs); auto.
        { apply crawlSpellPages_inv. reflexivity. }
        destruct (resolved_run HI Hs) as (H1 & H2 & H3 & H4).
        repeat split; auto.
    + split; [intros H; contradiction|]. split; auto.
  - split; [intros H; contradiction|]. split; auto.
Qed.

(** The same on a sample: a world in which all four spell pages load. *)
Lemma output_all_or_nothing_witness :
  let t := match main fairWorld 3 [0; 0; 0; 0]%nat with
           | Some t => t
           | None => []
           end in
  (world_launch fairWorld <> None -> stdout t = [])
  /\ (forall spellUrls t1 err st rest,
         crawlSpellListPages 3 (world_list fairWorld) listing_start
         = Some (Ok spellUrls, t1) ->
         awaitSettled collect (world_tabs fairWorld) [0; 0; 0; 0]%nat
           (startCrawl spellUrls t1)
         = Some (Some err, st, rest) ->
         stdout t = [])
  /\ (stdout t = []
      \/ exists spellUrls t1 st rest,
          world_launch fairWorld = None
          /\ crawlSpellListPages 3 (world_list fairWorld) listing_start
             = Some (Ok spellUrls, t1)
          /\ awaitSettled collect (world_tabs fairWorld) [0; 0; 0; 0]%nat
               (startCrawl spellUrls t1)
             = Some (None, st, rest)
          /\ stdout t = [spells (r_closure st)]
          /\ Forall (fun f => snd f = None) (r_finished st)
          /\ Permutation (map fst (r_finished st)) (seq 0 (length spellUrls))
          /\ map fst (r_delivered st) = map fst (r_finished st)
          /\ Forall2 (fun i s => fetched spellUrls (world_tabs fairWorld) i (Some s))
                     (map fst (r_delivered st)) (spells (r_closure st))).
Proof.
  apply (@output_all_or_nothing fairWorld 3 [0; 0; 0; 0]%nat).
  vm_compute. reflexivity.
Defined.

(* ===================================================================== *)
(** * The retries of the task runner *)
(* ===================================================================== *)

(** A fetch does not read the trace: its outcome is the same from every
    trace. *)
Lemma retryLoop_writer (tab : Tab) (url : jsstring) :
  forall (n : nat) (retryCount : Z) (i : nat),
    (Z.to_nat retryCount <= n)%nat ->
    forall t, retryLoop tab url retryCount i t
              = (fst (retryLoop tab url retryCount i []),
                 t ++ snd (retryLoop tab url retryCount i [])).
Proof.
  induction n as [|n IH]; intros retryCount i Hn t;
    rewrite (retryLoop_step tab url retryCount i t),
            (retryLoop_step tab url retryCount i []);
    destruct (Z.ltb_spec 0 retryCount); try lia;
    try (cbn [fst snd]; now rewrite app_nil_r).
  destruct (writer_attempt tab url i) as [Hrun _].
  rewrite (Hrun t), (Hrun []). cbn [app].
  destruct (outcome (attempt tab url i)) as [s|e]; cbn [fst snd]; auto.
  destruct (Z.leb_spec (retryCount - 1) 0); cbn [fst snd].
  - now rewrite app_assoc.
  - rewrite (IH (retryCount - 1) (S i) ltac:(lia) ((t ++ _) ++ _)).
    rewrite (IH (retryCount - 1) (S i) ltac:(lia) (effects _ ++ _)).
    cbn [fst snd]. now rewrite <- !app_assoc.
Qed.

Lemma crawlSpellPage_outcome (tab : Tab) (url : jsstring) (t : trace) :
  fst (crawlSpellPage tab url t) = outcome (crawlSpellPage tab url).
Proof.
  unfold outcome. rewrite !crawlSpellPage_run.
  destruct (tab_open tab); [reflexivity|].
  rewrite (@retryLoop_writer tab url _ RETRY_LIMIT 0%nat (le_n _) (t ++ _)).
  rewrite (@retryLoop_writer tab url _ RETRY_LIMIT 0%nat (le_n _) ([] ++ _)).
  reflexivity.
Qed.

Lemma run_app {C} (cb : option Spell.t -> C -> trace -> result unit * C * trace)
      (tabs : nat -> nat -> Tab) (s1 s2 : list nat) (st : Runner C) :
  run cb tabs (s1 ++ s2) st = run cb tabs s2 (run cb tabs s1 st).
Proof. unfold run. apply fold_left_app. Qed.

Lemma run_one {C} (cb : option Spell.t -> C -> trace -> result unit * C * trace)
      (tabs : nat -> nat -> Tab) (k : nat) (st : Runner C) :
  run cb tabs [k] st = step cb tabs CONCURRENCY k st.
Proof. reflexivity. Qed.

Section LoneItem.

(** One reference, whose first [n] fetches throw. *)
Variable tabs : nat -> nat -> Tab.
Variable ref : reference.
Variable c : Collected.
Variable e : nat -> error.
Variable n : nat.

Hypothesis failures :
  forall j, (j < n)%nat ->
            outcome (crawlSpellPage (tabs 0 j)
                       (DNDTOOLS_URL_BASE ++ toString ref))
            = Throw (e j).

(** After [j] failed fetches, nine at most, the iteratee waits for the
    next with [retryCount] at [9 - j]. *)
Lemma lone_item_retries (t : trace) :
  forall j, (j <= n)%nat -> (j <= 9)%nat ->
    exists t',
      run collect tabs (repeat 0%nat j) (crawlSpellPages [ref] c t)
      = mkRunner [] [mkWorker 0 ref (9 - Z.of_nat j) (last_error e j) j]
          true None c t' [] [].
Proof.
  induction j as [|j IH]; intros Hn Hj.
  - exists t. reflexivity.
  - destruct (IH ltac:(lia) ltac:(lia)) as (t' & Hrun).
    replace (repeat 0%nat (S j)) with (repeat 0%nat j ++ [0%nat])
      by (rewrite <- repeat_cons; reflexivity).
    rewrite run_app, Hrun, run_one.
    unfold step.
    cbn [r_pending r_running r_done r_settled r_closure r_trace r_delivered
         r_finished nth_error].
    match goal with |- context [crawlSpellPage ?tab ?url ?t0] =>
      pose proof (crawlSpellPage_outcome tab url t0) as Hout;
      destruct (crawlSpellPage tab url t0) as [r t1] end.
    cbn [fst w_item w_calls w_spellUrl] in Hout.
    rewrite failures in Hout by lia. subst r.
    rewrite resume_collect. cbn [w_retryCount w_item w_spellUrl w_error w_calls].
    destruct (Z.ltb_spec 0 (9 - Z.of_nat j)); [|lia].
    eexists. unfold replace_nth. cbn [firstn skipn app last_error].
    replace (9 - Z.of_nat (S j)) with (9 - Z.of_nat j - 1) by lia.
    reflexivity.
Qed.

End LoneItem.

(** The tenth fetch of the one reference returns a record. *)
Lemma lone_item_last_step (tabs : nat -> nat -> Tab) (ref : reference)
      (c : Collected) (t : trace) (err : error) (s : Spell.t) :
  outcome (crawlSpellPage (tabs 0%nat 9%nat) (DNDTOOLS_URL_BASE ++ toString ref))
  = Ok (Some s) ->
  exists t',
    step collect tabs CONCURRENCY 0
      (mkRunner [] [mkWorker 0 ref 0 (Some err) 9] true None c t [] [])
    = mkRunner [] [] true (Some (Some err))
        (mkCollected (spells c ++ [s]) (S (spellCounter c))) t'
        [(0%nat, Some s)] [(0%nat, Some err)].
Proof.
  intros Hlast. unfold step.
  cbn [r_pending r_running r_done r_settled r_closure r_trace r_delivered
       r_finished nth_error].
  match goal with |- context [crawlSpellPage ?tab ?url ?t0] =>
    pose proof (crawlSpellPage_outcome tab url t0) as Hout;
    destruct (crawlSpellPage tab url t0) as [r t1] end.
  cbn [fst w_item w_calls w_spellUrl] in Hout.
  rewrite Hlast in Hout. subst r.
  rewrite resume_collect.
  cbn [w_retryCount w_item w_error w_spellUrl w_calls].
  change (0 <? 0) with false.
  cbv iota. unfold noteDone, finalCallback, set_done, remove_nth.
  cbn [r_pending r_running r_done r_settled r_closure r_trace r_delivered
       r_finished spells app firstn skipn].
  eexists. reflexivity.
Qed.

(** A fetch that succeeds before the tenth ends its item without error,
    and the run of the one reference resolves. *)
Lemma lone_item_succeeds_early (tabs : nat -> nat -> Tab) (ref : reference)
      (c : Collected) (t : trace) (e : nat -> error) (s : Spell.t) (k : nat) :
  (k < 9)%nat ->
  (forall j, (j < k)%nat ->
             outcome (crawlSpellPage (tabs 0%nat j)
                        (DNDTOOLS_URL_BASE ++ toString ref))
             = Throw (e j)) ->
  outcome (crawlSpellPage (tabs 0%nat k) (DNDTOOLS_URL_BASE ++ toString ref))
  = Ok (Some s) ->
  exists t',
    run collect tabs (repeat 0%nat (S k)) (crawlSpellPages [ref] c t)
    = mkRunner [] [] true (Some None)
        (mkCollected (spells c ++ [s]) (S (spellCounter c))) t'
        [(0%nat, Some s)] [(0%nat, None)].
Proof.
  intros Hk Hfail Hlast.
  destruct (@lone_item_retries tabs ref c e k Hfail t k (le_n _))
    as (t' & Hrun); [lia|].
  replace (repeat 0%nat (S k)) with (repeat 0%nat k ++ [0%nat])
    by (rewrite <- repeat_cons; reflexivity).
  rewrite run_app, Hrun, run_one.
  unfold step.
  cbn [r_pending r_running r_done r_settled r_closure r_trace r_delivered
       r_finished nth_error].
  match goal with |- context [crawlSpellPage ?tab ?url ?t0] =>
    pose proof (crawlSpellPage_outcome tab url t0) as Hout;
    destruct (crawlSpellPage tab url t0) as [r t1] end.
  cbn [fst w_item w_calls w_spellUrl] in Hout.
  rewrite Hlast in Hout. subst r.
  rewrite resume_collect.
  cbn [w_retryCount w_item w_error w_spellUrl w_calls].
  destruct (Z.ltb_spec 0 (9 - Z.of_nat k)); [|lia].
  unfold noteDone, finalCallback, set_done, remove_nth.
  cbn [r_pending r_running r_done r_settled r_closure r_trace r_delivered
       r_finished spells app firstn skipn length andb Nat.eqb].
  eexists. reflexivity.
Qed.

(** C1, where the code departs from it: a reference whose first nine
    fetches fail and whose tenth, the last one [RETRY_LIMIT] allows,
    returns a record.  The callback gets the record, and still the
    iteratee calls [done] with the error of the ninth fetch, so that the
    run fails. *)
Theorem last_attempt_success_fails_the_run (tabs : nat -> nat -> Tab)
        (ref : reference) (c : Collected) (t : trace) (e : nat -> error)
        (s : Spell.t) :
  (forall j, (j < 9)%nat ->
             outcome (crawlSpellPage (tabs 0%nat j)
                        (DNDTOOLS_URL_BASE ++ toString ref))
             = Throw (e j)) ->
  outcome (crawlSpellPage (tabs 0%nat 9%nat) (DNDTOOLS_URL_BASE ++ toString ref))
  = Ok (Some s) ->
  let st := run collect tabs (repeat 0%nat 10) (crawlSpellPages [ref] c t) in
  r_delivered st = [(0%nat, Some s)]
  /\ spells (r_closure st) = spells c ++ [s]
  /\ r_finished st = [(0%nat, Some (e 8%nat))]
  /\ r_settled st = Some (Some (e 8%nat)).
Proof.
  intros Hfail Hlast.
  destruct (@lone_item_retries tabs ref c e 9 Hfail t 9 (le_n _) (le_n _))
    as (t' & Hrun).
  change (9 - Z.of_nat 9) with 0 in Hrun.
  change (last_error e 9) with (Some (e 8%nat)) in Hrun.
  destruct (@lone_item_last_step tabs ref c t' (e 8%nat) s Hlast) as (t'' & Hstep).
  assert (Hall : run collect tabs (repeat 0%nat 10) (crawlSpellPages [ref] c t)
                 = mkRunner [] [] true (Some (Some (e 8%nat)))
                     (mkCollected (spells c ++ [s]) (S (spellCounter c))) t''
                     [(0%nat, Some s)] [(0%nat, Some (e 8%nat))]).
  { replace (repeat 0%nat 10) with (repeat 0%nat 9 ++ [0%nat]) by reflexivity.
    rewrite run_app, Hrun, run_one. exact Hstep. }
  cbv zeta. rewrite Hall. repeat split.
Qed.

(** The same on a sample: nine fetches that exhaust their loads, then one that
    finds the page. *)
Lemma last_attempt_success_fails_the_run_witness :
  let st :=
    run collect lastChanceTabs (repeat 0%nat 10)
      (crawlSpellPages [Some flyRef] (mkCollected [] 0) []) in
  r_delivered st = [(0%nat, Some bareRecord)]
  /\ spells (r_closure st) = spells (mkCollected [] 0) ++ [bareRecord]
  /\ r_finished st = [(0%nat, Some timeout)]
  /\ r_settled st = Some (Some timeout).
Proof.
  apply (@last_attempt_success_fails_the_run lastChanceTabs (Some flyRef)
           (mkCollected [] 0) [] (fun _ => timeout) bareRecord).
  - intros j Hj.
    do 9 (destruct j as [|j]; [vm_compute; reflexivity|]). lia.
  - vm_compute. reflexivity.
Defined.

(* ===================================================================== *)
(** * The shape of what the patterns accept *)
(* ===================================================================== *)

(** X1.  [parseClassSpellLevel] accepts exactly the texts made of a name
    without line break, one white-space character and a run of digits up
    to the end.  The class is the name as it stands, not trimmed, and the
    level is what [parseInt] makes of the run: the double nearest to the
    number it spells in base ten, [Infinity] when that is beyond the
    doubles.  Every other text gives [null]. *)
Theorem parseClassSpellLevel_shape (text : jsstring) (x : ClassSpellLevel.t) :
  parseClassSpellLevel text = Some x
  <-> exists c w digits,
        text = c ++ w :: digits
        /\ all isDot c /\ isSpace w = true
        /\ all isDigit digits /\ digits <> []
        /\ x = ClassSpellLevel.make c (toDouble (decimalValue digits)).
Proof.
  split.
  - intros H. apply parseClassSpellLevel_some in H.
    destruct H as (c & w & digits & (Ht & Hc & Hw & Hd & Hne) & Hx).
    exists c, w, digits. auto 10.
  - intros (c & w & digits & Ht & Hc & Hw & Hd & Hne & ->).
    apply parseClassSpellLevel_levelled with (w := w).
    unfold levelled. auto.
Qed.

(** X2.  The id pattern accepts exactly the urls that end in a run of
    digits and at most one slash, and the id is the whole run: the digits
    as far back as they go. *)
Theorem spellId_shape (url id : jsstring) :
  spellId url = Ok id
  <-> exists pre suf,
        url = pre ++ id ++ suf
        /\ all isDigit id /\ id <> []
        /\ (suf = [] \/ suf = [47%N])
        /\ (forall pre' c, pre = pre' ++ [c] -> isDigit c = false).
Proof.
  unfold spellId. split.
  - destruct (exec re_trailingId url) as [m|] eqn:Hm; [|discriminate].
    intros H. inversion H; subst; clear H.
    apply exec_trailingId in Hm. exact Hm.
  - intros (pre & suf & -> & Hd & Hne & Hsuf & Hpre).
    destruct (exec re_trailingId (pre ++ id ++ suf)) as [m|] eqn:Hm.
    + f_equal.
      destruct (exec_trailingId Hm) as (pre2 & suf2 & Ht & Hd2 & Hne2 & Hsuf2 & Hpre2).
      assert (Hlast : forall u, all isDigit u -> u <> [] ->
                exists r c, u = r ++ [c] /\ isDigit c = true).
      { intros u Hu Hu0. destruct (exists_last Hu0) as (r & c & ->).
        exists r, c. split; auto.
        apply Forall_app in Hu. destruct Hu as [_ Hu]. now inversion Hu. }
      destruct (Hlast _ Hd Hne) as (r1 & c1 & E1 & Hc1).
      destruct (Hlast _ Hd2 Hne2) as (r2 & c2 & E2 & Hc2).
      assert (Hs : suf = suf2).
      { destruct Hsuf as [-> | ->]; destruct Hsuf2 as [-> | ->]; auto; exfalso.
        - rewrite E1, E2, app_nil_r in Ht. rewrite !app_assoc in Ht.
          apply app_inj_tail in Ht. destruct Ht as [_ Hc]. subst c1.
          vm_compute in Hc1. discriminate.
        - rewrite E1, E2, app_nil_r in Ht. rewrite !app_assoc in Ht.
          apply app_inj_tail in Ht. destruct Ht as [_ Hc]. subst c2.
          vm_compute in Hc2. discriminate. }
      subst suf2. rewrite !app_assoc in Ht. apply app_inv_tail in Ht.
      apply tail_split_unique with (P := isDigit) in Ht; auto.
      destruct Ht as [_ ->]. reflexivity.
    + exfalso. unfold exec in Hm.
      refine (@scan_finds re_trailingId (pre ++ id ++ suf) pre (id ++ suf)
                [] [id] _ Hm).
      unfold re_trailingId; cbn [den].
      exists suf, [id], []. split; [|split; [|reflexivity]].
      { exists []. split; [split; [eauto | reflexivity]|].
        cbn [app]. f_equal. f_equal. symmetry. apply firstn_matched. }
      exists [], [], []. split; [|split; auto].
      destruct Hsuf as [-> | ->]; [right | left]; auto.
Qed.

(* --------------------------------------------------------------------- *)
(** ** [trim] *)
(* --------------------------------------------------------------------- *)






(* ===================================================================== *)
(** * The guarded read *)
(* ===================================================================== *)

(** X3.  [readSpellProperty] never throws, whatever [readFn] does: it
    returns what [readFn] returned after one debug line, or, when [readFn]
    threw, the default after one warning that carries the property and
    the message. *)
Theorem readSpellProperty_never_throws {T} (page : Document)
        (propertyName : string) (readFn : Document -> M T) (defaultValue : T)
        (t : trace) :
  exists v ev,
    readSpellProperty page propertyName readFn defaultValue t
    = (Ok v, snd (readFn page t) ++ [ev])
    /\ (fst (readFn page t) = Ok v
        /\ ev = Log DEBUG ("Read " ++ propertyName ++ ".") None
        \/ exists e,
             fst (readFn page t) = Throw e /\ v = defaultValue
             /\ ev = Log WARN ("Could not read spell " ++ propertyName ++ ".")
                       (Some (message e))).
Proof.
  unfold readSpellProperty, try_catch, bind, log, log_error, emit, ret.
  destruct (readFn page t) as [[v|e] t1]; cbn [fst snd].
  - exists v. eexists. split; [reflexivity|]. left. auto.
  - exists defaultValue. eexists. split; [reflexivity|]. right. eauto.
Qed.

Ltac open_readers :=
  unfold readSpellProperty, readSource, readSource_try, readSchools,
    readSchools_try, readSubschools, readSubschools_try, readDescriptors,
    readDescriptors_try, readClassLevels, readClassLevels_try,
    readDomainLevels, readDomainLevels_try, readComponents,
    readComponents_try, readCastingTime, readCastingTime_try, readRange,
    readRange_try, readArea, readArea_try, readTarget, readTarget_try,
    readEffect, readEffect_try, readDuration, readDuration_try,
    readSavingThrow, readSavingThrow_try, readSpellResistance,
    readSpellResistance_try, readDescription, readDescription_try,
    sourceRead, linksRead, classLevelsRead, domainLevelsRead, componentsRead,
    textRead, descriptionRead, nullable.

Ltac same_read :=
  intros page t; open_readers;
  unfold try_catch, bind, log, log_error, emit, ret; cbv beta;
  repeat match goal with
         | |- context [match ?m with pair _ _ => _ end] =>
             lazymatch m with
             | context [match _ with pair _ _ => _ end] => fail
             | _ => destruct m as [[?|?] ?]
             end
         end;
  try reflexivity; try (split; reflexivity).

(** X4.  Fourteen of the sixteen guarded readers are [readSpellProperty]
    at their field, their read and their default, word for word.
    [readArea] and [readEffect] differ from it in one place: the debug
    line after a successful read says [range] and [target]. *)
Theorem readers_repeat_readSpellProperty :
  repeats readSource "source" sourceRead None
  /\ repeats readSchools "schools" (linksRead "/spells/schools/") []
  /\ repeats readSubschools "subschools" (linksRead "/spells/sub-schools/") []
  /\ repeats readDescriptors "descriptors" (linksRead "/spells/descriptors/") []
  /\ repeats readClassLevels "classLevels" classLevelsRead []
  /\ repeats readDomainLevels "domainLevels" domainLevelsRead []
  /\ repeats readComponents "components" componentsRead []
  /\ repeats readCastingTime "castingTime" (textRead "Casting Time:") None
  /\ repeats readRange "range" (textRead "Range:") None
  /\ repeats readTarget "target" (textRead "Target:") None
  /\ repeats readDuration "duration" (textRead "Duration:") None
  /\ repeats readSavingThrow "savingThrow" (textRead "Saving Throw:") None
  /\ repeats readSpellResistance "spellResistance"
       (textRead "Spell Resistance:") None
  /\ repeats readDescription "description" descriptionRead None
  /\ repeats_but_says readArea "area" (textRead "Area:") None "Read range."
  /\ repeats_but_says readEffect "effect" (textRead "Effect:") None
       "Read target.".
Proof.
  repeat split; same_read.
Qed.

(* ===================================================================== *)
(** * The events of one fetch *)
(* ===================================================================== *)

Lemma debug_low (ev : event) : is_debug ev = true -> low_log ev = true.
Proof. destruct ev as [[] ? ?| | | | | | |]; simpl; auto. Qed.

Lemma low_is_log (ev : event) : low_log ev = true -> is_log ev = true.
Proof. destruct ev as [[] ? ?| | | | | | |]; simpl; auto. Qed.

(** An attempt loads the page once and then only logs, below the level
    [info]. *)
Lemma attempt_shape (tab : Tab) (url : jsstring) (i : nat) (t : trace) :
  exists l,
    snd (attempt tab url i t) = t ++ Goto url :: l /\ forallb low_log l = true.
Proof.
  unfold attempt. erewrite bind_ok by reflexivity. cbv beta zeta.
  match goal with |- context [snd (?m (t ++ [Goto url]))] =>
    assert (W : writer low_log m) end.
  { unfold readSource, readSchools, readSubschools, readDescriptors,
      readClassLevels, readDomainLevels, readComponents, readCastingTime,
      readRange, readArea, readTarget, readEffect, readDuration,
      readSavingThrow, readSpellResistance, readDescription.
    repeat (first
      [ apply writer_bind; [|intros ?]
      | apply writer_try_catch; [|intros ?]
      | apply writer_ret
      | apply writer_emit; reflexivity
      | apply writer_settle
      | apply writer_lift
      | eapply writer_weaken; [| solve [auto with writers]];
        intros ev Hev; apply debug_low, Hev ]). }
  destruct W as [Hrun Hev]. rewrite Hrun. cbn [snd].
  eexists. rewrite <- app_assoc. split; [reflexivity | exact Hev].
Qed.

Lemma logs_or_loads (url : jsstring) (l : trace) :
  forallb low_log l = true ->
  Forall (fun ev => low_log ev = true \/ ev = Goto url) l.
Proof.
  intros H. apply Forall_forall. intros ev Hin. left.
  eapply forallb_forall in H; eauto.
Qed.

(** The retry loop loads the page at least once and at most [retryCount]
    times, and besides that only logs. *)
Lemma retryLoop_shape (tab : Tab) (url : jsstring) :
  forall (n : nat) (retryCount : Z) (i : nat) (t : trace),
    (Z.to_nat retryCount <= n)%nat ->
    exists l,
      snd (retryLoop tab url retryCount i t) = t ++ l
      /\ Forall (fun ev => low_log ev = true \/ ev = Goto url) l
      /\ (gotos l <= Z.to_nat retryCount)%nat
      /\ (0 < retryCount -> (1 <= gotos l)%nat).
Proof.
  induction n as [|n IH]; intros retryCount i t Hn; rewrite retryLoop_step;
    destruct (Z.ltb_spec 0 retryCount); try lia;
    try (exists []; cbn [snd gotos]; rewrite app_nil_r;
         repeat split; auto; lia).
  destruct (attempt_shape tab url i t) as (l & Hl & Hlog).
  pose proof (logs_no_goto (forallb_weaken low_is_log Hlog)) as Hg.
  pose proof (logs_or_loads url Hlog) as Hf.
  destruct (attempt tab url i t) as [[s|e] t1]; cbn [snd] in *; subst t1.
  - exists (Goto url :: l). cbn [gotos]. rewrite Hg.
    repeat split; auto; lia.
  - destruct (Z.leb_spec (retryCount - 1) 0).
    + exists (Goto url :: l ++ [failure_note e]). cbn [snd gotos].
      rewrite gotos_app, Hg. cbn. rewrite <- app_assoc. cbn [app].
      repeat split; auto; try lia.
      all: try (constructor; auto; apply Forall_app; split; auto;
                constructor; auto).
    + destruct (IH (retryCount - 1) (S i) ((t ++ Goto url :: l) ++ [retry_note e]))
        as (l2 & H2 & F2 & G2 & _); [lia|].
      rewrite H2. exists (Goto url :: l ++ retry_note e :: l2). cbn [gotos].
      rewrite gotos_app, Hg. cbn [gotos retry_note plus].
      rewrite <- !app_assoc. cbn [app].
      repeat split; auto; try lia.
      all: try (constructor; auto; apply Forall_app; split; auto;
                constructor; auto).
Qed.

(** X5.  A call of [crawlSpellPage] opens one tab and, when the tab
    opened, closes it as its last act, on every path: between the two it
    loads its url at least once and at most [RETRY_LIMIT] times, whatever
    the browser answers, and does nothing else that can be seen but log
    below the level [info].
    When the tab does not open, nothing is loaded and nothing closed. *)
Theorem crawlSpellPage_opens_and_closes (tab : Tab) (url : jsstring) (t : trace) :
  match tab_open tab with
  | Some e =>
      crawlSpellPage tab url t
      = (Throw e, t ++ [Log VERBOSE "Reading spell" None; NewPage])
  | None =>
      exists l,
        snd (crawlSpellPage tab url t)
        = t ++ Log VERBOSE "Reading spell" None :: NewPage :: l ++ [ClosePage]
        /\ Forall (fun ev => low_log ev = true \/ ev = Goto url) l
        /\ (1 <= gotos l <= Z.to_nat RETRY_LIMIT)%nat
  end.
Proof.
  rewrite crawlSpellPage_run. destruct (tab_open tab) as [e|]; [reflexivity|].
  destruct (@retryLoop_shape tab url _ RETRY_LIMIT 0%nat
              (t ++ [Log VERBOSE "Reading spell" None; NewPage]) (le_n _))
    as (l & Hl & Hf & Hg & Hone).
  destruct (retryLoop tab url RETRY_LIMIT 0 _) as [r t1]. cbn [snd] in *.
  subst t1. exists l. rewrite <- !app_assoc. cbn [app].
  repeat split; auto. apply Hone. reflexivity.
Qed.

(** X6.  When closing the tab fails, the call throws what [close] threw,
    whatever the loop before it had come to: a record that was read is
    lost.  The browser has seen the same as in a call whose tab
    closes. *)
Theorem close_failure_replaces_outcome (tab : Tab) (url : jsstring) (t : trace)
        (e : error) :
  tab_open tab = None ->
  tab_close tab = Some e ->
  fst (crawlSpellPage tab url t) = Throw e
  /\ snd (crawlSpellPage tab url t)
     = snd (crawlSpellPage
              (mkTab None (tab_goto tab) (tab_document tab) None) url t).
Proof.
  intros Hopen Hclose. rewrite !crawlSpellPage_run, Hopen, Hclose.
  cbn [tab_open tab_close].
  assert (Hsame : forall n rc i t0, (Z.to_nat rc <= n)%nat ->
            retryLoop (mkTab None (tab_goto tab) (tab_document tab) None) url rc i t0
            = retryLoop tab url rc i t0).
  { induction n as [|n IH]; intros rc i t0 Hn; rewrite !retryLoop_step;
      destruct (Z.ltb_spec 0 rc); try lia; auto;
      change (attempt (mkTab None (tab_goto tab) (tab_document tab) None) url i t0)
        with (attempt tab url i t0);
      destruct (attempt tab url i t0) as [[s|e0] t1]; auto;
      destruct (Z.leb_spec (rc - 1) 0); auto; apply IH; lia. }
  rewrite (Hsame _ RETRY_LIMIT 0%nat _ (le_n _)).
  destruct (retryLoop tab url RETRY_LIMIT 0 _) as [r t1]. auto.
Qed.

(** The same on a sample: the page loads and has its heading, and the tab
    does not close. *)
Lemma close_failure_replaces_outcome_witness :
  fst (crawlSpellPage stickyTab flyUrl []) = Throw closeError
  /\ snd (crawlSpellPage stickyTab flyUrl [])
     = snd (crawlSpellPage
              (mkTab None (tab_goto stickyTab) (tab_document stickyTab) None)
              flyUrl []).
Proof.
  apply (@close_failure_replaces_outcome stickyTab flyUrl [] closeError);
    reflexivity.
Defined.

(** X7.  A url that does not end in an id is never fetched with success:
    every call of [crawlSpellPage] on it throws, whatever the browser
    does.  The id is read after the page has loaded, so a tab that opens
    still loads the url [RETRY_LIMIT] times; when every load succeeds and
    the tab closes, the error is the one of the missing id. *)
Theorem url_without_id_never_fetched (tab : Tab) (url : jsstring) (e : error)
        (t : trace) :
  spellId url = Throw e ->
  exists e' t',
    crawlSpellPage tab url t = (Throw e', t')
    /\ (tab_open tab = None ->
        gotos t' = (gotos t + Z.to_nat RETRY_LIMIT)%nat)
    /\ (tab_open tab = None -> tab_close tab = None ->
        (forall i, (i < Z.to_nat RETRY_LIMIT)%nat -> tab_goto tab i = None) ->
        e' = e).
Proof.
  intros Hid. rewrite crawlSpellPage_run.
  destruct (tab_open tab) as [e0|].
  { do 2 eexists. split; [reflexivity|]. split; discriminate. }
  assert (Hfails : forall j, (j <= 9)%nat -> exists e1, fails tab url j e1).
  { intros j _. destruct (tab_goto tab j) as [e1|] eqn:Hg.
    - exists e1. now apply goto_fails.
    - exists e. now apply spellId_fails. }
  destruct (@retryLoop_exhausts tab url 9
              (t ++ [Log VERBOSE "Reading spell" None; NewPage]) Hfails)
    as (e1 & t1 & Hloop & Hlast & Hgotos & _).
  change (Z.of_nat 10) with RETRY_LIMIT in Hloop. rewrite Hloop.
  destruct (tab_close tab) as [e2|] eqn:Hclose.
  - exists e2. eexists. split; [reflexivity|]. split.
    + intros _. rewrite gotos_app, Hgotos, gotos_app. cbn. lia.
    + discriminate.
  - exists e1. eexists. split; [reflexivity|]. split.
    + intros _. rewrite gotos_app, Hgotos, gotos_app. cbn. lia.
    + intros _ _ Hall.
      pose proof (@spellId_fails tab url 9 e (Hall 9%nat ltac:(cbn; lia)) Hid [])
        as H1.
      rewrite (Hlast []) in H1. now inversion H1.
Qed.

(** The same on a sample: the url of a row whose link has no [href]. *)
Lemma url_without_id_never_fetched_witness :
  exists e' t',
    crawlSpellPage goodTab (DNDTOOLS_URL_BASE ++ toString None) [] = (Throw e', t')
    /\ (tab_open goodTab = None ->
        gotos t' = (gotos [] + Z.to_nat RETRY_LIMIT)%nat)
    /\ (tab_open goodTab = None -> tab_close goodTab = None ->
        (forall i, (i < Z.to_nat RETRY_LIMIT)%nat -> tab_goto goodTab i = None) ->
        e' = TypeError "Cannot read property '1' of null").
Proof.
  apply (@url_without_id_never_fetched goodTab
           (DNDTOOLS_URL_BASE ++ toString None)
           (TypeError "Cannot read property '1' of null") []).
  vm_compute. reflexivity.
Defined.

(* ===================================================================== *)
(** * One bad link among the domains *)
(* ===================================================================== *)

Lemma silent_run {A} (m : M A) (t : trace) :
  writer (fun _ => false) m -> m t = (outcome m, t).
Proof.
  intros [H E]. rewrite H.
  destruct (effects m); [now rewrite app_nil_r | discriminate].
Qed.

(** [Promise.all] rejects as soon as one of its promises does. *)
Lemma Promise_all_rejects {A} (ps : list (M A)) :
  Forall (writer (fun _ => false)) ps ->
  Exists (fun p => exists e, outcome p = Throw e) ps ->
  forall t, exists e, Promise_all ps t = (Throw e, t).
Proof.
  induction 1 as [|p ps Hp Hps IH]; intros Hex t; [inversion Hex|].
  cbn [Promise_all]. unfold bind at 1. rewrite (silent_run t Hp).
  destruct (outcome p) as [a|e] eqn:Ho; [|eauto].
  inversion Hex as [? ? [e He]|? ? Hex']; subst; [congruence|].
  destruct (IH Hex' t) as (e & He). unfold bind. rewrite He. eauto.
Qed.

(** X8.  The domain levels are read all or none: when one of the domain
    links is detached or has nothing after it, [readDomainLevels] gives
    the empty list with one warning, and the levels of the other links
    are dropped with it. *)
Theorem one_bad_domain_link_drops_all (page : Document) (links : list Element)
        (bad : Element) (t : trace) :
  doc_query page (SelLinkTo "/spells/domains/") = Ok links ->
  In bad links ->
  detached bad <> None \/ nextSibling bad = None ->
  exists e,
    readDomainLevels page t
    = (Ok [],
       t ++ [Log WARN "Could not read spell domainLevels." (Some (message e))]).
Proof.
  intros Hq Hin Hbad.
  assert (Hthrows : exists e, outcome (domainLevelOf bad) = Throw e).
  { unfold outcome, domainLevelOf, evaluate, bind, throw, lift, ret, nextSiblingText.
    destruct (detached bad) as [e|]; [cbn; eauto|].
    destruct Hbad as [Hd | Hn]; [congruence|]. rewrite Hn. cbn. eauto. }
  destruct (@Promise_all_rejects _ (map domainLevelOf links)) with (t := t)
    as (e & He).
  - apply Forall_forall. intros p Hp. apply in_map_iff in Hp.
    destruct Hp as (x & <- & _). apply writer_domainLevelOf.
  - apply Exists_exists. exists (domainLevelOf bad). split; auto.
    now apply in_map.
  - exists e. unfold readDomainLevels, try_catch, readDomainLevels_try.
    erewrite bind_ok by (unfold page_SS, lift; rewrite Hq; reflexivity).
    erewrite bind_throw by exact He. reflexivity.
Qed.

(** The same on a sample: two domain links, the second with nothing
    after it. *)
Lemma one_bad_domain_link_drops_all_witness :
  exists e,
    readDomainLevels looseDomainPage []
    = (Ok [],
       [] ++ [Log WARN "Could not read spell domainLevels." (Some (message e))]).
Proof.
  apply (@one_bad_domain_link_drops_all looseDomainPage
           [node "Travel" (Some " 3"%string); node "Air" None]
           (node "Air" None) []).
  - reflexivity.
  - right. left. reflexivity.
  - right. reflexivity.
Defined.

(* ===================================================================== *)
(** * The texts of a record *)
(* ===================================================================== *)







(* ===================================================================== *)
(** * The source and the components *)
(* ===================================================================== *)






Lemma Promise_all_fulfils {A B} (f : A -> M B) (g : A -> B) (l : list A) :
  (forall a t, In a l -> f a t = (Ok (g a), t)) ->
  forall t, Promise_all (map f l) t = (Ok (map g l), t).
Proof.
  induction l as [|a l IH]; intros Hf t; cbn [map Promise_all]; [reflexivity|].
  unfold bind at 1. rewrite (Hf a t (or_introl eq_refl)).
  unfold bind at 1. rewrite IH; [reflexivity|].
  intros a0 t0 Hin. apply Hf. now right.
Qed.

(** X11.  The components of a record are the titles of the [abbr]
    elements after the label, one for each element and in their order,
    with [null] where an element has no title.  When the handle of one of
    them is detached, the components are dropped, all of them, with one
    warning. *)
Theorem components_one_per_abbr (page : Document) (handles : list Element)
        (t : trace) :
  doc_xpath page (XAbbrAfter "Components:") = Ok handles ->
  (Forall (fun h => detached h = None) handles ->
   readComponents page t
   = (Ok (map (fun h => getAttribute h "title") handles),
      t ++ [Log DEBUG "Read components." None]))
  /\ (forall h e,
         In h handles -> detached h = Some e ->
         exists e',
           readComponents page t
           = (Ok [],
              t ++ [Log WARN "Could not read spell components."
                      (Some (message e'))])).
Proof.
  intros Hq. split.
  - intros Hall. unfold readComponents, try_catch, readComponents_try.
    erewrite bind_ok by (unfold page_Sx, lift; rewrite Hq; reflexivity).
    erewrite bind_ok.
    2:{ apply Promise_all_fulfils with (g := fun h => getAttribute h "title").
        intros h t0 Hin. rewrite Forall_forall in Hall.
        unfold evaluate. now rewrite (Hall h Hin). }
    reflexivity.
  - intros h e Hin Hdet.
    destruct (@Promise_all_rejects _
                (map (fun eh => evaluate eh (fun e => Ok (getAttribute e "title")))
                     handles)) with (t := t) as (e' & He').
    + apply Forall_forall. intros p Hp. apply in_map_iff in Hp.
      destruct Hp as (x & <- & _). apply writer_evaluate.
    + apply Exists_exists.
      exists (evaluate h (fun e => Ok (getAttribute e "title"))).
      split; [now apply in_map with (f := fun eh => evaluate eh _)|].
      exists e. unfold outcome, evaluate, throw. now rewrite Hdet.
    + exists e'. unfold readComponents, try_catch, readComponents_try.
      erewrite bind_ok by (unfold page_Sx, lift; rewrite Hq; reflexivity).
      erewrite bind_throw by exact He'. reflexivity.
Qed.

(** The same on a sample: three elements, the second without a title. *)
Lemma components_one_per_abbr_witness :
  readComponents componentsPage []
  = (Ok [Some (js "Verbal"); None; Some (js "Somatic")],
     [] ++ [Log DEBUG "Read components." None]).
Proof.
  apply (proj1 (@components_one_per_abbr componentsPage
                  [abbr (Some "Verbal"%string); abbr None;
                   abbr (Some "Somatic"%string)] [] eq_refl)).
  repeat constructor.
Defined.

(* ===================================================================== *)
(** * The rows of one list page *)
(* ===================================================================== *)

Lemma rows_accounted (rows : list Element) :
  (length (references rows) + length (parseErrors rows) <= length rows)%nat.
Proof.
  induction rows as [|row rows IH]; cbn [references parseErrors flat_map length];
    [lia|].
  fold (references rows). fold (parseErrors rows).
  rewrite !length_app.
  destruct (outcome (parseRow row [])) as [x|e] eqn:Hrow.
  - destruct (listing row); cbn [length]; lia.
  - rewrite (listing_throws Hrow). cbn [length]. lia.
Qed.

(** X12.  On one list page the faults of single rows are contained and
    the fault of the row query is not.  When the query for the rows
    succeeds, [crawlSpellListPage] returns, and every row has given at
    most one reference or one warning, never both; when the query
    throws, [crawlSpellListPage] throws the same, having logged its entry
    only. *)
Theorem row_faults_contained (page : Document) (t : trace) :
  match doc_query page SelTableRows with
  | Ok rows =>
      exists refs t',
        crawlSpellListPage page t = (Ok refs, t')
        /\ (length refs + length (warned "Error parsing spell table row." t')
            <= length rows
               + length (warned "Error parsing spell table row." t))%nat
  | Throw e => crawlSpellListPage page t = (Throw e, t ++ [page_entered])
  end.
Proof.
  rewrite crawlSpellListPage_run.
  destruct (doc_query page SelTableRows) as [rows|e]; [|reflexivity].
  do 2 eexists. split; [reflexivity|].
  change (page_entered :: rowWarnings rows ++ [page_counted])
    with ([page_entered] ++ rowWarnings rows ++ [page_counted]).
  rewrite !warned_app, warned_rowWarnings. cbn [warned page_entered page_counted].
  rewrite app_nil_r, length_app. cbn [app].
  pose proof (rows_accounted rows). lia.
Qed.

(* ===================================================================== *)
(** * The tab of the list *)
(* ===================================================================== *)

Lemma extends_refl (P : event -> bool) (t : trace) : extends P t t.
Proof. exists []. split; [now rewrite app_nil_r | reflexivity]. Qed.

Lemma extends_trans (P : event -> bool) (t1 t2 t3 : trace) :
  extends P t1 t2 -> extends P t2 t3 -> extends P t1 t3.
Proof.
  intros (l1 & -> & H1) (l2 & -> & H2). exists (l1 ++ l2).
  split; [now rewrite app_assoc | now rewrite forallb_app, H1, H2].
Qed.

Lemma extends_app (P : event -> bool) (t l : trace) :
  forallb P l = true -> extends P t (t ++ l).
Proof. intros H. exists l. auto. Qed.

Lemma extends_weaken (P Q : event -> bool) (t t' : trace) :
  (forall ev, P ev = true -> Q ev = true) -> extends P t t' -> extends Q t t'.
Proof.
  intros HPQ (l & -> & H). exists l. split; auto.
  eapply forallb_weaken; eauto.
Qed.

Lemma rowWarnings_logs (rows : list Element) :
  forallb list_event (rowWarnings rows) = true.
Proof.
  induction rows as [|row rows IH]; cbn [rowWarnings flat_map]; auto.
  fold (rowWarnings rows). rewrite forallb_app, IH.
  destruct (outcome (parseRow row [])); reflexivity.
Qed.

Lemma navigateNext_events (tab : ListTab) (n : nat) :
  forall (fuel j : nat) (t t' : trace),
    navigateNext fuel tab n j t = Some t' -> extends list_event t t'.
Proof.
  induction fuel as [|fuel IH]; intros j t t' H; cbn [navigateNext] in H;
    [discriminate|].
  destruct (list_navigate tab n j) as [e|].
  - apply IH in H. eapply extends_trans; [|exact H].
    apply extends_app. reflexivity.
  - inversion H. apply extends_app. reflexivity.
Qed.

Lemma crawlSpellListPage_events (page : Document) (t : trace) :
  extends list_event t (snd (crawlSpellListPage page t)).
Proof.
  rewrite crawlSpellListPage_run.
  destruct (doc_query page SelTableRows) as [rows|e]; cbn [snd];
    apply extends_app; [|reflexivity].
  change (page_entered :: rowWarnings rows ++ [page_counted])
    with ([page_entered] ++ rowWarnings rows ++ [page_counted]).
  rewrite !forallb_app, rowWarnings_logs. reflexivity.
Qed.

Lemma listLoop_events (tab : ListTab) (navFuel : nat) :
  forall (fuel n : nat) (spellUrls : list reference) (t t' : trace)
         (r : result (list reference)),
    listLoop fuel navFuel tab n spellUrls t = Some (r, t') ->
    extends list_event t t'.
Proof.
  induction fuel as [|fuel IH]; intros n spellUrls t t' r H;
    cbn [listLoop] in H; [discriminate|].
  pose proof (crawlSpellListPage_events (list_page tab n) t) as Hpage.
  destruct (crawlSpellListPage (list_page tab n) t) as [[new|e] t1];
    cbn [snd] in Hpage.
  2:{ inversion H; subst. exact Hpage. }
  unfold page_S, bind, lift, ret in H.
  destruct (doc_query (list_page tab n) SelNext) as [[|btn rest]|e0];
    cbn [first_or_null] in H.
  - inversion H; subst. eapply extends_trans; [exact Hpage|].
    apply extends_app. reflexivity.
  - destruct (navigateNext navFuel tab n 0 _) as [t3|] eqn:Hnav; [|discriminate].
    apply navigateNext_events in Hnav. apply IH in H.
    eapply extends_trans; [exact Hpage|].
    eapply extends_trans; [|exact H].
    eapply extends_trans; [|exact Hnav].
    apply extends_app. reflexivity.
  - inversion H; subst. exact Hpage.
Qed.

(** X13.  Whenever the paginator comes back, with the list or with an
    error, it has opened one tab and loaded the list once, without a
    second try, and the close of the tab is the last thing it did; in
    between it has only logged, below the level [info], and clicked.  When the load fails, its
    error is the outcome.  Only when the tab does not open is there no
    load and no close. *)
Theorem list_tab_opened_and_closed (tab : ListTab) (fuel : nat) (t t' : trace)
        (r : result (list reference)) :
  crawlSpellListPages fuel tab t = Some (r, t') ->
  match list_open tab with
  | Some e => r = Throw e /\ t' = t ++ [NewPage]
  | None =>
      exists l,
        t' = t ++ NewPage :: Goto listUrl :: l ++ [ClosePage]
        /\ forallb list_event l = true
        /\ match list_goto tab with
           | Some e => r = Throw e /\ l = []
           | None => True
           end
  end.
Proof.
  unfold crawlSpellListPages, bind, emit, settle, throw, ret.
  destruct (list_open tab) as [e0|].
  { intros H. inversion H; subst. auto. }
  destruct (list_goto tab) as [e0|].
  { intros H. inversion H; subst. cbn [fst snd]. exists [].
    rewrite <- !app_assoc. cbn [app]. auto. }
  destruct (listLoop fuel fuel tab 0 [] _) as [[r1 t1]|] eqn:Hl; [|discriminate].
  cbn. intros H. inversion H; subst.
  apply listLoop_events in Hl. destruct Hl as (l & -> & Hl).
  exists l. rewrite <- !app_assoc. cbn [app]. auto.
Qed.

(** The same on a sample: the list of two pages. *)
Lemma list_tab_opened_and_closed_witness :
  exists l,
    snd (match crawlSpellListPages 3 twoPages [] with
         | Some x => x
         | None => (Ok [], [])
         end)
    = [] ++ NewPage :: Goto listUrl :: l ++ [ClosePage]
    /\ forallb list_event l = true
    /\ True.
Proof.
  refine (@list_tab_opened_and_closed twoPages 3 []
            (snd (match crawlSpellListPages 3 twoPages [] with
                  | Some x => x
                  | None => (Ok [], [])
                  end))
            (fst (match crawlSpellListPages 3 twoPages [] with
                  | Some x => x
                  | None => (Ok [], [])
                  end)) _).
  vm_compute. reflexivity.
Defined.

(** The paginator leaves its loop with a list only on a page without a
    link to a next page, and has then left every page before it by a
    click that worked. *)
Lemma listLoop_ends (tab : ListTab) (navFuel : nat) :
  forall (fuel n : nat) (spellUrls urls : list reference) (t t' : trace),
    listLoop fuel navFuel tab n spellUrls t = Some (Ok urls, t') ->
    exists m,
      (n <= m)%nat
      /\ doc_query (list_page tab m) SelNext = Ok []
      /\ forall k, (n <= k < m)%nat ->
           (exists btn rest,
               doc_query (list_page tab k) SelNext = Ok (btn :: rest))
           /\ exists j, list_navigate tab k j = None.
Proof.
  induction fuel as [|fuel IH]; intros n spellUrls urls t t' H;
    cbn [listLoop] in H; [discriminate|].
  destruct (crawlSpellListPage (list_page tab n) t) as [[new|e] t1];
    [|discriminate].
  unfold page_S, bind, lift, ret in H.
  destruct (doc_query (list_page tab n) SelNext) as [[|btn rest]|e0] eqn:Hq;
    cbn [first_or_null] in H; [| |discriminate].
  - exists n. repeat split; auto; intros; lia.
  - destruct (navigateNext navFuel tab n 0 _) as [t3|] eqn:Hnav; [|discriminate].
    apply navigateNext_inv in Hnav. destruct Hnav as (j & Hj & _).
    apply IH in H. destruct H as (m & Hm & Hlast & Hbefore).
    exists m. split; [lia|]. split; auto.
    intros k Hk. destruct (Nat.eq_dec k n) as [->|Hne].
    + split; eauto.
    + apply Hbefore. lia.
Qed.

(** X14.  The paginator returns a list only from a page that has no link
    to a next page: that page is the end of its walk, every page before
    it had such a link, and the click on each of them has worked at some
    try. *)
Theorem paginator_stops_without_next (tab : ListTab) (fuel : nat)
        (t t' : trace) (urls : list reference) :
  crawlSpellListPages fuel tab t = Some (Ok urls, t') ->
  exists m,
    doc_query (list_page tab m) SelNext = Ok []
    /\ forall k, (k < m)%nat ->
         (exists btn rest,
             doc_query (list_page tab k) SelNext = Ok (btn :: rest))
         /\ exists j, list_navigate tab k j = None.
Proof.
  unfold crawlSpellListPages, bind, emit, settle, throw, ret.
  destruct (list_open tab) as [e0|]; [discriminate|].
  destruct (list_goto tab) as [e0|]; [discriminate|].
  destruct (listLoop fuel fuel tab 0 [] _) as [[[u|e] t1]|] eqn:Hl;
    try discriminate.
  intros _. apply listLoop_ends in Hl. destruct Hl as (m & _ & Hlast & Hbefore).
  exists m. split; auto. intros k Hk. apply Hbefore. lia.
Qed.

(** The same on a sample: the list of two pages. *)
Lemma paginator_stops_without_next_witness :
  exists m,
    doc_query (list_page twoPages m) SelNext = Ok []
    /\ forall k, (k < m)%nat ->
         (exists btn rest,
             doc_query (list_page twoPages k) SelNext = Ok (btn :: rest))
         /\ exists j, list_navigate twoPages k j = None.
Proof.
  refine (@paginator_stops_without_next twoPages 3 []
            (snd (match crawlSpellListPages 3 twoPages [] with
                  | Some x => x
                  | None => (Ok [], [])
                  end))
            (references page1rows ++ references page2rows) _).
  vm_compute. reflexivity.
Defined.

(** X15.  A list whose every page shows a link to a next page is never
    walked to an end: when the queries work, the paginator does not come
    back, whatever fuel it is given. *)
Theorem endless_list_never_returns (tab : ListTab) (fuel : nat) (t : trace) :
  list_open tab = None ->
  list_goto tab = None ->
  (forall n, exists rows, doc_query (list_page tab n) SelTableRows = Ok rows) ->
  (forall n, exists btn rest,
      doc_query (list_page tab n) SelNext = Ok (btn :: rest)) ->
  crawlSpellListPages fuel tab t = None.
Proof.
  intros Hopen Hgoto Hrows Hnext.
  destruct (crawlSpellListPages fuel tab t) as [[[urls|e] t']|] eqn:H; auto;
    exfalso.
  - unfold crawlSpellListPages, bind, emit, settle, throw, ret in H.
    rewrite Hopen, Hgoto in H.
    destruct (listLoop fuel fuel tab 0 [] _) as [[[u|e] t1]|] eqn:Hl;
      try discriminate.
    apply listLoop_ends in Hl. destruct Hl as (m & _ & Hlast & _).
    destruct (Hnext m) as (btn & rest & Hm). congruence.
  - apply crawlSpellListPages_throws in H.
    destruct H as [H | [H | (n & [H | H])]]; try congruence.
    + destruct (Hrows n) as (rows & Hn). congruence.
    + destruct (Hnext n) as (btn & rest & Hn). congruence.
Qed.

(** The same on a sample. *)
Lemma endless_list_never_returns_witness :
  crawlSpellListPages 40 endlessPages [] = None.
Proof.
  apply (@endless_list_never_returns endlessPages 40 []); try reflexivity.
  - intros n. eexists. reflexivity.
  - intros n. do 2 eexists. reflexivity.
Defined.

(* ===================================================================== *)
(** * The fetches a run has left *)
(* ===================================================================== *)

Lemma fetches_of_app (l1 l2 : list Worker) :
  fetches_of (l1 ++ l2) = fetches_of l1 + fetches_of l2.
Proof.
  induction l1 as [|w l1 IH]; cbn [app fetches_of fold_right]; [reflexivity|].
  fold (fetches_of (l1 ++ l2)). fold (fetches_of l1). lia.
Qed.

Lemma nth_error_split_at (l : list Worker) (k : nat) (w : Worker) :
  nth_error l k = Some w -> l = firstn k l ++ w :: skipn (S k) l.
Proof.
  revert l. induction k as [|k IH]; intros [|x l] H; try discriminate.
  - inversion H. reflexivity.
  - cbn [nth_error] in H. cbn [firstn skipn app]. f_equal. now apply IH.
Qed.

Lemma fetches_of_remove (k : nat) (l : list Worker) (w : Worker) :
  nth_error l k = Some w ->
  fetches_of (remove_nth k l) = fetches_of l - (w_retryCount w + 1).
Proof.
  intros H. rewrite (nth_error_split_at H) at 2. unfold remove_nth.
  rewrite !fetches_of_app. cbn [fetches_of fold_right].
  fold (fetches_of (skipn (S k) l)). lia.
Qed.

Lemma fetches_of_replace (k : nat) (l : list Worker) (w w' : Worker) :
  nth_error l k = Some w ->
  fetches_of (replace_nth k w' l)
  = fetches_of l - w_retryCount w + w_retryCount w'.
Proof.
  intros H. rewrite (nth_error_split_at H) at 2. unfold replace_nth.
  rewrite !fetches_of_app. cbn [fetches_of fold_right].
  fold (fetches_of (skipn (S k) l)). lia.
Qed.

Lemma fetches_of_nonneg (l : list Worker) : in_budget l -> 0 <= fetches_of l.
Proof.
  induction 1 as [|w l Hw Hl IH]; cbn [fetches_of fold_right]; [lia|].
  fold (fetches_of l). lia.
Qed.

Section Budget.

Variable C : Type.
Variable spellCallback : option Spell.t -> C -> trace -> result unit * C * trace.
Variable tabs : nat -> nat -> Tab.

Lemma pending_finalCallback (err : option error) (st : Runner C) :
  r_pending (finalCallback err st) = r_pending st.
Proof. unfold finalCallback. destruct (r_settled st); reflexivity. Qed.

Lemma done_finalCallback (err : option error) (st : Runner C) :
  r_done (finalCallback err st) = r_done st.
Proof. unfold finalCallback. destruct (r_settled st); reflexivity. Qed.

Lemma settled_finalCallback (err : option error) (st : Runner C) :
  r_settled (finalCallback err st) <> None.
Proof.
  unfold finalCallback. destruct (r_settled st) eqn:H; cbn [r_settled];
    [rewrite H|]; discriminate.
Qed.

Lemma pending_noteDone (item : nat) (err : option error) (st : Runner C) :
  r_pending (noteDone item err st) = r_pending st.
Proof.
  unfold noteDone. destruct err; cbn [r_done r_running].
  - now rewrite pending_finalCallback.
  - destruct (r_done st && _); [now rewrite pending_finalCallback | reflexivity].
Qed.

Lemma left_noteDone (item : nat) (err : option error) (st : Runner C) :
  fetches_left (noteDone item err st) = fetches_left st.
Proof. unfold fetches_left. now rewrite pending_noteDone, running_noteDone. Qed.

(** Starting an item moves its fetches from the items that wait to the
    activations that run. *)
Lemma left_replenish (limit : nat) (pending : list (nat * reference)) :
  forall st : Runner C,
    fetches_left (replenish limit pending st)
    = RETRY_LIMIT * Z.of_nat (length pending) + fetches_of (r_running st).
Proof.
  induction pending as [|[item spellUrl] pending IH]; intros st;
    cbn [replenish];
    destruct ((length (r_running st) <? limit)%nat && negb (r_done st));
    try reflexivity.
  - cbn [set_done r_running]. unfold fetches_left.
    destruct (_ =? 0)%nat;
      [rewrite pending_finalCallback, running_finalCallback|]; reflexivity.
  - rewrite startWorker_awaits, IH. cbn [r_running].
    rewrite fetches_of_app. cbn [fetches_of fold_right w_retryCount length].
    unfold RETRY_LIMIT. lia.
Qed.

Lemma budget_replenish (limit : nat) (pending : list (nat * reference)) :
  forall st : Runner C,
    in_budget (r_running st) ->
    in_budget (r_running (replenish limit pending st)).
Proof.
  induction pending as [|[item spellUrl] pending IH]; intros st Hst;
    cbn [replenish];
    destruct ((length (r_running st) <? limit)%nat && negb (r_done st));
    auto.
  - cbn [set_done r_running].
    destruct (_ =? 0)%nat; [rewrite running_finalCallback|]; exact Hst.
  - rewrite startWorker_awaits. apply IH. cbn [r_running].
    apply Forall_app. split; auto. constructor; [|constructor].
    cbn. unfold RETRY_LIMIT. lia.
Qed.

(** An iteratee that goes on to another fetch had a count above zero and
    has taken one off. *)
Lemma resume_await (w w' : Worker) (r : result (option Spell.t)) (c c' : C)
      (t t' : trace) :
  resume spellCallback w r c t = (Await w', c', t') ->
  0 < w_retryCount w /\ w_retryCount w' = w_retryCount w - 1.
Proof.
  unfold resume, loopTest, afterLoop. cbn [w_retryCount].
  destruct r as [spell|err];
    [destruct (spellCallback spell c t) as [[[u|err] c1] t1]|];
    try discriminate;
    destruct (Z.ltb_spec 0 (w_retryCount w)); try discriminate;
    intros Heq; inversion Heq; subst; cbn [w_retryCount]; auto.
Qed.

(** Every fetch that settles takes at least one from what is left. *)
Lemma step_left (k : nat) (st : Runner C) (w : Worker) :
  nth_error (r_running st) k = Some w ->
  in_budget (r_running st) ->
  fetches_left (step spellCallback tabs CONCURRENCY k st) + 1 <= fetches_left st
  /\ in_budget (r_running (step spellCallback tabs CONCURRENCY k st)).
Proof.
  intros Hw Hb. unfold step. rewrite Hw.
  assert (Hrc : 0 <= w_retryCount w).
  { unfold in_budget in Hb. rewrite Forall_forall in Hb. apply Hb.
    eapply nth_error_In; eauto. }
  destruct (crawlSpellPage _ _ _) as [r t1].
  destruct (resume spellCallback w r (r_closure st) t1) as [[ctl c'] t2] eqn:Hres.
  destruct ctl as [w'|item err].
  - apply resume_await in Hres. destruct Hres as [Hpos Hrc'].
    unfold fetches_left. cbn [r_pending r_running].
    rewrite (fetches_of_replace w' Hw). split; [lia|].
    apply Forall_replace_nth; auto. lia.
  - match goal with |- context [noteDone item err ?b] => set (st0 := b) end.
    assert (H0 : fetches_left st0 = fetches_left st - (w_retryCount w + 1)).
    { unfold fetches_left, st0. cbn [r_pending r_running].
      rewrite (fetches_of_remove Hw). lia. }
    assert (Hb0 : in_budget (r_running (noteDone item err st0))).
    { rewrite running_noteDone. unfold st0. cbn [r_running].
      now apply Forall_remove_nth. }
    destruct err as [e|].
    + rewrite left_noteDone. split; [lia | exact Hb0].
    + match goal with |- context [if ?b then _ else _] => destruct b end.
      * rewrite left_noteDone. split; [lia | exact Hb0].
      * rewrite left_replenish. split; [|now apply budget_replenish].
        pose proof (left_noteDone item None st0) as H1.
        unfold fetches_left in H1 at 1. lia.
Qed.

Lemma done_noteDone (item : nat) (st : Runner C) :
  r_done (noteDone item None st) = r_done st.
Proof.
  unfold noteDone. cbn [r_done r_running].
  destruct (r_done st && _); [now rewrite done_finalCallback | reflexivity].
Qed.

Lemma noteDone_settles (item : nat) (st : Runner C) :
  r_done st && (length (r_running st) =? 0)%nat = true ->
  r_settled (noteDone item None st) <> None.
Proof.
  intros H. unfold noteDone. cbn [r_done r_running]. rewrite H.
  apply settled_finalCallback.
Qed.

Lemma replenish_live (limit : nat) (pending : list (nat * reference)) :
  (0 < limit)%nat ->
  forall st : Runner C,
    (r_done st = true -> r_running st <> [] \/ r_settled st <> None) ->
    live (replenish limit pending st).
Proof.
  intros Hlim.
  induction pending as [|[item spellUrl] pending IH]; intros st Hst;
    cbn [replenish];
    (destruct ((length (r_running st) <? limit)%nat && negb (r_done st))
       eqn:Hcond;
     [| unfold live; cbn [r_settled r_running]; intros Hs;
        apply andb_false_iff in Hcond; destruct Hcond as [Hc | Hc];
        [ apply Nat.ltb_ge in Hc; destruct (r_running st);
          [cbn in Hc; lia | discriminate]
        | apply negb_false_iff in Hc; destruct (Hst Hc); [auto | contradiction] ]]).
  - cbn [set_done r_running].
    destruct (length (r_running st) =? 0)%nat eqn:Hrun.
    + intros Hs. exfalso. revert Hs. apply settled_finalCallback.
    + intros _. cbn [r_running]. apply Nat.eqb_neq in Hrun.
      destruct (r_running st); [contradiction | discriminate].
  - rewrite startWorker_awaits. apply IH. cbn [r_done r_running r_settled].
    apply andb_prop in Hcond. destruct Hcond as [_ Hnd].
    apply negb_true_iff in Hnd. rewrite Hnd. discriminate.
Qed.

(** A step leaves a run settled or with an activation running. *)
Lemma step_live (k : nat) (st : Runner C) :
  live st -> live (step spellCallback tabs CONCURRENCY k st).
Proof.
  intros Hlive. unfold step.
  destruct (nth_error (r_running st) k) as [w|] eqn:Hw; auto.
  destruct (crawlSpellPage _ _ _) as [r t1].
  destruct (resume spellCallback w r (r_closure st) t1) as [[ctl c'] t2].
  destruct ctl as [w'|item err].
  - intros _. cbn [r_running]. intros Hnil.
    pose proof (length_replace_nth w' Hw) as Hlen. rewrite Hnil in Hlen.
    destruct (r_running st); [destruct k|]; discriminate.
  - match goal with |- context [noteDone item err ?b] => set (st0 := b) end.
    destruct err as [e|].
    + intros Hs. exfalso. revert Hs. unfold noteDone.
      apply settled_finalCallback.
    + destruct (r_done (noteDone item None st0)
                && (length (r_running (noteDone item None st0)) =? 0)%nat)
        eqn:Hc.
      * intros Hs. exfalso. revert Hs. apply noteDone_settles.
        now rewrite done_noteDone, running_noteDone in Hc.
      * apply replenish_live; [unfold CONCURRENCY; lia|].
        intros Hd. rewrite Hd in Hc. cbn [andb] in Hc.
        apply Nat.eqb_neq in Hc. left.
        destruct (r_running (noteDone item None st0)); [contradiction | discriminate].
Qed.

(** With [k] fetches left at most, the promise is settled when the first
    running fetch has settled [k] times. *)
Lemma settles_within :
  forall (k : nat) (st : Runner C),
    live st -> in_budget (r_running st) ->
    fetches_left st <= Z.of_nat k ->
    awaitSettled spellCallback tabs (repeat 0%nat k) st <> None.
Proof.
  induction k as [|k IH]; intros st Hl Hb Hk; cbn [repeat awaitSettled];
    destruct (r_settled st) eqn:Hs; try discriminate;
    specialize (Hl Hs); destruct (r_running st) as [|w l] eqn:Hr;
    try contradiction.
  - exfalso. unfold fetches_left in Hk. rewrite Hr in Hk.
    cbn [fetches_of fold_right] in Hk. fold (fetches_of l) in Hk.
    inversion Hb as [|? ? Hw Hl']; subst.
    pose proof (fetches_of_nonneg Hl'). unfold RETRY_LIMIT in Hk. lia.
  - assert (Hw : nth_error (r_running st) 0 = Some w) by now rewrite Hr.
    rewrite <- Hr in Hb.
    destruct (step_left Hw Hb) as [Hless Hb'].
    apply IH; auto; [|lia].
    apply step_live. intros _. rewrite Hr. discriminate.
Qed.

Lemma run_budget (sched : list nat) :
  forall st : Runner C,
    in_budget (r_running st) ->
    in_budget (r_running (run spellCallback tabs sched st))
    /\ fetches_left (run spellCallback tabs sched st) <= fetches_left st.
Proof.
  unfold run. induction sched as [|k sched IH]; intros st Hb; cbn [fold_left].
  - split; [exact Hb | lia].
  - destruct (nth_error (r_running st) k) as [w|] eqn:Hw.
    + destruct (step_left Hw Hb) as [Hless Hb'].
      destruct (IH _ Hb') as [H1 H2]. split; [exact H1 | lia].
    + assert (Hsame : step spellCallback tabs CONCURRENCY k st = st)
        by (unfold step; now rewrite Hw).
      rewrite Hsame. now apply IH.
Qed.

Lemma run_live (sched : list nat) :
  forall st : Runner C, live st -> live (run spellCallback tabs sched st).
Proof.
  unfold run. induction sched as [|k sched IH]; intros st Hl; cbn [fold_left];
    auto.
  apply IH. now apply step_live.
Qed.

Lemma crawlSpellPages_budget (spellUrls : list reference) (c : C) (t : trace) :
  live (crawlSpellPages spellUrls c t)
  /\ in_budget (r_running (crawlSpellPages spellUrls c t))
  /\ fetches_left (crawlSpellPages spellUrls c t)
     = RETRY_LIMIT * Z.of_nat (length spellUrls).
Proof.
  unfold crawlSpellPages. split; [|split].
  - apply replenish_live; [unfold CONCURRENCY; lia | discriminate].
  - apply budget_replenish. constructor.
  - rewrite left_replenish, length_enumerate. cbn [r_running fetches_of fold_right].
    lia.
Qed.

End Budget.

(** X16.  A run of [crawlSpellPages] comes to an end whatever the
    browser does and in whatever order the fetches settle, with
    [eachLimit] as its documentation describes it.  The fetches
    the run may still make are never more than [RETRY_LIMIT] for each
    reference and never fewer than none; while the promise is not settled
    a fetch is in flight; and every fetch that settles takes at least one
    from what is left.  So the promise is settled after at most
    [RETRY_LIMIT] fetches for each reference, as when it is always the
    first running fetch that settles next. *)
Theorem run_comes_to_an_end (C : Type)
        (spellCallback : option Spell.t -> C -> trace -> result unit * C * trace)
        (tabs : nat -> nat -> Tab) (spellUrls : list reference) (c : C)
        (t : trace) (sched : list nat) (k : nat) :
  let st := run spellCallback tabs sched (crawlSpellPages spellUrls c t) in
  0 <= fetches_left st <= RETRY_LIMIT * Z.of_nat (length spellUrls)
  /\ (r_settled st = None -> r_running st <> [])
  /\ ((k < length (r_running st))%nat ->
      fetches_left (step spellCallback tabs CONCURRENCY k st) < fetches_left st)
  /\ awaitSettled spellCallback tabs
       (repeat 0%nat (Z.to_nat RETRY_LIMIT * length spellUrls))
       (crawlSpellPages spellUrls c t) <> None.
Proof.
  intros st.
  destruct (crawlSpellPages_budget spellUrls c t) as (Hlive & Hb & Hleft).
  destruct (@run_budget C spellCallback tabs sched _ Hb) as [Hb' Hle].
  fold st in Hb', Hle.
  split; [split|split; [|split]].
  - unfold fetches_left. pose proof (fetches_of_nonneg Hb').
    unfold RETRY_LIMIT. lia.
  - rewrite <- Hleft. exact Hle.
  - apply (@run_live C spellCallback tabs sched _ Hlive).
  - intros Hk. apply nth_error_Some in Hk.
    destruct (nth_error (r_running st) k) as [w|] eqn:Hw; [|contradiction].
    destruct (@step_left C spellCallback tabs k st w Hw Hb') as [Hless _]. lia.
  - apply settles_within; auto. rewrite Hleft. unfold RETRY_LIMIT. lia.
Qed.

(** The same on a sample: one reference whose page loads. *)
Lemma run_comes_to_an_end_witness :
  let st := run collect (fun _ _ => goodTab) []
              (crawlSpellPages [Some flyRef] (mkCollected [] 0) []) in
  0 <= fetches_left st <= RETRY_LIMIT * Z.of_nat (length [Some flyRef])
  /\ (r_settled st = None -> r_running st <> [])
  /\ fetches_left (step collect (fun _ _ => goodTab) CONCURRENCY 0 st)
     < fetches_left st
  /\ awaitSettled collect (fun _ _ => goodTab)
       (repeat 0%nat (Z.to_nat RETRY_LIMIT * length [Some flyRef]))
       (crawlSpellPages [Some flyRef] (mkCollected [] 0) []) <> None.
Proof.
  destruct (@run_comes_to_an_end Collected collect (fun _ _ => goodTab)
              [Some flyRef] (mkCollected [] 0) [] [] 0%nat)
    as (H1 & H2 & H3 & H4).
  split; [exact H1|]. split; [exact H2|]. split; [|exact H4].
  apply H3. vm_compute. lia.
Defined.

(* ===================================================================== *)
(** * The events of a run *)
(* ===================================================================== *)

Lemma count_app (P : event -> bool) (t l : trace) :
  count P (t ++ l) = (count P t + count P l)%nat.
Proof. unfold count. now rewrite filter_app, length_app. Qed.

Lemma count_none (P Q : event -> bool) (l : trace) :
  (forall ev, Q ev = true -> P ev = false) ->
  forallb Q l = true -> count P l = 0%nat.
Proof.
  intros HPQ. induction l as [|ev l IH]; cbn [forallb]; auto.
  intros H. apply andb_prop in H. destruct H as [Ha Hl].
  unfold count in *. cbn [filter]. rewrite (HPQ _ Ha). auto.
Qed.

(** A fetch adds events of the crawl only, at most [RETRY_LIMIT] loads
    among them. *)
Lemma crawlSpellPage_events (tab : Tab) (url : jsstring) (t : trace) :
  exists l,
    snd (crawlSpellPage tab url t) = t ++ l
    /\ forallb crawl_event l = true
    /\ (gotos l <= Z.to_nat RETRY_LIMIT)%nat.
Proof.
  rewrite crawlSpellPage_run. destruct (tab_open tab) as [e|].
  - eexists. split; [reflexivity|]. split; [reflexivity | cbn [gotos]; lia].
  - destruct (@retryLoop_shape tab url _ RETRY_LIMIT 0%nat
                (t ++ [Log VERBOSE "Reading spell" None; NewPage]) (le_n _))
      as (l & Hl & Hf & Hg & _).
    destruct (retryLoop tab url RETRY_LIMIT 0 _) as [r t1]. cbn [snd] in *.
    subst t1.
    exists ([Log VERBOSE "Reading spell" None; NewPage] ++ l ++ [ClosePage]).
    rewrite <- !app_assoc. split; [reflexivity|]. split.
    + rewrite !forallb_app. cbn [forallb crawl_event andb].
      rewrite andb_true_r. apply forallb_forall. intros ev Hin.
      rewrite Forall_forall in Hf.
      destruct (Hf _ Hin) as [H | ->]; [|reflexivity].
      destruct ev as [[] ? ?| | | | | | |]; try discriminate; reflexivity.
    + rewrite !gotos_app. cbn [gotos]. lia.
Qed.

Lemma step_events (tabs : nat -> nat -> Tab) (limit k : nat)
      (st : Runner Collected) :
  exists l,
    r_trace (step collect tabs limit k st) = r_trace st ++ l
    /\ forallb crawl_event l = true
    /\ (gotos l <= Z.to_nat RETRY_LIMIT)%nat.
Proof.
  unfold step. destruct (nth_error (r_running st) k) as [w|].
  2:{ exists []. rewrite app_nil_r. repeat split; cbn [gotos]; lia. }
  match goal with |- context [crawlSpellPage ?tab ?url ?t] =>
    destruct (crawlSpellPage_events tab url t) as (l & Hl & Hf & Hg);
    destruct (crawlSpellPage tab url t) as [r t1] end.
  cbn [snd] in Hl. subst t1. rewrite resume_collect.
  assert (Hlog : forall ev, crawl_event ev && is_log ev = true ->
            exists l',
              (r_trace st ++ l) ++ [ev] = r_trace st ++ l'
              /\ forallb crawl_event l' = true
              /\ (gotos l' <= Z.to_nat RETRY_LIMIT)%nat).
  { intros ev Hev. apply andb_prop in Hev. destruct Hev as [Hc Hev].
    exists (l ++ [ev]). rewrite app_assoc. split; auto.
    rewrite forallb_app, gotos_app, Hf. cbn [forallb andb]. rewrite Hc.
    destruct ev; try discriminate. cbn [gotos].
    split; [reflexivity|]. rewrite Nat.add_0_r. exact Hg. }
  destruct r as [[s|]|e].
  - destruct (if 0 <? w_retryCount w then None else w_error w).
    + rewrite trace_noteDone. apply Hlog. reflexivity.
    + match goal with |- context [if ?b then _ else _] => destruct b end.
      * rewrite trace_noteDone. apply Hlog. reflexivity.
      * rewrite trace_replenish, trace_noteDone. apply Hlog. reflexivity.
  - cbv zeta. destruct (0 <? w_retryCount w); [|rewrite trace_noteDone];
      apply Hlog; reflexivity.
  - destruct (0 <? w_retryCount w); [|rewrite trace_noteDone];
      apply Hlog; reflexivity.
Qed.

Lemma run_events (tabs : nat -> nat -> Tab) (sched : list nat) :
  forall st : Runner Collected,
    extends crawl_event (r_trace st) (r_trace (run collect tabs sched st)).
Proof.
  unfold run. induction sched as [|k sched IH]; intros st; cbn [fold_left].
  - apply extends_refl.
  - eapply extends_trans; [|apply IH].
    destruct (step_events tabs CONCURRENCY k st) as (l & Hl & Hf & _).
    rewrite Hl. now apply extends_app.
Qed.

Lemma awaitSettled_events (tabs : nat -> nat -> Tab) (sched : list nat) :
  forall (st st' : Runner Collected) (err : option error) (rest : list nat),
    awaitSettled collect tabs sched st = Some (err, st', rest) ->
    extends crawl_event (r_trace st) (r_trace st').
Proof.
  induction sched as [|k sched IH]; intros st st' err rest H;
    cbn [awaitSettled] in H;
    destruct (r_settled st) as [x|]; try discriminate;
    try (inversion H; subst; apply extends_refl).
  apply IH in H. eapply extends_trans; [|exact H].
  destruct (step_events tabs CONCURRENCY k st) as (l & Hl & Hf & _).
  rewrite Hl. now apply extends_app.
Qed.

Lemma crawlSpellListPages_events (tab : ListTab) (fuel : nat) (t t' : trace)
      (r : result (list reference)) :
  crawlSpellListPages fuel tab t = Some (r, t') -> extends crawl_event t t'.
Proof.
  unfold crawlSpellListPages, bind, emit, settle, throw, ret.
  destruct (list_open tab) as [e0|].
  { intros H. inversion H; subst. now apply extends_app. }
  destruct (list_goto tab) as [e0|].
  { intros H. inversion H; subst. cbn [fst snd].
    rewrite <- !app_assoc. now apply extends_app. }
  destruct (listLoop fuel fuel tab 0 [] _) as [[r1 t1]|] eqn:Hl; [|discriminate].
  cbn. intros H. inversion H; subst.
  apply listLoop_events in Hl.
  apply (@extends_weaken list_event crawl_event) in Hl;
    [|intros [[] ? ?| | | | | | |]; auto; discriminate].
  eapply extends_trans; [|apply extends_app; reflexivity].
  eapply extends_trans; [|exact Hl].
  rewrite <- !app_assoc. now apply extends_app.
Qed.

(* ===================================================================== *)
(** * The loads of a run *)
(* ===================================================================== *)

Lemma run_loads (tabs : nat -> nat -> Tab) (sched : list nat) :
  forall st : Runner Collected,
    in_budget (r_running st) ->
    Z.of_nat (gotos (r_trace (run collect tabs sched st)))
    + RETRY_LIMIT * fetches_left (run collect tabs sched st)
    <= Z.of_nat (gotos (r_trace st)) + RETRY_LIMIT * fetches_left st.
Proof.
  induction sched as [|k sched IH]; intros st Hb.
  - unfold run. cbn [fold_left]. lia.
  - change (run collect tabs (k :: sched) st)
      with (run collect tabs sched (step collect tabs CONCURRENCY k st)).
    destruct (nth_error (r_running st) k) as [w|] eqn:Hw.
    + destruct (@step_left Collected collect tabs k st w Hw Hb) as [Hless Hb'].
      destruct (step_events tabs CONCURRENCY k st) as (l & Hl & _ & Hg).
      specialize (IH _ Hb'). rewrite Hl, gotos_app in IH.
      unfold RETRY_LIMIT in *. cbn [Z.to_nat Pos.to_nat Pos.iter_op] in Hg.
      lia.
    + assert (Hsame : step collect tabs CONCURRENCY k st = st)
        by (unfold step; now rewrite Hw).
      rewrite Hsame. now apply IH.
Qed.

(** X17.  A run of the driver over [n] references loads spell pages at
    most [RETRY_LIMIT * RETRY_LIMIT] times [n] times, whatever the
    browser does and in whatever order the fetches settle, the fetches
    that go on after a failure included: the two nested retry loops give
    each reference a hundred loads and no more. *)
Theorem loads_bounded (tabs : nat -> nat -> Tab) (spellUrls : list reference)
        (t : trace) (sched : list nat) :
  (gotos (r_trace (run collect tabs sched (startCrawl spellUrls t)))
   <= gotos t + Z.to_nat (RETRY_LIMIT * RETRY_LIMIT) * length spellUrls)%nat.
Proof.
  unfold startCrawl.
  destruct (crawlSpellPages_budget spellUrls (mkCollected [] 0)
              (t ++ [Log INFO "Crawling spells..." None]))
    as (_ & Hb & Hleft).
  pose proof (@run_loads tabs sched _ Hb) as Hrun.
  destruct (@run_budget Collected collect tabs sched _ Hb) as [Hb' _].
  pose proof (fetches_of_nonneg Hb') as Hnn.
  rewrite Hleft in Hrun.
  unfold crawlSpellPages in Hrun at 3. rewrite trace_replenish in Hrun.
  cbn [r_trace] in Hrun. rewrite gotos_app in Hrun. cbn [gotos] in Hrun.
  unfold fetches_left in Hrun.
  change (Z.to_nat (RETRY_LIMIT * RETRY_LIMIT)) with 100%nat.
  unfold RETRY_LIMIT in *. lia.
Qed.

(* ===================================================================== *)
(** * The counter of the driver *)
(* ===================================================================== *)

Lemma closure_finalCallback {C} (err : option error) (st : Runner C) :
  r_closure (finalCallback err st) = r_closure st.
Proof. unfold finalCallback. destruct (r_settled st); reflexivity. Qed.

Lemma closure_noteDone {C} (item : nat) (err : option error) (st : Runner C) :
  r_closure (noteDone item err st) = r_closure st.
Proof.
  unfold noteDone. destruct err; cbn [r_done r_running].
  - now rewrite closure_finalCallback.
  - destruct (r_done st && _); [now rewrite closure_finalCallback | reflexivity].
Qed.

Lemma closure_replenish {C} (limit : nat) (pending : list (nat * reference)) :
  forall st : Runner C, r_closure (replenish limit pending st) = r_closure st.
Proof.
  induction pending as [|[item spellUrl] pending IH]; intros st; cbn [replenish];
    destruct ((length (r_running st) <? limit)%nat && negb (r_done st)); auto.
  - cbn [set_done r_running]. destruct (_ =? 0)%nat;
      [rewrite closure_finalCallback|]; reflexivity.
  - rewrite startWorker_awaits, IH. reflexivity.
Qed.

Lemma step_counter (tabs : nat -> nat -> Tab) (limit k : nat)
      (st : Runner Collected) :
  spellCounter (r_closure st) = length (spells (r_closure st)) ->
  spellCounter (r_closure (step collect tabs limit k st))
  = length (spells (r_closure (step collect tabs limit k st))).
Proof.
  intros Hc. unfold step. destruct (nth_error (r_running st) k) as [w|]; auto.
  destruct (crawlSpellPage _ _ _) as [r t1]. rewrite resume_collect.
  assert (Hmore : forall s,
            spellCounter (mkCollected (spells (r_closure st) ++ [s])
                            (S (spellCounter (r_closure st))))
            = length (spells (mkCollected (spells (r_closure st) ++ [s])
                                (S (spellCounter (r_closure st)))))).
  { intros s. cbn [spellCounter spells]. rewrite length_app, Hc. cbn. lia. }
  destruct r as [[s|]|e].
  - destruct (if 0 <? w_retryCount w then None else w_error w).
    + rewrite closure_noteDone. apply Hmore.
    + match goal with |- context [if ?b then _ else _] => destruct b end.
      * rewrite closure_noteDone. apply Hmore.
      * rewrite closure_replenish, closure_noteDone. apply Hmore.
  - cbv zeta. destruct (0 <? w_retryCount w); [|rewrite closure_noteDone];
      exact Hc.
  - destruct (0 <? w_retryCount w); [|rewrite closure_noteDone]; exact Hc.
Qed.

Lemma sync_length (d : list (nat * option Spell.t))
      (f : list (nat * option error)) :
  sync d f -> (length d <= length f)%nat.
Proof.
  induction 1; rewrite ?length_app; cbn [length]; lia.
Qed.

(** X18.  The counter behind the callback of the driver is the number of
    records collected so far, and that number never exceeds the number
    of references: the count logged with each record is at most the total
    logged beside it, also for the records that come in after the run has
    failed. *)
Theorem collected_within_total (tabs : nat -> nat -> Tab)
        (spellUrls : list reference) (t : trace) (sched : list nat) :
  let c := r_closure (run collect tabs sched (startCrawl spellUrls t)) in
  spellCounter c = length (spells c)
  /\ (length (spells c) <= length spellUrls)%nat.
Proof.
  intros c. subst c. split.
  - assert (Hgen : forall sched st,
              spellCounter (r_closure st) = length (spells (r_closure st)) ->
              spellCounter (r_closure (run collect tabs sched st))
              = length (spells (r_closure (run collect tabs sched st)))).
    { clear. intros sched. unfold run.
      induction sched as [|k sched IH]; intros st Hst; cbn [fold_left]; auto.
      apply IH. now apply step_counter. }
    apply Hgen. unfold startCrawl, crawlSpellPages.
    rewrite closure_replenish. reflexivity.
  - assert (HI : runner_inv spellUrls tabs
                   (run collect tabs sched (startCrawl spellUrls t))).
    { apply run_inv. unfold startCrawl. now apply crawlSpellPages_inv. }
    destruct HI as [Hpend _ _ _ Hsync Hspells _ _].
    destruct Hpend as (m & _ & Hle & Hperm).
    apply Permutation_length in Hperm.
    rewrite length_app, !length_map, length_seq in Hperm.
    apply sync_length in Hsync.
    apply (f_equal (@length _)) in Hspells. rewrite !length_map in Hspells.
    lia.
Qed.

(* ===================================================================== *)
(** * The run of the program *)
(* ===================================================================== *)

Lemma crawl_not_stdout (ev : event) : crawl_event ev = true -> not_stdout ev = true.
Proof. destruct ev; auto. Qed.

Lemma crawl_not_launch (ev : event) : crawl_event ev = true -> is_Launch ev = false.
Proof. destruct ev; auto. Qed.

Lemma crawl_not_close (ev : event) :
  crawl_event ev = true -> is_CloseBrowser ev = false.
Proof. destruct ev; auto. Qed.

Lemma crawl_not_ending (ev : event) :
  crawl_event ev = true -> is_ending ev = false.
Proof.
  destruct ev as [[] msg ?| | | | | | |]; cbn [crawl_event is_ending]; auto;
    try discriminate.
  intros H. now apply negb_true_iff in H.
Qed.

(** A run whose browser launched: the launch, what the crawl did, the
    one ending of the inner [try], the close of the browser with its
    note, and what the fetches left behind did after it. *)
Lemma main_shape (world : World) (fuel : nat) (sched : list nat) (t : trace) :
  world_launch world = None ->
  main world fuel sched = Some t ->
  exists l0 ending l2,
    t = Launch :: l0
        ++ ending :: CloseBrowser :: closeNote (world_close world) ++ l2
    /\ forallb crawl_event l0 = true
    /\ is_ending ending = true
    /\ forallb crawl_event l2 = true.
Proof.
  intros Hlaunch. unfold main, bind, emit, settle, throw, ret.
  rewrite Hlaunch. unfold crawlAll. change ([] ++ [Launch]) with [Launch].
  change ([Launch] ++ [Log INFO "Building list of spells..." None])
    with listing_start.
  destruct (crawlSpellListPages fuel (world_list world) listing_start)
    as [[[spellUrls|e] t1]|] eqn:Hlist; [| |discriminate];
    apply crawlSpellListPages_events in Hlist;
    destruct Hlist as (la & -> & Ha).
  - destruct (0 <? length spellUrls)%nat.
    + destruct (awaitSettled collect (world_tabs world) sched
                  (startCrawl spellUrls (listing_start ++ la)))
        as [[[[err|] st] rest]|] eqn:Hrun; [| |discriminate];
        apply awaitSettled_events in Hrun;
        destruct Hrun as (lb & Hst & Hb);
        unfold startCrawl, crawlSpellPages in Hst;
        rewrite trace_replenish in Hst; cbn [r_trace] in Hst;
        intros H; inversion H; subst t; clear H;
        match goal with |- context [run collect ?tabs ?rest ?st0] =>
          destruct (run_events tabs rest st0) as (lc & Hc & Hfc) end;
        cbn [with_trace r_trace] in Hc; rewrite Hc, Hst;
        destruct (world_close world) as [ec|]; cbn [closeNote];
        exists ([Log INFO "Building list of spells..." None] ++ la
                ++ [Log INFO "Crawling spells..." None] ++ lb);
        eexists; exists lc;
        (split; [unfold listing_start; repeat (cbn [app]; rewrite <- app_assoc);
                 cbn [app]; reflexivity|]);
        (split; [rewrite !forallb_app, Ha, Hb; reflexivity|]);
        (split; [reflexivity | exact Hfc]).
    + intros H. inversion H; subst t; clear H.
      destruct (world_close world) as [ec|]; cbn [closeNote];
        exists ([Log INFO "Building list of spells..." None] ++ la);
        eexists; exists [];
        (split; [unfold listing_start; repeat (cbn [app]; rewrite <- app_assoc);
                 cbn [app]; reflexivity|]);
        (split; [rewrite !forallb_app, Ha; reflexivity|]);
        (split; reflexivity).
  - intros H. inversion H; subst t; clear H.
    destruct (world_close world) as [ec|]; cbn [closeNote];
      exists ([Log INFO "Building list of spells..." None] ++ la);
      eexists; exists [];
      (split; [unfold listing_start; repeat (cbn [app]; rewrite <- app_assoc);
               cbn [app]; reflexivity|]);
      (split; [rewrite !forallb_app, Ha; reflexivity|]);
      (split; reflexivity).
Qed.

Lemma closeNote_quiet (o : option error) (l : trace) :
  stdout (closeNote o ++ l) = stdout l
  /\ count is_ending (closeNote o ++ l) = count is_ending l
  /\ count is_Launch (closeNote o ++ l) = count is_Launch l
  /\ count is_CloseBrowser (closeNote o ++ l) = count is_CloseBrowser l.
Proof. destruct o; repeat split; reflexivity. Qed.

(** X19.  A run of the program that comes to its end has launched the
    browser first and once.  When the launch failed it has logged that
    and done nothing else.  When the browser launched, the run has ended
    in one of three ways and in one only (the output, the report of an
    error, the report of an empty list) and has closed the browser right
    after, once, on every path; nothing is written to standard output
    after the close. *)
Theorem run_ends_one_way (world : World) (fuel : nat) (sched : list nat)
        (t : trace) :
  main world fuel sched = Some t ->
  (forall e,
      world_launch world = Some e ->
      t = [Launch; Log ERROR "Could not start browser." (Some (message e))])
  /\ (world_launch world = None ->
      exists l0 ending l2,
        t = Launch :: l0 ++ ending :: CloseBrowser :: l2
        /\ is_ending ending = true
        /\ count is_ending (l0 ++ l2) = 0%nat
        /\ count is_Launch (l0 ++ l2) = 0%nat
        /\ count is_CloseBrowser (l0 ++ l2) = 0%nat
        /\ stdout l2 = []).
Proof.
  intros H. split.
  - intros e Hlaunch.
    unfold main, bind, emit, settle, throw in H. rewrite Hlaunch in H.
    inversion H. reflexivity.
  - intros Hlaunch.
    destruct (main_shape Hlaunch H) as (l0 & ending & l2 & -> & H0 & He & H2).
    destruct (closeNote_quiet (world_close world) l2) as (Hq1 & Hq2 & Hq3 & Hq4).
    exists l0, ending, (closeNote (world_close world) ++ l2).
    split; [reflexivity|]. split; [exact He|].
    rewrite (@count_app is_ending l0), (@count_app is_Launch l0),
      (@count_app is_CloseBrowser l0), Hq1, Hq2, Hq3, Hq4.
    rewrite (count_none crawl_not_ending H0), (count_none crawl_not_ending H2).
    rewrite (count_none crawl_not_launch H0), (count_none crawl_not_launch H2).
    rewrite (count_none crawl_not_close H0), (count_none crawl_not_close H2).
    repeat split. apply no_stdout.
    eapply forallb_weaken; [apply crawl_not_stdout | exact H2].
Qed.

(** The same on a sample: a world in which all four spell pages load. *)
Lemma run_ends_one_way_witness :
  let t := match main fairWorld 3 [0; 0; 0; 0]%nat with
           | Some t => t
           | None => []
           end in
  exists l0 ending l2,
    t = Launch :: l0 ++ ending :: CloseBrowser :: l2
    /\ is_ending ending = true
    /\ count is_ending (l0 ++ l2) = 0%nat
    /\ count is_Launch (l0 ++ l2) = 0%nat
    /\ count is_CloseBrowser (l0 ++ l2) = 0%nat
    /\ stdout l2 = [].
Proof.
  intros t.
  apply (proj2 (@run_ends_one_way fairWorld 3 [0; 0; 0; 0]%nat t
                  ltac:(vm_compute; reflexivity))).
  reflexivity.
Defined.

(** X20.  When [browser.close()] throws, the error reaches the outer
    [catch] of the driver, whose words are those of a failed launch: the
    run logs that the browser could not be started, after a browser that
    did start has been told to close.  What the run has written to
    standard output stands. *)
Theorem close_failure_reported_as_start_failure (world : World) (fuel : nat)
        (sched : list nat) (t : trace) (e : error) :
  world_launch world = None ->
  world_close world = Some e ->
  main world fuel sched = Some t ->
  exists l1 l2,
    t = Launch :: l1
        ++ CloseBrowser
           :: Log ERROR "Could not start browser." (Some (message e)) :: l2
    /\ stdout t = stdout l1
    /\ count is_CloseBrowser (l1 ++ l2) = 0%nat.
Proof.
  intros Hlaunch Hclose H.
  destruct (main_shape Hlaunch H) as (l0 & ending & l2 & -> & H0 & He & H2).
  rewrite Hclose. cbn [closeNote app].
  exists (l0 ++ [ending]), l2. rewrite <- !app_assoc. cbn [app].
  split; [reflexivity|]. split.
  - change (Launch :: l0 ++ ending :: CloseBrowser
              :: Log ERROR "Could not start browser." (Some (message e)) :: l2)
      with ([Launch] ++ l0 ++ [ending]
            ++ [CloseBrowser;
                Log ERROR "Could not start browser." (Some (message e))] ++ l2).
    rewrite !stdout_app. cbn [stdout].
    rewrite (@no_stdout l2); [now rewrite !app_nil_r|].
    eapply forallb_weaken; [apply crawl_not_stdout | exact H2].
  - change (ending :: l2) with ([ending] ++ l2). rewrite !count_app.
    rewrite (count_none crawl_not_close H0), (count_none crawl_not_close H2).
    destruct ending as [[] ? ?| | | | | | |]; try discriminate; reflexivity.
Qed.

(** The same on a sample: all four spell pages load and the browser does
    not close. *)
Lemma close_failure_reported_as_start_failure_witness :
  let t := match main stickyWorld 3 [0; 0; 0; 0]%nat with
           | Some t => t
           | None => []
           end in
  exists l1 l2,
    t = Launch :: l1
        ++ CloseBrowser
           :: Log ERROR "Could not start browser." (Some (message closeError))
           :: l2
    /\ stdout t = stdout l1
    /\ count is_CloseBrowser (l1 ++ l2) = 0%nat.
Proof.
  intros t.
  apply (@close_failure_reported_as_start_failure stickyWorld 3
           [0; 0; 0; 0]%nat t closeError eq_refl eq_refl).
  vm_compute. reflexivity.
Defined.

(** X21.  The program never prints an empty array.  What it writes is the
    array of a resolved run, which holds a record for each of at least
    one reference; when the list gave no reference, nothing at all is
    written. *)
Theorem never_prints_an_empty_array (world : World) (fuel : nat)
        (sched : list nat) (t : trace) :
  main world fuel sched = Some t ->
  Forall (fun json => json <> []) (stdout t).
Proof.
  intros H. apply main_stdout in H.
  destruct (world_launch world); [rewrite H; constructor|].
  destruct (crawlSpellListPages fuel (world_list world) listing_start)
    as [[[spellUrls|e] t1]|]; [| rewrite H; constructor | contradiction].
  destruct (Nat.ltb_spec 0 (length spellUrls)) as [Hpos|];
    [|rewrite H; constructor].
  destruct (awaitSettled collect (world_tabs world) sched
              (startCrawl spellUrls t1)) as [[[[err|] st] rest]|] eqn:Hrun;
    [rewrite H; constructor | | contradiction].
  rewrite H. constructor; [|constructor]. intros Hnil.
  apply awaitSettled_inv with (spellUrls := spellUrls) in Hrun;
    [|unfold startCrawl; now apply crawlSpellPages_inv].
  destruct Hrun as [HI Hs].
  destruct (resolved_run HI Hs) as (_ & Hperm & Hsame & Hrec).
  apply Permutation_length in Hperm. rewrite length_map, length_seq in Hperm.
  apply Forall2_length in Hrec. rewrite Hsame, length_map, Hperm, Hnil in Hrec.
  cbn in Hrec. lia.
Qed.

(** The same on samples: a list without a row of the allow-list, and a
    world in which all four spell pages load. *)
Lemma never_prints_an_empty_array_witness :
  Forall (fun json => json <> [])
         (stdout (match main emptyWorld 3 [] with
                  | Some t => t
                  | None => []
                  end))
  /\ Forall (fun json : list Spell.t => json <> [])
            (stdout (match main fairWorld 3 [0; 0; 0; 0]%nat with
                     | Some t => t
                     | None => []
                     end)).
Proof.
  split.
  - apply (@never_prints_an_empty_array emptyWorld 3 []
             (match main emptyWorld 3 [] with
              | Some t => t
              | None => []
              end)).
    vm_compute. reflexivity.
  - apply (@never_prints_an_empty_array fairWorld 3 [0; 0; 0; 0]%nat
             (match main fairWorld 3 [0; 0; 0; 0]%nat with
              | Some t => t
              | None => []
              end)).
    vm_compute. reflexivity.
Defined.

(** X22.  The load of the list is tried once.  When it fails, the
    program closes the tab, logs the error, closes the browser and ends:
    no row is read, no spell page is opened and nothing is written. *)
Theorem list_load_not_retried (world : World) (fuel : nat) (sched : list nat)
        (e : error) :
  world_launch world = None ->
  list_open (world_list world) = None ->
  list_goto (world_list world) = Some e ->
  main world fuel sched
  = Some ([Launch; Log INFO "Building list of spells..." None; NewPage;
           Goto listUrl; ClosePage;
           Log ERROR "Unexpected error!" (Some (message e)); CloseBrowser]
          ++ closeNote (world_close world)).
Proof.
  intros Hlaunch Hopen Hgoto.
  unfold main, crawlAll, crawlSpellListPages, bind, emit, settle, throw, ret.
  rewrite Hlaunch, Hopen, Hgoto. cbn [fst snd app].
  destruct (world_close world); reflexivity.
Qed.

(** The same on a sample. *)
Lemma list_load_not_retried_witness :
  main noListWorld 3 [0; 0]%nat
  = Some ([Launch; Log INFO "Building list of spells..." None; NewPage;
           Goto listUrl; ClosePage;
           Log ERROR "Unexpected error!" (Some (message timeout)); CloseBrowser]
          ++ closeNote (world_close noListWorld)).
Proof.
  apply (@list_load_not_retried noListWorld 3 [0; 0]%nat timeout);
    reflexivity.
Defined.

(** X23.  One reference without an id silences the program.  When the
    list holds a reference whose url does not end in an id, as for a row
    whose link has no [href], no fetch of it can succeed, the run of
    [crawlSpellPages] cannot resolve, and nothing is written to standard
    output, however well the other spell pages load. *)
Theorem reference_without_id_silences_output (world : World) (fuel : nat)
        (sched : list nat) (t t1 : trace) (spellUrls : list reference)
        (r : reference) (e : error) :
  main world fuel sched = Some t ->
  crawlSpellListPages fuel (world_list world) listing_start
  = Some (Ok spellUrls, t1) ->
  In r spellUrls ->
  spellId (DNDTOOLS_URL_BASE ++ toString r) = Throw e ->
  stdout t = [].
Proof.
  intros H Hlist Hin Hid. apply main_stdout in H.
  destruct (world_launch world); [exact H|].
  rewrite Hlist in H.
  destruct (0 <? length spellUrls)%nat; [|exact H].
  destruct (awaitSettled collect (world_tabs world) sched
              (startCrawl spellUrls t1)) as [[[[err|] st] rest]|] eqn:Hrun;
    [exact H | | contradiction].
  exfalso.
  apply awaitSettled_inv with (spellUrls := spellUrls) in Hrun;
    [|unfold startCrawl; now apply crawlSpellPages_inv].
  destruct Hrun as [HI Hs].
  destruct (resolved_run HI Hs) as (_ & Hperm & Hsame & Hrec).
  apply In_nth_error in Hin. destruct Hin as (i & Hi).
  assert (Hlt : (i < length spellUrls)%nat)
    by (apply nth_error_Some; congruence).
  assert (Hfin : In i (map fst (r_delivered st))).
  { rewrite Hsame. eapply Permutation_in;
      [apply Permutation_sym, Hperm | apply in_seq; lia]. }
  assert (Hfetched : exists s, fetched spellUrls (world_tabs world) i (Some s)).
  { clear - Hfin Hrec. induction Hrec as [|j s js ss Hj _ IH]; [contradiction|].
    destruct Hfin as [-> | Hfin]; eauto. }
  destruct Hfetched as (s & url & call & t0 & t0' & Hurl & Hcall).
  rewrite Hi in Hurl. inversion Hurl; subst url.
  apply crawlSpellPage_inv in Hcall.
  destruct Hcall as (? & id & ? & ? & Hid' & _). congruence.
Qed.

(** The same on a sample: a list whose one row has a link without
    [href]. *)
Lemma reference_without_id_silences_output_witness :
  stdout (match main hreflessWorld 2 (repeat 0%nat 10) with
          | Some t => t
          | None => []
          end) = [].
Proof.
  apply (@reference_without_id_silences_output hreflessWorld 2
           (repeat 0%nat 10)
           (match main hreflessWorld 2 (repeat 0%nat 10) with
            | Some t => t
            | None => []
            end)
           (snd (match crawlSpellListPages 2 (world_list hreflessWorld)
                         listing_start with
                 | Some x => x
                 | None => (Ok [], [])
                 end))
           [None] None (TypeError "Cannot read property '1' of null")).
  - vm_compute. reflexivity.
  - vm_compute. reflexivity.
  - left. reflexivity.
  - vm_compute. reflexivity.
Defined.

(** X24.  The callback of the driver never sees [undefined].  A call of
    [crawlSpellPage] returns a record or throws: its loop is entered with a
    count above zero and cannot run out without either.  So every record
    handed to the callback in a run is a record, and reading its name
    cannot throw. *)
Theorem callback_never_sees_undefined (tab : Tab) (url : jsstring) (t0 : trace)
        (tabs : nat -> nat -> Tab) (spellUrls : list reference) (t : trace)
        (sched : list nat) :
  fst (crawlSpellPage tab url t0) <> Ok None
  /\ Forall (fun d => exists s, snd d = Some s)
            (r_delivered (run collect tabs sched (startCrawl spellUrls t))).
Proof.
  split.
  - intros H. destruct (crawlSpellPage tab url t0) as [r t1] eqn:Hc.
    cbn [fst] in H. subst r. eapply crawlSpellPage_defined, Hc.
  - assert (HI : runner_inv spellUrls tabs
                   (run collect tabs sched (startCrawl spellUrls t))).
    { apply run_inv. unfold startCrawl. now apply crawlSpellPages_inv. }
    pose proof (inv_spells HI) as Hspells.
    revert Hspells. generalize (spells (r_closure
                                  (run collect tabs sched (startCrawl spellUrls t)))).
    induction (r_delivered (run collect tabs sched (startCrawl spellUrls t)))
      as [|d ds IH]; intros [|s ss] H; try discriminate; constructor.
    + cbn [map] in H. inversion H. eauto.
    + cbn [map] in H. inversion H. eapply IH. eassumption.
Qed.

(* ===================================================================== *)
(** * The functions at work *)
(* ===================================================================== *)

Example parseInt_leading_digits : parseInt (js " 12abc") = Num 12.
Proof. reflexivity. Qed.

Example parseInt_hexadecimal : parseInt (js "-0x1f") = Num (-31).
Proof. reflexivity. Qed.

Example parseInt_no_digits : parseInt (js ", level") = NaN.
Proof. reflexivity. Qed.

(** Above 2^53 the digits are rounded to the nearest double, ties to
    even; a run beyond the doubles gives [Infinity]; a zero keeps its
    minus sign. *)
Example parseInt_rounds_to_even :
  parseInt (js "9007199254740993") = Num 9007199254740992
  /\ parseInt (js "9007199254740995") = Num 9007199254740996.
Proof. split; vm_compute; reflexivity. Qed.

Example parseInt_long_run : parseInt (repeat 57%N 400) = Infinity.
Proof. vm_compute. reflexivity. Qed.

Example parseInt_minus_zero : parseInt (js "-0") = NegZero.
Proof. reflexivity. Qed.

Example classLevel_beyond_doubles :
  parseClassSpellLevel (js "Cleric " ++ repeat 57%N 400)
  = Some (ClassSpellLevel.make (js "Cleric") Infinity).
Proof. vm_compute. reflexivity. Qed.

Example trim_both_ends : trim (js "  Magic  Missile ") = js "Magic  Missile".
Proof. reflexivity. Qed.

Example classLevel_matches :
  exec re_classLevel (js "Sorcerer 3")
  = Some [js "Sorcerer 3"; js "Sorcerer"; js "3"].
Proof. reflexivity. Qed.

Example classLevel_needs_a_level : parseClassSpellLevel (js "Sorcerer") = None.
Proof. reflexivity. Qed.

Example source_page : exec re_digits (js " (p. 231)") = Some [js "231"].
Proof. reflexivity. Qed.

Example id_of_fly : spellId flyUrl = Ok (js "2589").
Proof. reflexivity. Qed.

Example id_needs_digits : spellId (js "https://dndtools.net/spells/") <> Ok [].
Proof. vm_compute. discriminate. Qed.

(** Three rows of the allow-list and two others on the first page, one
    on the second: four references, in page and row order, and one
    warning for the broken row. *)
Example paginator_two_pages :
  exists t,
    crawlSpellListPages 3 twoPages [] =
    Some (Ok [Some (js "/spells/players-handbook-v35--6/fly--2589/");
              Some (js "/spells/spell-compendium--86/blast-force--4001/");
              Some (js "/spells/players-handbook-v35--6/light--2700/");
              Some (js "/spells/players-handbook-v35--6/wish--2999/")], t)
    /\ warned "Error parsing spell table row." t
       = [Some (message (no_match (SelCellLink 4)))]
    /\ clicks t = 2%nat.
Proof. eexists. vm_compute. repeat split; reflexivity. Qed.

(** A link that never works keeps the paginator in its loop. *)
Example paginator_stuck : crawlSpellListPages 50 stuckPages [] = None.
Proof. vm_compute. reflexivity. Qed.

(** Two failed loads, then the page: three loads, one record. *)
Example fetch_third_try :
  let (r, t) := crawlSpellPage slowTab flyUrl [] in
  r = Ok (Some bareRecord) /\ gotos t = 3%nat.
Proof. vm_compute. split; reflexivity. Qed.

(** A fetch that succeeds at its ninth call ends its item without error. *)
Example ninth_call_succeeds :
  let st :=
    run collect (fun _ call => if (call <? 8)%nat then deadTab else goodTab)
      (repeat 0%nat 9) (crawlSpellPages [Some flyRef] (mkCollected [] 0) []) in
  r_finished st = [(0%nat, None)] /\ r_settled st = Some None.
Proof. vm_compute. split; reflexivity. Qed.

(** All four pages load: one write, four records, in the order in which
    the fetches ended. *)
Example fair_run :
  option_map stdout (main fairWorld 3 [3; 0; 1; 0]%nat)
  = Some [[bareRecordOf "2999"; bareRecordOf "2589"; bareRecordOf "2700";
           bareRecordOf "4001"]].
Proof. vm_compute. reflexivity. Qed.

(** The page of one reference never loads: the other three fetches end
    first, then its tenth fetch fails, the promise is rejected and nothing
    is written. *)
Example broken_run :
  option_map stdout (main brokenWorld 3 ([0; 1; 1] ++ repeat 0 10)%nat)
  = Some [].
Proof. vm_compute. reflexivity. Qed.

(** No row of the allow-list: nothing found, no fetch, no output. *)
Example empty_run :
  option_map (fun t => (stdout t, gotos t)) (main emptyWorld 3 [])
  = Some ([], 1%nat).
Proof. vm_compute. reflexivity. Qed.
